(** * Chess-Bot: rules engine and alpha-beta search, embedded and verified

    The development follows [scripts/chess_game.py] (pieces, moves, the
    board with its move generator and [make_move]) and
    [scripts/chess_bot.py] (evaluation, move ordering, minimax with
    alpha-beta pruning).

    Coordinates are Python integers, hence [Z]; the board is the 8x8 list
    of lists of optional pieces of the source.  Every [Piece] object is
    referenced from at most one square of one board ([copy.deepcopy]
    duplicates the pieces, and no statement of [make_move] leaves the same
    piece on two squares), so a piece is held by value in its square and
    [moved_piece.has_moved = True] is a write to that square.  Board
    objects themselves are shared and mutated in place; the definitions
    named [_obj] model them in a store of objects. *)

From Stdlib Require Import ZArith List Bool String Ascii Lia Permutation.
From Stdlib Require Import DecimalString Sorted.
Import ListNotations.
Local Open Scope Z_scope.

(** ** Pieces, colours and moves *)

Inductive PieceType := PAWN | ROOK | KNIGHT | BISHOP | QUEEN | KING.

Inductive Color := WHITE | BLACK.

Definition PieceType_eqb (a b : PieceType) : bool :=
  match a, b with
  | PAWN, PAWN | ROOK, ROOK | KNIGHT, KNIGHT
  | BISHOP, BISHOP | QUEEN, QUEEN | KING, KING => true
  | _, _ => false
  end.

Definition Color_eqb (a b : Color) : bool :=
  match a, b with
  | WHITE, WHITE | BLACK, BLACK => true
  | _, _ => false
  end.

(** [Color.BLACK if c == Color.WHITE else Color.WHITE] *)
Definition other_color (c : Color) : Color :=
  match c with WHITE => BLACK | BLACK => WHITE end.

Record Piece := mkPiece {
  piece_type : PieceType;
  piece_color : Color;
  has_moved : bool
}.

(** [Piece.__init__]: a fresh piece has not moved. *)
Definition Piece_init (t : PieceType) (c : Color) : Piece :=
  mkPiece t c false.

Definition set_has_moved (p : Piece) : Piece :=
  mkPiece (piece_type p) (piece_color p) true.

Definition Pos := (Z * Z)%type.

Definition Pos_eqb (a b : Pos) : bool :=
  (fst a =? fst b) && (snd a =? snd b).

Record Move := mkMove {
  from_pos : Pos;
  to_pos : Pos;
  promotion : option PieceType;
  is_castling : bool;
  is_en_passant : bool
}.

(** The three ways the source builds a move. *)
Definition plain_move (f t : Pos) : Move := mkMove f t None false false.
Definition promotion_move (f t : Pos) (k : PieceType) : Move :=
  mkMove f t (Some k) false false.
Definition castling_move (f t : Pos) : Move := mkMove f t None true false.
Definition en_passant_move (f t : Pos) : Move := mkMove f t None false true.

Definition promotion_eqb (a b : option PieceType) : bool :=
  match a, b with
  | None, None => true
  | Some x, Some y => PieceType_eqb x y
  | _, _ => false
  end.

(** [Move.__eq__]: origin, destination and promotion; the two flags are
    not compared. *)
Definition Move_eqb (a b : Move) : bool :=
  Pos_eqb (from_pos a) (from_pos b) &&
  Pos_eqb (to_pos a) (to_pos b) &&
  promotion_eqb (promotion a) (promotion b).

(** [move in moves] *)
Definition move_in (m : Move) (l : list Move) : bool :=
  existsb (Move_eqb m) l.

(** ** The board *)

Definition Grid := list (list (option Piece)).

Record ChessBoard := mkBoard {
  board : Grid;
  current_player : Color;
  move_history : list Move;
  en_passant_target : option Pos;
  halfmove_clock : Z;
  fullmove_number : Z
}.

Definition with_board (s : ChessBoard) (g : Grid) : ChessBoard :=
  mkBoard g (current_player s) (move_history s) (en_passant_target s)
          (halfmove_clock s) (fullmove_number s).

Definition with_current_player (s : ChessBoard) (c : Color) : ChessBoard :=
  mkBoard (board s) c (move_history s) (en_passant_target s)
          (halfmove_clock s) (fullmove_number s).

Definition with_move_history (s : ChessBoard) (l : list Move) : ChessBoard :=
  mkBoard (board s) (current_player s) l (en_passant_target s)
          (halfmove_clock s) (fullmove_number s).

Definition with_en_passant_target (s : ChessBoard) (t : option Pos)
  : ChessBoard :=
  mkBoard (board s) (current_player s) (move_history s) t
          (halfmove_clock s) (fullmove_number s).

Definition with_halfmove_clock (s : ChessBoard) (n : Z) : ChessBoard :=
  mkBoard (board s) (current_player s) (move_history s)
          (en_passant_target s) n (fullmove_number s).

Definition with_fullmove_number (s : ChessBoard) (n : Z) : ChessBoard :=
  mkBoard (board s) (current_player s) (move_history s)
          (en_passant_target s) (halfmove_clock s) n.

(** [l[n] = x] for an index inside the list. *)
Fixpoint list_set {A : Type} (l : list A) (n : nat) (x : A) : list A :=
  match l, n with
  | [], _ => []
  | _ :: t, O => x :: t
  | h :: t, S k => h :: list_set t k x
  end.

Definition is_valid_position (row col : Z) : bool :=
  (0 <=? row) && (row <? 8) && (0 <=? col) && (col <? 8).

(** [self.board[row][col]]; the grid is 8x8 throughout (built so by
    [__init__], and [set_piece] keeps the shape), a missing cell reads as
    empty. *)
Definition grid_at (g : Grid) (row col : Z) : option Piece :=
  match nth_error g (Z.to_nat row) with
  | Some r =>
      match nth_error r (Z.to_nat col) with
      | Some p => p
      | None => None
      end
  | None => None
  end.

Definition get_piece (self : ChessBoard) (row col : Z) : option Piece :=
  if is_valid_position row col then grid_at (board self) row col else None.

Definition set_piece (self : ChessBoard) (row col : Z) (piece : option Piece)
  : ChessBoard :=
  if is_valid_position row col then
    match nth_error (board self) (Z.to_nat row) with
    | Some r =>
        with_board self
          (list_set (board self) (Z.to_nat row)
                    (list_set r (Z.to_nat col) piece))
    | None => self
    end
  else self.

(** [range(8)] *)
Definition range8 : list Z := [0; 1; 2; 3; 4; 5; 6; 7].

(** [setup_initial_position], written out. *)
Definition back_rank (c : Color) : list (option Piece) :=
  map (fun t => Some (Piece_init t c))
      [ROOK; KNIGHT; BISHOP; QUEEN; KING; BISHOP; KNIGHT; ROOK].

Definition pawn_rank (c : Color) : list (option Piece) :=
  map (fun _ => Some (Piece_init PAWN c)) range8.

Definition empty_rank : list (option Piece) := map (fun _ => None) range8.

Definition empty_grid : Grid := map (fun _ => empty_rank) range8.

(** [ChessBoard.__init__] *)
Definition ChessBoard_init : ChessBoard :=
  mkBoard [ back_rank BLACK; pawn_rank BLACK;
            empty_rank; empty_rank; empty_rank; empty_rank;
            pawn_rank WHITE; back_rank WHITE ]
          WHITE [] None 0 1.

Definition get_all_pieces (self : ChessBoard) (color : Color)
  : list (Z * Z * Piece) :=
  flat_map (fun row =>
    flat_map (fun col =>
      match grid_at (board self) row col with
      | Some piece =>
          if Color_eqb (piece_color piece) color
          then [(row, col, piece)] else []
      | None => []
      end) range8) range8.

Definition find_king (self : ChessBoard) (color : Color) : option Pos :=
  find (fun rc =>
          match grid_at (board self) (fst rc) (snd rc) with
          | Some piece =>
              PieceType_eqb (piece_type piece) KING &&
              Color_eqb (piece_color piece) color
          | None => false
          end)
       (flat_map (fun row => map (fun col => (row, col)) range8) range8).

(** ** Attacks *)

Definition can_pawn_attack (from_row from_col to_row to_col : Z)
           (color : Color) : bool :=
  let direction := match color with WHITE => -1 | BLACK => 1 end in
  (to_row =? from_row + direction) && (Z.abs (to_col - from_col) =? 1).

(** The [while] loop of [is_path_clear].  Each iteration moves one step
    towards the target, so for squares on a common line the loop ends
    after fewer iterations than their distance; [fuel] bounds the
    iterations.  For squares not on a common line the source's loop
    never reaches the target: it returns [False] at the first piece it
    meets and otherwise does not return, and the value here at the end of
    the fuel is not the source's.  [can_rook_move] and [can_bishop_move]
    call [is_path_clear] for squares on a common line only. *)
Fixpoint path_loop (fuel : nat) (self : ChessBoard)
         (current_row current_col row_step col_step to_row to_col : Z)
  : bool :=
  if (current_row =? to_row) && (current_col =? to_col) then true
  else
    match fuel with
    | O => true
    | S k =>
        match get_piece self current_row current_col with
        | Some _ => false
        | None =>
            path_loop k self (current_row + row_step)
                      (current_col + col_step) row_step col_step
                      to_row to_col
        end
    end.

Definition step_towards (a b : Z) : Z :=
  if a =? b then 0 else if b >? a then 1 else -1.

Definition is_path_clear (self : ChessBoard)
           (from_row from_col to_row to_col : Z) : bool :=
  let row_step := step_towards from_row to_row in
  let col_step := step_towards from_col to_col in
  path_loop (Z.to_nat (Z.max (Z.abs (to_row - from_row))
                             (Z.abs (to_col - from_col))))
            self (from_row + row_step) (from_col + col_step)
            row_step col_step to_row to_col.

Definition can_rook_move (self : ChessBoard)
           (from_row from_col to_row to_col : Z) : bool :=
  if negb (from_row =? to_row) && negb (from_col =? to_col) then false
  else is_path_clear self from_row from_col to_row to_col.

Definition can_knight_move (from_row from_col to_row to_col : Z) : bool :=
  let row_diff := Z.abs (to_row - from_row) in
  let col_diff := Z.abs (to_col - from_col) in
  ((row_diff =? 2) && (col_diff =? 1)) ||
  ((row_diff =? 1) && (col_diff =? 2)).

Definition can_bishop_move (self : ChessBoard)
           (from_row from_col to_row to_col : Z) : bool :=
  if negb (Z.abs (to_row - from_row) =? Z.abs (to_col - from_col))
  then false
  else is_path_clear self from_row from_col to_row to_col.

Definition can_king_move (from_row from_col to_row to_col : Z) : bool :=
  (Z.abs (to_row - from_row) <=? 1) && (Z.abs (to_col - from_col) <=? 1).

Definition can_piece_attack_square (self : ChessBoard)
           (from_row from_col to_row to_col : Z) : bool :=
  match get_piece self from_row from_col with
  | None => false
  | Some piece =>
      match piece_type piece with
      | PAWN =>
          can_pawn_attack from_row from_col to_row to_col
                          (piece_color piece)
      | ROOK => can_rook_move self from_row from_col to_row to_col
      | KNIGHT => can_knight_move from_row from_col to_row to_col
      | BISHOP => can_bishop_move self from_row from_col to_row to_col
      | QUEEN =>
          can_rook_move self from_row from_col to_row to_col ||
          can_bishop_move self from_row from_col to_row to_col
      | KING => can_king_move from_row from_col to_row to_col
      end
  end.

Definition is_square_attacked (self : ChessBoard) (row col : Z)
           (by_color : Color) : bool :=
  existsb (fun '(piece_row, piece_col, _) =>
             can_piece_attack_square self piece_row piece_col row col)
          (get_all_pieces self by_color).

Definition is_in_check (self : ChessBoard) (color : Color) : bool :=
  match find_king self color with
  | None => false
  | Some king_pos =>
      is_square_attacked self (fst king_pos) (snd king_pos)
                         (other_color color)
  end.

(** ** Candidate moves of each piece kind *)

Definition occupied (p : option Piece) : bool :=
  match p with Some _ => true | None => false end.

Definition promotion_pieces : list PieceType := [QUEEN; ROOK; BISHOP; KNIGHT].

Definition generate_pawn_moves (self : ChessBoard) (row col : Z)
           (color : Color) : list Move :=
  let direction := match color with WHITE => -1 | BLACK => 1 end in
  let start_row := match color with WHITE => 6 | BLACK => 1 end in
  let promotion_row := match color with WHITE => 0 | BLACK => 7 end in
  let new_row := row + direction in
  (* Forward moves *)
  let forward :=
    if is_valid_position new_row col &&
       negb (occupied (get_piece self new_row col))
    then
      if new_row =? promotion_row then
        map (promotion_move (row, col) (new_row, col)) promotion_pieces
      else
        plain_move (row, col) (new_row, col) ::
        (if (row =? start_row) &&
            negb (occupied (get_piece self (new_row + direction) col))
         then [plain_move (row, col) (new_row + direction, col)]
         else [])
    else [] in
  (* Captures *)
  let captures :=
    flat_map (fun col_offset =>
      let new_col := col + col_offset in
      if is_valid_position new_row new_col then
        (match get_piece self new_row new_col with
         | Some target_piece =>
             if negb (Color_eqb (piece_color target_piece) color) then
               if new_row =? promotion_row then
                 map (promotion_move (row, col) (new_row, new_col))
                     promotion_pieces
               else [plain_move (row, col) (new_row, new_col)]
             else []
         | None => []
         end) ++
        (* En passant *)
        (match en_passant_target self with
         | Some target =>
             if Pos_eqb target (new_row, new_col)
             then [en_passant_move (row, col) (new_row, new_col)]
             else []
         | None => []
         end)
      else []) [-1; 1] in
  forward ++ captures.

(** [target_piece.color != self.get_piece(row, col).color].  The source
    reads the colour of the piece on the origin square, which is occupied
    whenever [generate_piece_moves] is called (lemma
    [get_all_pieces_occupied]); Python raises on an empty origin. *)
Definition enemy_of_origin (self : ChessBoard) (row col : Z)
           (target_piece : Piece) : bool :=
  match get_piece self row col with
  | Some mover => negb (Color_eqb (piece_color target_piece)
                                  (piece_color mover))
  | None => true
  end.

(** The inner [for i in range(1, 8)] loop of [generate_rook_moves] and
    [generate_bishop_moves] (the two bodies are the same), with its two
    [break]s. *)
Fixpoint ray_moves (self : ChessBoard) (row col row_dir col_dir : Z)
         (steps : list Z) : list Move :=
  match steps with
  | [] => []
  | i :: rest =>
      let new_row := row + i * row_dir in
      let new_col := col + i * col_dir in
      if negb (is_valid_position new_row new_col) then []
      else
        match get_piece self new_row new_col with
        | Some target_piece =>
            if enemy_of_origin self row col target_piece
            then [plain_move (row, col) (new_row, new_col)]
            else []
        | None =>
            plain_move (row, col) (new_row, new_col) ::
            ray_moves self row col row_dir col_dir rest
        end
  end.

(** [range(1, 8)] *)
Definition range1_8 : list Z := [1; 2; 3; 4; 5; 6; 7].

Definition generate_rook_moves (self : ChessBoard) (row col : Z)
  : list Move :=
  flat_map (fun '(row_dir, col_dir) =>
              ray_moves self row col row_dir col_dir range1_8)
           [(0, 1); (0, -1); (1, 0); (-1, 0)].

Definition generate_knight_moves (self : ChessBoard) (row col : Z)
  : list Move :=
  flat_map (fun '(row_offset, col_offset) =>
      let new_row := row + row_offset in
      let new_col := col + col_offset in
      if is_valid_position new_row new_col then
        match get_piece self new_row new_col with
        | Some target_piece =>
            if enemy_of_origin self row col target_piece
            then [plain_move (row, col) (new_row, new_col)]
            else []
        | None => [plain_move (row, col) (new_row, new_col)]
        end
      else [])
    [(2, 1); (2, -1); (-2, 1); (-2, -1);
     (1, 2); (1, -2); (-1, 2); (-1, -2)].

Definition generate_bishop_moves (self : ChessBoard) (row col : Z)
  : list Move :=
  flat_map (fun '(row_dir, col_dir) =>
              ray_moves self row col row_dir col_dir range1_8)
           [(1, 1); (1, -1); (-1, 1); (-1, -1)].

Definition generate_queen_moves (self : ChessBoard) (row col : Z)
  : list Move :=
  generate_rook_moves self row col ++ generate_bishop_moves self row col.

(** The kingside or queenside test of [generate_king_moves]: an unmoved
    rook in column [rook_col], the squares [empty_cols] empty and the
    squares [safe_cols] not attacked by the opponent. *)
Definition castling_allowed (self : ChessBoard) (row : Z) (color : Color)
           (rook_col : Z) (empty_cols safe_cols : list Z) : bool :=
  match get_piece self row rook_col with
  | Some rook =>
      PieceType_eqb (piece_type rook) ROOK &&
      negb (has_moved rook) &&
      forallb (fun c => negb (occupied (get_piece self row c))) empty_cols &&
      forallb (fun c => negb (is_square_attacked self row c
                                                 (other_color color)))
              safe_cols
  | None => false
  end.

Definition generate_king_moves (self : ChessBoard) (row col : Z)
           (color : Color) : list Move :=
  (* Regular king moves *)
  let regular :=
    flat_map (fun row_offset =>
      flat_map (fun col_offset =>
        if (row_offset =? 0) && (col_offset =? 0) then []
        else
          let new_row := row + row_offset in
          let new_col := col + col_offset in
          if is_valid_position new_row new_col then
            match get_piece self new_row new_col with
            | Some target_piece =>
                if negb (Color_eqb (piece_color target_piece) color)
                then [plain_move (row, col) (new_row, new_col)]
                else []
            | None => [plain_move (row, col) (new_row, new_col)]
            end
          else []) [-1; 0; 1]) [-1; 0; 1] in
  (* Castling; [king] is the piece on the origin square, occupied
     whenever [generate_piece_moves] is called *)
  let castling :=
    match get_piece self row col with
    | Some king =>
        if negb (has_moved king) && negb (is_in_check self color) then
          (if castling_allowed self row color 7 [5; 6] [5; 6]
           then [castling_move (row, col) (row, 6)] else []) ++
          (if castling_allowed self row color 0 [1; 2; 3] [2; 3]
           then [castling_move (row, col) (row, 2)] else [])
        else []
    | None => []
    end in
  regular ++ castling.

Definition generate_piece_moves (self : ChessBoard) (row col : Z)
           (piece : Piece) : list Move :=
  match piece_type piece with
  | PAWN => generate_pawn_moves self row col (piece_color piece)
  | ROOK => generate_rook_moves self row col
  | KNIGHT => generate_knight_moves self row col
  | BISHOP => generate_bishop_moves self row col
  | QUEEN => generate_queen_moves self row col
  | KING => generate_king_moves self row col (piece_color piece)
  end.

(** ** Applying a move *)

Definition handle_castling (self : ChessBoard) (move : Move) : ChessBoard :=
  let '(from_row, from_col) := from_pos move in
  let '(to_row, to_col) := to_pos move in
  (* Move king *)
  let king := get_piece self from_row from_col in
  let s := set_piece self to_row to_col king in
  let s := set_piece s from_row from_col None in
  (* Move rook *)
  if to_col =? 6 then
    let rook := get_piece s from_row 7 in
    let s := set_piece s from_row 5 rook in
    set_piece s from_row 7 None
  else
    let rook := get_piece s from_row 0 in
    let s := set_piece s from_row 3 rook in
    set_piece s from_row 0 None.

Definition handle_en_passant (self : ChessBoard) (move : Move)
  : ChessBoard :=
  let '(from_row, from_col) := from_pos move in
  let '(to_row, to_col) := to_pos move in
  (* Move pawn *)
  let pawn := get_piece self from_row from_col in
  let s := set_piece self to_row to_col pawn in
  let s := set_piece s from_row from_col None in
  (* Remove captured pawn *)
  set_piece s from_row to_col None.

Definition update_en_passant_target (self : ChessBoard) (move : Move)
           (piece : Piece) : ChessBoard :=
  let s := with_en_passant_target self None in
  if PieceType_eqb (piece_type piece) PAWN &&
     (Z.abs (fst (to_pos move) - fst (from_pos move)) =? 2)
  then
    (* Pawn moved two squares *)
    let target_row := (fst (from_pos move) + fst (to_pos move)) / 2 in
    with_en_passant_target s (Some (target_row, snd (to_pos move)))
  else s.

(** [make_move(move, check_legality=False)]: the statements of [make_move]
    after the legality gate.  The result pairs the returned flag with the
    state of [self] afterwards. *)
Definition make_move_unchecked (self : ChessBoard) (move : Move)
  : bool * ChessBoard :=
  let '(from_row, from_col) := from_pos move in
  let '(to_row, to_col) := to_pos move in
  match get_piece self from_row from_col with
  | None => (false, self)
  | Some piece =>
      (* Handle special moves *)
      let s :=
        if is_castling move then handle_castling self move
        else if is_en_passant move then handle_en_passant self move
        else
          (* Regular move *)
          let s := set_piece self to_row to_col (Some piece) in
          let s := set_piece s from_row from_col None in
          (* Handle pawn promotion *)
          match promotion move with
          | Some kind =>
              set_piece s to_row to_col
                        (Some (Piece_init kind (piece_color piece)))
          | None => s
          end in
      (* Mark piece as moved *)
      let s :=
        match get_piece s to_row to_col with
        | Some moved_piece =>
            set_piece s to_row to_col (Some (set_has_moved moved_piece))
        | None => s
        end in
      (* Update en passant target *)
      let s := update_en_passant_target s move piece in
      (* Update move counters *)
      let s := with_move_history s (move_history s ++ [move]) in
      let s :=
        if PieceType_eqb (piece_type piece) PAWN ||
           occupied (get_piece s to_row to_col)
        then with_halfmove_clock s 0
        else with_halfmove_clock s (halfmove_clock s + 1) in
      let s :=
        if Color_eqb (current_player s) BLACK
        then with_fullmove_number s (fullmove_number s + 1)
        else s in
      (* Switch players *)
      let s := with_current_player s (other_color (current_player s)) in
      (true, s)
  end.

(** ** Legal moves *)

(** [is_legal_move]: the move is tried on a deep copy of [self], which as a
    value is [self] itself; [is_legal_move_obj] has the copy as an
    object. *)
Definition is_legal_move (self : ChessBoard) (move : Move) : bool :=
  let temp_board := snd (make_move_unchecked self move) in
  negb (is_in_check temp_board (current_player self)).

Definition generate_legal_moves (self : ChessBoard) (color : Color)
  : list Move :=
  flat_map (fun '(row, col, piece) =>
              filter (is_legal_move self)
                     (generate_piece_moves self row col piece))
           (get_all_pieces self color).

Definition make_move (self : ChessBoard) (move : Move)
           (check_legality : bool) : bool * ChessBoard :=
  if check_legality &&
     negb (move_in move (generate_legal_moves self (current_player self)))
  then (false, self)
  else make_move_unchecked self move.

(** ** Game end *)

Definition is_checkmate (self : ChessBoard) (color : Color) : bool :=
  is_in_check self color &&
  (List.length (generate_legal_moves self color) =? 0)%nat.

Definition is_stalemate (self : ChessBoard) (color : Color) : bool :=
  negb (is_in_check self color) &&
  (List.length (generate_legal_moves self color) =? 0)%nat.

Definition is_game_over (self : ChessBoard) : bool * option string :=
  if is_checkmate self (current_player self) then
    let winner :=
      (if Color_eqb (current_player self) BLACK then "White" else "Black")
        %string in
    (true, Some ("Checkmate! " ++ winner ++ " wins!")%string)
  else if is_stalemate self (current_player self) then
    (true, Some "Stalemate! It's a draw!"%string)
  else if halfmove_clock self >=? 100 then
    (true, Some "Draw by 50-move rule!"%string)
  else (false, None).

(** ** The bot: [scripts/chess_bot.py] *)

(** Search scores are Python numbers: integers, and the floats
    [float('-inf')] and [float('inf')] that initialise the bounds. *)
Inductive Score := NegInf | Fin (z : Z) | PosInf.

Definition Score_leb (a b : Score) : bool :=
  match a, b with
  | NegInf, _ => true
  | _, PosInf => true
  | Fin x, Fin y => x <=? y
  | _, _ => false
  end.

Definition Score_ltb (a b : Score) : bool := negb (Score_leb b a).

(** [max(a, b)] and [min(a, b)] *)
Definition Score_max (a b : Score) : Score :=
  if Score_ltb a b then b else a.

Definition Score_min (a b : Score) : Score :=
  if Score_ltb b a then b else a.

Record ChessBot := mkBot {
  bot_color : Color;
  difficulty : Z
}.

(** [ChessBot.__init__]; the tables are the constants below, and
    [nodes_searched] (with the timing and the two [print]s of
    [get_best_move]) only reports on the search and is left out. *)
Definition ChessBot_init (color : Color) (d : Z) : ChessBot :=
  mkBot color (Z.max 1 (Z.min d 6)).

Definition piece_values (t : PieceType) : Z :=
  match t with
  | PAWN => 100
  | KNIGHT => 320
  | BISHOP => 330
  | ROOK => 500
  | QUEEN => 900
  | KING => 20000
  end.

Definition pawn_table : list (list Z) :=
  [ [0;  0;  0;  0;  0;  0;  0;  0];
    [50; 50; 50; 50; 50; 50; 50; 50];
    [10; 10; 20; 30; 30; 20; 10; 10];
    [5;  5; 10; 25; 25; 10;  5;  5];
    [0;  0;  0; 20; 20;  0;  0;  0];
    [5; -5;-10;  0;  0;-10; -5;  5];
    [5; 10; 10;-20;-20; 10; 10;  5];
    [0;  0;  0;  0;  0;  0;  0;  0] ].

Definition knight_table : list (list Z) :=
  [ [-50;-40;-30;-30;-30;-30;-40;-50];
    [-40;-20;  0;  0;  0;  0;-20;-40];
    [-30;  0; 10; 15; 15; 10;  0;-30];
    [-30;  5; 15; 20; 20; 15;  5;-30];
    [-30;  0; 15; 20; 20; 15;  0;-30];
    [-30;  5; 10; 15; 15; 10;  5;-30];
    [-40;-20;  0;  5;  5;  0;-20;-40];
    [-50;-40;-30;-30;-30;-30;-40;-50] ].

Definition bishop_table : list (list Z) :=
  [ [-20;-10;-10;-10;-10;-10;-10;-20];
    [-10;  0;  0;  0;  0;  0;  0;-10];
    [-10;  0;  5; 10; 10;  5;  0;-10];
    [-10;  5;  5; 10; 10;  5;  5;-10];
    [-10;  0; 10; 10; 10; 10;  0;-10];
    [-10; 10; 10; 10; 10; 10; 10;-10];
    [-10;  5;  0;  0;  0;  0;  5;-10];
    [-20;-10;-10;-10;-10;-10;-10;-20] ].

Definition rook_table : list (list Z) :=
  [ [0;  0;  0;  0;  0;  0;  0;  0];
    [5; 10; 10; 10; 10; 10; 10;  5];
    [-5;  0;  0;  0;  0;  0;  0; -5];
    [-5;  0;  0;  0;  0;  0;  0; -5];
    [-5;  0;  0;  0;  0;  0;  0; -5];
    [-5;  0;  0;  0;  0;  0;  0; -5];
    [-5;  0;  0;  0;  0;  0;  0; -5];
    [0;  0;  0;  5;  5;  0;  0;  0] ].

Definition queen_table : list (list Z) :=
  [ [-20;-10;-10; -5; -5;-10;-10;-20];
    [-10;  0;  0;  0;  0;  0;  0;-10];
    [-10;  0;  5;  5;  5;  5;  0;-10];
    [-5;  0;  5;  5;  5;  5;  0; -5];
    [0;  0;  5;  5;  5;  5;  0; -5];
    [-10;  5;  5;  5;  5;  5;  0;-10];
    [-10;  0;  5;  0;  0;  0;  0;-10];
    [-20;-10;-10; -5; -5;-10;-10;-20] ].

Definition king_middle_game_table : list (list Z) :=
  [ [-30;-40;-40;-50;-50;-40;-40;-30];
    [-30;-40;-40;-50;-50;-40;-40;-30];
    [-30;-40;-40;-50;-50;-40;-40;-30];
    [-30;-40;-40;-50;-50;-40;-40;-30];
    [-20;-30;-30;-40;-40;-30;-30;-20];
    [-10;-20;-20;-20;-20;-20;-20;-10];
    [20; 20;  0;  0;  0;  0; 20; 20];
    [20; 30; 10;  0;  0; 10; 30; 20] ].

(** [table[row][col]], for a square of the board *)
Definition table_at (table : list (list Z)) (row col : Z) : Z :=
  nth (Z.to_nat col) (nth (Z.to_nat row) table []) 0.

Definition get_piece_value (piece : Piece) (row col : Z) : Z :=
  let base_value := piece_values (piece_type piece) in
  (* flip table for black pieces *)
  let table_row :=
    match piece_color piece with WHITE => row | BLACK => 7 - row end in
  let positional_bonus :=
    match piece_type piece with
    | PAWN => table_at pawn_table table_row col
    | KNIGHT => table_at knight_table table_row col
    | BISHOP => table_at bishop_table table_row col
    | ROOK => table_at rook_table table_row col
    | QUEEN => table_at queen_table table_row col
    | KING => table_at king_middle_game_table table_row col
    end in
  base_value + positional_bonus.

(** The squares in the order of the two nested [range(8)] loops. *)
Definition all_squares : list Pos :=
  flat_map (fun row => map (fun col => (row, col)) range8) range8.

(** Material and positional part of [evaluate_position]. *)
Definition material_score (self : ChessBot) (board : ChessBoard) : Z :=
  fold_left (fun score '(row, col) =>
               match get_piece board row col with
               | Some piece =>
                   let piece_value := get_piece_value piece row col in
                   if Color_eqb (piece_color piece) (bot_color self)
                   then score + piece_value
                   else score - piece_value
               | None => score
               end)
            all_squares 0.

(** [evaluate_position] as a function of the position; the opponent's
    moves are counted on the position with the side to move switched.
    [evaluate_position_obj] has the switch and its undoing as writes to
    the board object. *)
Definition evaluate_position (self : ChessBot) (board : ChessBoard) : Z :=
  let score := material_score self board in
  (* Add mobility bonus *)
  let our_moves :=
    Z.of_nat (List.length (generate_legal_moves board (bot_color self))) in
  let opponent_color := other_color (bot_color self) in
  let opponent_moves :=
    Z.of_nat (List.length
                (generate_legal_moves
                   (with_current_player board opponent_color)
                   opponent_color)) in
  let score := score + (our_moves - opponent_moves) * 10 in
  (* King safety *)
  let score :=
    if is_in_check board (bot_color self) then score - 50 else score in
  let score :=
    if is_in_check board opponent_color then score + 50 else score in
  score.

(** The capture and promotion terms of [move_priority], read off the
    position before the move. *)
Definition capture_promotion_priority (board : ChessBoard) (move : Move)
  : Z :=
  let score := 0 in
  (* Prioritize captures *)
  let score :=
    match get_piece board (fst (to_pos move)) (snd (to_pos move)) with
    | Some target_piece =>
        let score := score + piece_values (piece_type target_piece) in
        (* MVV-LVA *)
        match get_piece board (fst (from_pos move)) (snd (from_pos move))
        with
        | Some attacker =>
            score + (piece_values (piece_type target_piece)
                     - piece_values (piece_type attacker))
        | None => score
        end
    | None => score
    end in
  (* Prioritize promotions *)
  match promotion move with
  | Some kind => score + piece_values kind
  | None => score
  end.

(** [move_priority], the key function of [order_moves]. *)
Definition move_priority (self : ChessBot) (board : ChessBoard)
           (move : Move) : Z :=
  let score := capture_promotion_priority board move in
  (* Prioritize checks *)
  let temp_board := snd (make_move_unchecked board move) in
  let opponent_color := other_color (bot_color self) in
  if is_in_check temp_board opponent_color then score + 100 else score.

(** [sorted(moves, key=..., reverse=True)]: the keys are computed once,
    in list order, and the moves are sorted on them; the sort is stable,
    largest key first, so moves of equal key keep their order. *)
Fixpoint insert_desc (km : Z * Move) (l : list (Z * Move))
  : list (Z * Move) :=
  match l with
  | [] => [km]
  | y :: t =>
      if fst y >? fst km then y :: insert_desc km t else km :: y :: t
  end.

Definition sorted_desc (keys : list Z) (moves : list Move) : list Move :=
  map snd (fold_right insert_desc [] (combine keys moves)).

Definition order_moves (self : ChessBot) (board : ChessBoard)
           (moves : list Move) : list Move :=
  sorted_desc (map (move_priority self board) moves) moves.

(** ["wins" in result] *)
Definition str_in (sub s : string) : bool :=
  match index 0 sub s with Some _ => true | None => false end.

(** The terminal test at the head of [minimax]: [Some] score when
    [is_game_over] reports the end of the game. *)
Definition terminal_score (self : ChessBot) (board : ChessBoard)
           (depth : nat) : option Score :=
  match is_game_over board with
  | (true, Some result) =>
      if str_in "wins" result then
        if (Color_eqb (bot_color self) WHITE && str_in "White wins" result)
           || (Color_eqb (bot_color self) BLACK
               && str_in "Black wins" result)
        then Some (Fin (10000 + Z.of_nat depth))
        else Some (Fin (-10000 - Z.of_nat depth))
      else Some (Fin 0)
  | _ => None
  end.

(** The [for] loop of a maximizing node, with its [break]; [child] is the
    recursive call on the position after a move. *)
Fixpoint max_loop (child : ChessBoard -> Score -> Score -> Score)
         (board : ChessBoard) (moves : list Move)
         (max_eval alpha beta : Score) : Score :=
  match moves with
  | [] => max_eval
  | move :: rest =>
      let temp_board := snd (make_move_unchecked board move) in
      let eval_score := child temp_board alpha beta in
      let max_eval := Score_max max_eval eval_score in
      let alpha := Score_max alpha eval_score in
      if Score_leb beta alpha then max_eval
      else max_loop child board rest max_eval alpha beta
  end.

(** The [for] loop of a minimizing node. *)
Fixpoint min_loop (child : ChessBoard -> Score -> Score -> Score)
         (board : ChessBoard) (moves : list Move)
         (min_eval alpha beta : Score) : Score :=
  match moves with
  | [] => min_eval
  | move :: rest =>
      let temp_board := snd (make_move_unchecked board move) in
      let eval_score := child temp_board alpha beta in
      let min_eval := Score_min min_eval eval_score in
      let beta := Score_min beta eval_score in
      if Score_leb beta alpha then min_eval
      else min_loop child board rest min_eval alpha beta
  end.

(** [minimax], by recursion on the remaining depth (the source is called
    with [difficulty - 1 >= 0] and counts down to 0). *)
Fixpoint minimax (self : ChessBot) (depth : nat) (board : ChessBoard)
         (alpha beta : Score) (maximizing : bool) : Score :=
  (* Check for terminal conditions *)
  match terminal_score self board depth with
  | Some s => s
  | None =>
      match depth with
      | O => Fin (evaluate_position self board)
      | S depth' =>
          let current_color := current_player board in
          let legal_moves := generate_legal_moves board current_color in
          match legal_moves with
          | [] => Fin 0  (* Stalemate *)
          | _ :: _ =>
              if maximizing then
                max_loop (fun b al be => minimax self depth' b al be false)
                         board (order_moves self board legal_moves)
                         NegInf alpha beta
              else
                min_loop (fun b al be => minimax self depth' b al be true)
                         board (order_moves self board legal_moves)
                         PosInf alpha beta
          end
      end
  end.

(** The [for] loop of [get_best_move]. *)
Fixpoint best_move_loop (self : ChessBot) (board : ChessBoard)
         (moves : list Move) (best_move : option Move)
         (best_score alpha beta : Score) : option Move * Score :=
  match moves with
  | [] => (best_move, best_score)
  | move :: rest =>
      let temp_board := snd (make_move_unchecked board move) in
      let score :=
        minimax self (Z.to_nat (difficulty self - 1)) temp_board
                alpha beta false in
      let '(best_move, best_score) :=
        if Score_ltb best_score score then (Some move, score)
        else (best_move, best_score) in
      let alpha := Score_max alpha score in
      if Score_leb beta alpha then (best_move, best_score)
      else best_move_loop self board rest best_move best_score alpha beta
  end.

(** [get_best_move] together with [best_score], the evaluation it
    prints.  [rnd] is the number drawn by [random.choice], which returns
    [legal_moves[rnd mod len(legal_moves)]]; at difficulty 1 no score is
    computed. *)
Definition get_best_move_scored (self : ChessBot) (board : ChessBoard)
           (rnd : nat) : option Move * option Score :=
  let legal_moves := generate_legal_moves board (bot_color self) in
  match legal_moves with
  | [] => (None, None)
  | _ :: _ =>
      if difficulty self =? 1 then
        (* Random move for easiest difficulty *)
        (nth_error legal_moves (rnd mod List.length legal_moves)%nat, None)
      else
        let ordered_moves := order_moves self board legal_moves in
        let '(best_move, best_score) :=
          best_move_loop self board ordered_moves None NegInf NegInf PosInf
        in (best_move, Some best_score)
  end.

Definition get_best_move (self : ChessBot) (board : ChessBoard) (rnd : nat)
  : option Move :=
  fst (get_best_move_scored self board rnd).

(** ** Board objects

    A [ChessBoard] is a mutable object: [make_move] writes to [self],
    [copy.deepcopy] makes a new object, and [evaluate_position] writes to
    the board it is given.  The store lists the board objects by address;
    an operation on objects takes the store and returns its result with
    the store afterwards. *)

Definition ref := nat.
Definition Heap := list ChessBoard.
Definition ST (A : Type) : Type := Heap -> A * Heap.

Definition ret {A : Type} (x : A) : ST A := fun h => (x, h).

Definition bind {A B : Type} (c : ST A) (f : A -> ST B) : ST B :=
  fun h => let (x, h') := c h in f x h'.

Notation "x <- c ;; k" := (bind c (fun x => k))
  (at level 61, c at next level, right associativity).

(** The value read through a dangling reference; every reference the
    operations below use is allocated. *)
Definition blank : ChessBoard := mkBoard empty_grid WHITE [] None 0 1.

(** Reading the fields of the object at [r]. *)
Definition deref (r : ref) : ST ChessBoard := fun h => (nth r h blank, h).

(** Writing the fields of the object at [r]. *)
Definition assign (r : ref) (b : ChessBoard) : ST unit :=
  fun h => (tt, list_set h r b).

(** [copy.deepcopy(board)]: a new object with the same contents. *)
Definition deepcopy (r : ref) : ST ref :=
  fun h => (List.length h, h ++ [nth r h blank]).

Definition make_move_unchecked_obj (self : ref) (move : Move) : ST bool :=
  s <- deref self ;;
  _ <- assign self (snd (make_move_unchecked s move)) ;;
  ret (fst (make_move_unchecked s move)).

Definition is_legal_move_obj (self : ref) (move : Move) : ST bool :=
  (* Make a copy of the board and try the move *)
  temp_board <- deepcopy self ;;
  _ <- make_move_unchecked_obj temp_board move ;;
  (* Check if the king is in check after the move *)
  t <- deref temp_board ;;
  s <- deref self ;;
  ret (negb (is_in_check t (current_player s))).

(** The inner loop of [generate_legal_moves]. *)
Fixpoint filter_legal_obj (self : ref) (piece_moves : list Move)
  : ST (list Move) :=
  match piece_moves with
  | [] => ret []
  | move :: rest =>
      ok <- is_legal_move_obj self move ;;
      moves <- filter_legal_obj self rest ;;
      ret (if ok then move :: moves else moves)
  end.

(** The outer loop of [generate_legal_moves]. *)
Fixpoint legal_moves_loop_obj (self : ref) (pieces : list (Z * Z * Piece))
  : ST (list Move) :=
  match pieces with
  | [] => ret []
  | (row, col, piece) :: rest =>
      s <- deref self ;;
      legal <- filter_legal_obj self (generate_piece_moves s row col piece) ;;
      moves <- legal_moves_loop_obj self rest ;;
      ret (legal ++ moves)
  end.

Definition generate_legal_moves_obj (self : ref) (color : Color)
  : ST (list Move) :=
  s <- deref self ;;
  legal_moves_loop_obj self (get_all_pieces s color).

Definition make_move_obj (self : ref) (move : Move) (check_legality : bool)
  : ST bool :=
  if check_legality then
    s <- deref self ;;
    legal_moves <- generate_legal_moves_obj self (current_player s) ;;
    if negb (move_in move legal_moves) then ret false
    else make_move_unchecked_obj self move
  else make_move_unchecked_obj self move.

(** [ChessBot.copy_board] *)
Definition copy_board (board : ref) : ST ref := deepcopy board.

Definition move_priority_obj (self : ChessBot) (board : ref) (move : Move)
  : ST Z :=
  b <- deref board ;;
  let score := capture_promotion_priority b move in
  (* Prioritize checks *)
  temp_board <- copy_board board ;;
  _ <- make_move_obj temp_board move false ;;
  t <- deref temp_board ;;
  let opponent_color := other_color (bot_color self) in
  ret (if is_in_check t opponent_color then score + 100 else score).

(** The keys of [sorted], computed move by move. *)
Fixpoint priorities_obj (self : ChessBot) (board : ref) (moves : list Move)
  : ST (list Z) :=
  match moves with
  | [] => ret []
  | move :: rest =>
      k <- move_priority_obj self board move ;;
      ks <- priorities_obj self board rest ;;
      ret (k :: ks)
  end.

Definition order_moves_obj (self : ChessBot) (board : ref)
           (moves : list Move) : ST (list Move) :=
  keys <- priorities_obj self board moves ;;
  ret (sorted_desc keys moves).

Definition evaluate_position_obj (self : ChessBot) (board : ref) : ST Z :=
  b <- deref board ;;
  let score := material_score self b in
  (* Add mobility bonus *)
  ours <- generate_legal_moves_obj board (bot_color self) ;;
  let our_moves := Z.of_nat (List.length ours) in
  let opponent_color := other_color (bot_color self) in
  (* Temporarily switch to opponent to count their moves *)
  b <- deref board ;;
  let original_player := current_player b in
  _ <- assign board (with_current_player b opponent_color) ;;
  theirs <- generate_legal_moves_obj board opponent_color ;;
  let opponent_moves := Z.of_nat (List.length theirs) in
  b <- deref board ;;
  _ <- assign board (with_current_player b original_player) ;;
  let score := score + (our_moves - opponent_moves) * 10 in
  (* King safety *)
  b <- deref board ;;
  let score :=
    if is_in_check b (bot_color self) then score - 50 else score in
  let score :=
    if is_in_check b opponent_color then score + 50 else score in
  ret score.

(** ** Exhaustive search, for comparison *)

Definition max_over (f : Move -> Score) (moves : list Move) : Score :=
  fold_left (fun acc m => Score_max acc (f m)) moves NegInf.

Definition min_over (f : Move -> Score) (moves : list Move) : Score :=
  fold_left (fun acc m => Score_min acc (f m)) moves PosInf.

(** Minimax as the spec words it: the same terminal test, leaf
    evaluation and alternation as [minimax], every legal move of every
    node searched, no bounds, no cut-off and no move ordering. *)
Fixpoint minimax_exhaustive (self : ChessBot) (depth : nat)
         (board : ChessBoard) (maximizing : bool) : Score :=
  match terminal_score self board depth with
  | Some s => s
  | None =>
      match depth with
      | O => Fin (evaluate_position self board)
      | S depth' =>
          match generate_legal_moves board (current_player board) with
          | [] => Fin 0
          | (_ :: _) as legal_moves =>
              let value move (next : bool) :=
                minimax_exhaustive self depth'
                  (snd (make_move_unchecked board move)) next in
              if maximizing
              then max_over (fun move => value move false) legal_moves
              else min_over (fun move => value move true) legal_moves
          end
      end
  end.

(** The exhaustive score of a root move at the bot's depth, and the best
    of them over the moves [get_best_move] considers. *)
Definition exhaustive_move_score (self : ChessBot) (board : ChessBoard)
           (move : Move) : Score :=
  minimax_exhaustive self (Z.to_nat (difficulty self - 1))
                     (snd (make_move_unchecked board move)) false.

Definition exhaustive_best_score (self : ChessBot) (board : ChessBoard)
  : Score :=
  max_over (exhaustive_move_score self board)
           (generate_legal_moves board (bot_color self)).

(** ** Move notation: [Move.__str__] and [scripts/chess_utils.py]

    A Python string is modelled by a Rocq string, a character by its
    code point below 256; [strip], [lower] and [int] are the built-ins
    on these characters. *)

(** [ord(c)] *)
Definition ord (c : ascii) : Z := Z.of_N (N_of_ascii c).

(** [chr(n)]; [None] for a code point outside the strings modelled here
    (Python raises below 0). *)
Definition chr (n : Z) : option ascii :=
  if (0 <=? n) && (n <? 256) then Some (ascii_of_N (Z.to_N n)) else None.

(** [str(n)] for an integer [n] *)
Definition str_of_int (n : Z) : string :=
  NilZero.string_of_int (Z.to_int n).

(** [PieceType.value] *)
Definition PieceType_value (t : PieceType) : ascii :=
  match t with
  | PAWN => "p" | ROOK => "r" | KNIGHT => "n"
  | BISHOP => "b" | QUEEN => "q" | KING => "k"
  end%char.

(** [c.upper()] for a letter [a]..[z], the piece letters being the only
    characters it is applied to. *)
Definition upper_letter (c : ascii) : ascii :=
  if (ord "a" <=? ord c) && (ord c <=? ord "z")
  then ascii_of_N (Z.to_N (ord c - 32)) else c.

(** [Move.__str__] *)
Definition Move_str (self : Move) : option string :=
  match chr (ord "a" + snd (from_pos self)),
        chr (ord "a" + snd (to_pos self)) with
  | Some from_file, Some to_file =>
      let from_square :=
        String from_file (str_of_int (8 - fst (from_pos self))) in
      let to_square :=
        String to_file (str_of_int (8 - fst (to_pos self))) in
      let promotion_str :=
        match promotion self with
        | Some kind =>
            String "=" (String (upper_letter (PieceType_value kind))
                               EmptyString)
        | None => EmptyString
        end in
      Some (from_square ++ to_square ++ promotion_str)%string
  | _, _ => None
  end.

(** [c.isspace()] *)
Definition is_space (c : ascii) : bool :=
  let n := ord c in
  ((9 <=? n) && (n <=? 13)) || ((28 <=? n) && (n <=? 32)) ||
  (n =? 133) || (n =? 160).

(** [c.lower()] *)
Definition lower_char (c : ascii) : ascii :=
  let n := ord c in
  if ((65 <=? n) && (n <=? 90)) ||
     ((192 <=? n) && (n <=? 222) && negb (n =? 215))
  then ascii_of_N (Z.to_N (n + 32)) else c.

Fixpoint lstrip (s : string) : string :=
  match s with
  | EmptyString => EmptyString
  | String c t => if is_space c then lstrip t else s
  end.

Fixpoint rstrip (s : string) : string :=
  match s with
  | EmptyString => EmptyString
  | String c t =>
      match rstrip t with
      | EmptyString => if is_space c then EmptyString
                       else String c EmptyString
      | t' => String c t'
      end
  end.

(** [s.strip()] *)
Definition strip (s : string) : string := rstrip (lstrip s).

(** [s.lower()] *)
Fixpoint lower (s : string) : string :=
  match s with
  | EmptyString => EmptyString
  | String c t => String (lower_char c) (lower t)
  end.

(** [int(c)] for a one-character string: [None] is the [ValueError]. *)
Definition int_of_char (c : ascii) : option Z :=
  let n := ord c in
  if (48 <=? n) && (n <=? 57) then Some (n - 48) else None.

(** [promotion_map.get(promotion_char)] *)
Definition promotion_map (c : ascii) : option PieceType :=
  if Ascii.eqb c "q" then Some QUEEN
  else if Ascii.eqb c "r" then Some ROOK
  else if Ascii.eqb c "b" then Some BISHOP
  else if Ascii.eqb c "n" then Some KNIGHT
  else None.

(** The body of [parse_move_input] once the length is known to be 4 or
    5: [promotion_char] is the fifth character, if any. *)
Definition parse_squares (c0 c1 c2 c3 : ascii)
           (promotion_char : option ascii)
  : option (Pos * Pos * option PieceType) :=
  match int_of_char c1, int_of_char c3 with
  | Some d1, Some d3 =>
      (* Parse from square *)
      let from_col := ord c0 - ord "a" in
      let from_row := 8 - d1 in
      (* Parse to square *)
      let to_col := ord c2 - ord "a" in
      let to_row := 8 - d3 in
      (* Check bounds *)
      if negb (is_valid_position from_row from_col &&
               is_valid_position to_row to_col)
      then None
      else
        (* Parse promotion *)
        match promotion_char with
        | None => Some ((from_row, from_col), (to_row, to_col), None)
        | Some c =>
            match promotion_map c with
            | Some kind =>
                Some ((from_row, from_col), (to_row, to_col), Some kind)
            | None => None
            end
        end
  | _, _ => None  (* ValueError *)
  end.

Definition parse_move_input (move_str : string)
  : option (Pos * Pos * option PieceType) :=
  let move_str := lower (strip move_str) in
  match move_str with
  | String c0 (String c1 (String c2 (String c3 EmptyString))) =>
      parse_squares c0 c1 c2 c3 None
  | String c0 (String c1 (String c2 (String c3 (String c4 EmptyString)))) =>
      parse_squares c0 c1 c2 c3 (Some c4)
  | _ => None  (* fewer than 4 or more than 5 characters *)
  end.

Definition find_move_from_input (board : ChessBoard) (move_input : string)
  : option Move :=
  match parse_move_input move_input with
  | None => None
  | Some (from, to, promo) =>
      let legal_moves :=
        generate_legal_moves board (current_player board) in
      find (fun move => Pos_eqb (from_pos move) from &&
                        Pos_eqb (to_pos move) to &&
                        promotion_eqb (promotion move) promo)
           legal_moves
  end.

(** ** Positions used in examples *)

Definition play (s : ChessBoard) (moves : list Move) : ChessBoard :=
  fold_left (fun s m => snd (make_move s m true)) moves s.

(** 1. f3 e5 2. g4 Qh4, mate. *)
Definition fools_mate : ChessBoard :=
  play ChessBoard_init
       [ plain_move (6, 5) (5, 5); plain_move (1, 4) (3, 4);
         plain_move (6, 6) (4, 6); plain_move (0, 3) (4, 7) ].

Definition place (g : Grid) (row col : Z) (p : Piece) : Grid :=
  board (set_piece (mkBoard g WHITE [] None 0 1) row col (Some p)).

(** White king e1, white rook e2; black king e8, black rook e7; White to
    move.  The black rook shields its king on the e-file. *)
Definition pinned_rook : ChessBoard :=
  mkBoard
    (place (place (place (place empty_grid
       7 4 (mkPiece KING WHITE true))
       6 4 (mkPiece ROOK WHITE true))
       0 4 (mkPiece KING BLACK true))
       1 4 (mkPiece ROOK BLACK true))
    WHITE [] None 0 1.

(** Black king a8, white queen c7, white king h1; Black to move and
    stalemated. *)
Definition stalemate_corner : ChessBoard :=
  mkBoard
    (place (place (place empty_grid
       0 0 (mkPiece KING BLACK true))
       1 2 (mkPiece QUEEN WHITE true))
       7 7 (mkPiece KING WHITE true))
    BLACK [] None 0 1.

(** The starting position with the squares between the white king and
    its rooks emptied. *)
Definition castle_ready : ChessBoard :=
  fold_left (fun s col => set_piece s 7 col None) [1; 2; 3; 5; 6]
            ChessBoard_init.

(** 1. e4 a6 2. e5 d5: the white pawn on e5 may take the d-pawn en
    passant. *)
Definition en_passant_ready : ChessBoard :=
  play ChessBoard_init
       [ plain_move (6, 4) (4, 4); plain_move (1, 0) (2, 0);
         plain_move (4, 4) (3, 4); plain_move (1, 3) (3, 3) ].

(** 1. e4 d5 2. Bb5+: Black, to move, is in check from the bishop. *)
Definition bishop_check : ChessBoard :=
  play ChessBoard_init
       [ plain_move (6, 4) (4, 4); plain_move (1, 3) (3, 3);
         plain_move (7, 5) (3, 1) ].

(** 1. e4 d5 2. Bb5+ Nc6: the knight on c6 shields the black king from
    the bishop; White to move. *)
Definition pinned_knight : ChessBoard :=
  play ChessBoard_init
       [ plain_move (6, 4) (4, 4); plain_move (1, 3) (3, 3);
         plain_move (7, 5) (3, 1); plain_move (0, 1) (2, 2) ].

(** ** Vocabulary of the proofs *)

(** The grid has eight rows of eight squares. *)
Definition wf_grid (g : Grid) : Prop :=
  List.length g = 8%nat /\ Forall (fun r => List.length r = 8%nat) g.

Definition wf_board (s : ChessBoard) : Prop := wf_grid (board s).

(** A square a piece of [color] may move onto: empty, or held by the
    other side. *)
Definition free_for (s : ChessBoard) (color : Color) (row col : Z) : Prop :=
  match get_piece s row col with
  | Some target => piece_color target <> color
  | None => True
  end.

(** [c] run in store [h] returns [v] and leaves every object of [h] as it
    was: the store afterwards is [h] followed by the objects allocated on
    the way. *)
Definition preserves {A : Type} (c : ST A) (h : Heap) (v : A) : Prop :=
  exists g, c h = (v, h ++ g).

(** The fields other than the grid agree. *)
Definition same_counters (s s' : ChessBoard) : Prop :=
  current_player s' = current_player s /\
  move_history s' = move_history s /\
  en_passant_target s' = en_passant_target s /\
  halfmove_clock s' = halfmove_clock s /\
  fullmove_number s' = fullmove_number s.

(** The en-passant target [update_en_passant_target] computes for a move
    of [piece]. *)
Definition en_passant_after (move : Move) (piece : Piece) : option Pos :=
  if PieceType_eqb (piece_type piece) PAWN &&
     (Z.abs (fst (to_pos move) - fst (from_pos move)) =? 2)
  then Some ((fst (from_pos move) + fst (to_pos move)) / 2,
             snd (to_pos move))
  else None.

(** The order on scores as propositions, for arithmetic. *)
Definition Sle (a b : Score) : Prop :=
  match a, b with
  | NegInf, _ => True
  | _, PosInf => True
  | Fin x, Fin y => x <= y
  | _, _ => False
  end.

Definition Seq (a b : Score) : Prop :=
  match a, b with
  | NegInf, NegInf => True
  | PosInf, PosInf => True
  | Fin x, Fin y => x = y
  | _, _ => False
  end.

Definition Smax (a b : Score) : Score :=
  match a, b with
  | NegInf, _ => b
  | _, NegInf => a
  | PosInf, _ => PosInf
  | _, PosInf => PosInf
  | Fin x, Fin y => Fin (Z.max x y)
  end.

Definition Smin (a b : Score) : Score :=
  match a, b with
  | PosInf, _ => b
  | _, PosInf => a
  | NegInf, _ => NegInf
  | _, NegInf => NegInf
  | Fin x, Fin y => Fin (Z.min x y)
  end.

(** What a search with window [(alpha, beta)] returning [r] owes to the
    exhaustive value [v]: [r] is [v] when [v] lies inside the window, and
    otherwise lies on the same side of the window as [v]. *)
Definition ab_ok (alpha beta v r : Score) : Prop :=
  (Score_leb v alpha = true -> Score_leb r alpha = true) /\
  (Score_leb beta v = true -> Score_leb beta r = true) /\
  (Score_ltb alpha v = true -> Score_ltb v beta = true -> r = v).

(** The exhaustive value of the position after a move. *)
Definition exact_after (exact : ChessBoard -> Score) (board : ChessBoard)
           (move : Move) : Score :=
  exact (snd (make_move_unchecked board move)).

(** * Properties *)

Example initial_has_20_moves :
  List.length (generate_legal_moves ChessBoard_init WHITE) = 20%nat.
Proof. vm_compute. reflexivity. Qed.

(** ** Lists and the store *)

Lemma list_set_length {A : Type} (l : list A) (n : nat) (x : A) :
  List.length (list_set l n x) = List.length l.
Proof.
  revert n; induction l as [|a l IH]; intros [|n]; simpl; auto.
Qed.

Lemma list_set_app_l {A : Type} (l g : list A) (n : nat) (x : A) :
  (n < List.length l)%nat -> list_set (l ++ g) n x = list_set l n x ++ g.
Proof.
  revert n; induction l as [|a l IH]; intros [|n] Hn; simpl in *;
    try lia; auto.
  rewrite IH by lia. reflexivity.
Qed.

Lemma list_set_end {A : Type} (l : list A) (a x : A) :
  list_set (l ++ [a]) (List.length l) x = l ++ [x].
Proof.
  induction l as [|b l IH]; simpl; [reflexivity|]. now rewrite IH.
Qed.

Lemma list_set_twice {A : Type} (l : list A) (n : nat) (x y : A) :
  list_set (list_set l n x) n y = list_set l n y.
Proof.
  revert n; induction l as [|a l IH]; intros [|n]; simpl; auto.
  now rewrite IH.
Qed.

Lemma list_set_same {A : Type} (l : list A) (n : nat) (d : A) :
  list_set l n (nth n l d) = l.
Proof.
  revert n; induction l as [|a l IH]; intros [|n]; simpl; auto.
  now rewrite IH.
Qed.

Lemma nth_list_set {A : Type} (l : list A) (n : nat) (x d : A) :
  (n < List.length l)%nat -> nth n (list_set l n x) d = x.
Proof.
  revert n; induction l as [|a l IH]; intros [|n] Hn; simpl in *;
    try lia; auto.
  apply IH; lia.
Qed.

Lemma nth_end {A : Type} (l : list A) (a d : A) :
  nth (List.length l) (l ++ [a]) d = a.
Proof. induction l; simpl; auto. Qed.

Lemma preserves_ret {A : Type} (x : A) (h : Heap) : preserves (ret x) h x.
Proof. exists []. unfold ret. now rewrite app_nil_r. Qed.

Lemma preserves_bind {A B : Type} (c : ST A) (f : A -> ST B)
      (h : Heap) (v : A) (w : B) :
  preserves c h v ->
  (forall g, c h = (v, h ++ g) -> preserves (f v) (h ++ g) w) ->
  preserves (bind c f) h w.
Proof.
  intros [g Hc] Hf. destruct (Hf g Hc) as [g' Hg'].
  exists (g ++ g'). unfold bind. rewrite Hc, Hg'. now rewrite app_assoc.
Qed.

Lemma preserves_deref (r : ref) (h : Heap) :
  preserves (deref r) h (nth r h blank).
Proof. exists []. unfold deref. now rewrite app_nil_r. Qed.

Lemma nth_preserved (r : ref) (h g : Heap) :
  (r < List.length h)%nat -> nth r (h ++ g) blank = nth r h blank.
Proof. intros Hr. now apply app_nth1. Qed.

(** ** The simulations leave the position alone *)

Lemma is_legal_move_obj_run (self : ref) (move : Move) (h : Heap) :
  (self < List.length h)%nat ->
  is_legal_move_obj self move h =
  (is_legal_move (nth self h blank) move,
   h ++ [snd (make_move_unchecked (nth self h blank) move)]).
Proof.
  intros Hself.
  unfold is_legal_move_obj, make_move_unchecked_obj, bind, deepcopy,
    deref, assign, ret, is_legal_move.
  rewrite nth_end, list_set_end, nth_end.
  rewrite nth_preserved by assumption. reflexivity.
Qed.

Lemma is_legal_move_obj_preserves (self : ref) (move : Move) (h : Heap) :
  (self < List.length h)%nat ->
  preserves (is_legal_move_obj self move) h
            (is_legal_move (nth self h blank) move).
Proof.
  intros Hself. eexists. now apply is_legal_move_obj_run.
Qed.

Lemma filter_legal_obj_preserves (self : ref) (piece_moves : list Move) :
  forall h : Heap,
    (self < List.length h)%nat ->
    preserves (filter_legal_obj self piece_moves) h
              (filter (is_legal_move (nth self h blank)) piece_moves).
Proof.
  induction piece_moves as [|move rest IH]; intros h Hself; simpl.
  - apply preserves_ret.
  - eapply preserves_bind.
    + now apply is_legal_move_obj_preserves.
    + intros g _. eapply preserves_bind.
      * apply IH. rewrite length_app. lia.
      * intros g' _. rewrite nth_preserved by assumption.
        destruct (is_legal_move (nth self h blank) move);
          apply preserves_ret.
Qed.

Lemma legal_moves_loop_obj_preserves (self : ref)
      (pieces : list (Z * Z * Piece)) :
  forall h : Heap,
    (self < List.length h)%nat ->
    preserves (legal_moves_loop_obj self pieces) h
      (flat_map (fun '(row, col, piece) =>
                   filter (is_legal_move (nth self h blank))
                          (generate_piece_moves (nth self h blank)
                                                row col piece))
                pieces).
Proof.
  induction pieces as [|[[row col] piece] rest IH]; intros h Hself; simpl.
  - apply preserves_ret.
  - eapply preserves_bind; [apply preserves_deref|].
    intros g0 _. eapply preserves_bind.
    + apply filter_legal_obj_preserves. rewrite length_app. lia.
    + intros g1 _. rewrite !nth_preserved by assumption.
      eapply preserves_bind.
      * apply IH. rewrite !length_app. lia.
      * intros g2 _. rewrite !nth_preserved
          by (rewrite ?length_app; lia).
        apply preserves_ret.
Qed.

Lemma generate_legal_moves_obj_preserves (self : ref) (color : Color)
      (h : Heap) :
  (self < List.length h)%nat ->
  preserves (generate_legal_moves_obj self color) h
            (generate_legal_moves (nth self h blank) color).
Proof.
  intros Hself. unfold generate_legal_moves_obj, generate_legal_moves.
  eapply preserves_bind; [apply preserves_deref|].
  intros g _.
  pose proof (legal_moves_loop_obj_preserves self
                (get_all_pieces (nth self h blank) color) (h ++ g)) as H.
  rewrite nth_preserved in H by assumption.
  apply H. rewrite length_app. lia.
Qed.

Lemma move_priority_obj_run (self : ChessBot) (board : ref) (move : Move)
      (h : Heap) :
  (board < List.length h)%nat ->
  move_priority_obj self board move h =
  (move_priority self (nth board h blank) move,
   h ++ [snd (make_move_unchecked (nth board h blank) move)]).
Proof.
  intros Hb.
  unfold move_priority_obj, copy_board, make_move_obj,
    make_move_unchecked_obj, bind, deepcopy, deref, assign, ret,
    move_priority.
  rewrite nth_end, list_set_end, nth_end. reflexivity.
Qed.

Lemma priorities_obj_preserves (self : ChessBot) (board : ref)
      (moves : list Move) :
  forall h : Heap,
    (board < List.length h)%nat ->
    preserves (priorities_obj self board moves) h
              (map (move_priority self (nth board h blank)) moves).
Proof.
  induction moves as [|move rest IH]; intros h Hb; simpl.
  - apply preserves_ret.
  - eapply preserves_bind.
    + eexists. now apply move_priority_obj_run.
    + intros g _. eapply preserves_bind.
      * apply IH. rewrite length_app. lia.
      * intros g' _. rewrite nth_preserved by assumption.
        apply preserves_ret.
Qed.

Lemma order_moves_obj_preserves (self : ChessBot) (board : ref)
      (moves : list Move) (h : Heap) :
  (board < List.length h)%nat ->
  preserves (order_moves_obj self board moves) h
            (order_moves self (nth board h blank) moves).
Proof.
  intros Hb. unfold order_moves_obj, order_moves.
  eapply preserves_bind.
  - now apply priorities_obj_preserves.
  - intros g _. apply preserves_ret.
Qed.

Lemma with_current_player_restore (b : ChessBoard) (c : Color) :
  with_current_player (with_current_player b c) (current_player b) = b.
Proof. destruct b; reflexivity. Qed.

Lemma evaluate_position_obj_preserves (self : ChessBot) (board : ref)
      (h : Heap) :
  (board < List.length h)%nat ->
  preserves (evaluate_position_obj self board) h
            (evaluate_position self (nth board h blank)).
Proof.
  intros Hb.
  set (b := nth board h blank).
  set (opp := other_color (bot_color self)).
  destruct (generate_legal_moves_obj_preserves board (bot_color self) h Hb)
    as [g1 H1].
  set (h2 := list_set h board (with_current_player b opp) ++ g1).
  assert (Hb2 : (board < List.length h2)%nat).
  { unfold h2. rewrite length_app, list_set_length. lia. }
  assert (Hn2 : nth board h2 blank = with_current_player b opp).
  { unfold h2. rewrite app_nth1 by (rewrite list_set_length; exact Hb).
    now apply nth_list_set. }
  destruct (generate_legal_moves_obj_preserves board opp h2 Hb2)
    as [g2 H2].
  rewrite Hn2 in H2.
  exists (g1 ++ g2).
  unfold evaluate_position_obj, bind.
  unfold deref at 1. rewrite H1.
  unfold deref at 1, assign at 1.
  rewrite nth_preserved by assumption. fold b.
  rewrite list_set_app_l by assumption. fold opp. fold h2.
  rewrite H2.
  unfold deref at 1, assign at 1.
  rewrite nth_preserved by assumption. rewrite Hn2.
  simpl current_player. rewrite with_current_player_restore.
  unfold h2 at 1.
  rewrite <- app_assoc.
  rewrite list_set_app_l by (rewrite list_set_length; exact Hb).
  rewrite list_set_twice. unfold b at 1. rewrite list_set_same.
  unfold deref, ret. rewrite nth_preserved by assumption. fold b.
  unfold evaluate_position. fold b. fold opp. reflexivity.
Qed.

Lemma make_move_unchecked_obj_run (self : ref) (move : Move) (h : Heap) :
  make_move_unchecked_obj self move h =
  (fst (make_move_unchecked (nth self h blank) move),
   list_set h self (snd (make_move_unchecked (nth self h blank) move))).
Proof. reflexivity. Qed.

(** ** The loop of [is_path_clear] ends by itself

    For squares on a common row, column or diagonal the [while] loop
    reaches the target before the bound on its iterations: allowing more
    iterations changes nothing. *)

Lemma path_loop_enough (self : ChessBoard)
      (row_step col_step to_row to_col : Z) (fuel : nat) :
  forall (k : Z) (current_row current_col : Z) (extra : nat),
    0 <= k <= Z.of_nat fuel ->
    to_row = current_row + k * row_step ->
    to_col = current_col + k * col_step ->
    path_loop (fuel + extra) self current_row current_col
              row_step col_step to_row to_col
    = path_loop fuel self current_row current_col
                row_step col_step to_row to_col.
Proof.
  induction fuel as [|fuel IH]; intros k r c extra Hk Hr Hc.
  - assert (k = 0) by lia. subst k.
    assert (Er : (r =? to_row) = true) by (apply Z.eqb_eq; lia).
    assert (Ec : (c =? to_col) = true) by (apply Z.eqb_eq; lia).
    destruct extra; simpl; now rewrite Er, Ec.
  - simpl.
    destruct ((r =? to_row) && (c =? to_col)) eqn:Hat; [reflexivity|].
    destruct (get_piece self r c); [reflexivity|].
    apply (IH (k - 1)); try lia.
    assert (k <> 0).
    { intros ->. rewrite andb_false_iff, !Z.eqb_neq in Hat. lia. }
    lia.
Qed.

Lemma is_path_clear_terminates (self : ChessBoard)
      (from_row from_col to_row to_col : Z) (extra : nat) :
  from_row = to_row \/ from_col = to_col \/
  Z.abs (to_row - from_row) = Z.abs (to_col - from_col) ->
  let row_step := step_towards from_row to_row in
  let col_step := step_towards from_col to_col in
  path_loop (Z.to_nat (Z.max (Z.abs (to_row - from_row))
                             (Z.abs (to_col - from_col))) + extra)
            self (from_row + row_step) (from_col + col_step)
            row_step col_step to_row to_col
  = is_path_clear self from_row from_col to_row to_col.
Proof.
  intros Hline row_step col_step. unfold is_path_clear.
  fold row_step col_step.
  set (d := Z.max (Z.abs (to_row - from_row)) (Z.abs (to_col - from_col))).
  destruct (Z.eq_dec d 0) as [Hd|Hd].
  - apply (path_loop_enough _ _ _ _ _ _ 0);
      unfold row_step, col_step, step_towards, d in *;
      repeat match goal with
             | |- context [?a =? ?b] => destruct (Z.eqb_spec a b)
             | |- context [?a >? ?b] => destruct (Z.gtb_spec a b)
             end; lia.
  - apply (path_loop_enough _ _ _ _ _ _ (d - 1));
      unfold row_step, col_step, step_towards, d in *;
      repeat match goal with
             | |- context [?a =? ?b] => destruct (Z.eqb_spec a b)
             | |- context [?a >? ?b] => destruct (Z.gtb_spec a b)
             end; lia.
Qed.

(** ** Facts about the move generator *)

Lemma Pos_eqb_eq (a b : Pos) : Pos_eqb a b = true -> a = b.
Proof.
  destruct a, b; unfold Pos_eqb; simpl.
  rewrite andb_true_iff, !Z.eqb_eq. intros [-> ->]. reflexivity.
Qed.

Lemma in_range8_valid (row col : Z) :
  In row range8 -> In col range8 -> is_valid_position row col = true.
Proof.
  unfold range8; simpl; intros Hr Hc.
  repeat (destruct Hr as [<-|Hr]; [|]); try contradiction;
    repeat (destruct Hc as [<-|Hc]; [|]); try contradiction; reflexivity.
Qed.

(** Every entry of [get_all_pieces] is the piece standing on its square. *)
Lemma get_all_pieces_occupied (self : ChessBoard) (color : Color)
      (row col : Z) (piece : Piece) :
  In (row, col, piece) (get_all_pieces self color) ->
  get_piece self row col = Some piece /\ piece_color piece = color.
Proof.
  unfold get_all_pieces. rewrite in_flat_map.
  intros [r [Hr H]]. rewrite in_flat_map in H. destruct H as [c [Hc H]].
  destruct (grid_at (board self) r c) as [p|] eqn:Hg; [|contradiction].
  destruct (Color_eqb (piece_color p) color) eqn:Hcol; [|contradiction].
  destruct H as [H|[]]. injection H as <- <- <-.
  unfold get_piece. rewrite in_range8_valid by assumption.
  split; [assumption|].
  destruct (piece_color p), color; simpl in Hcol; congruence.
Qed.

Lemma ray_moves_from (self : ChessBoard) (row col row_dir col_dir : Z)
      (steps : list Z) (m : Move) :
  In m (ray_moves self row col row_dir col_dir steps) ->
  from_pos m = (row, col).
Proof.
  induction steps as [|i rest IH]; simpl; [contradiction|].
  destruct (negb (is_valid_position _ _)); [contradiction|].
  destruct (get_piece self _ _).
  - destruct (enemy_of_origin _ _ _ _); simpl; [|contradiction].
    intros [<-|[]]; reflexivity.
  - simpl. intros [<-|H]; [reflexivity|auto].
Qed.

Ltac from_cases :=
  repeat match goal with
  | H : False |- _ => contradiction
  | H : In _ [] |- _ => contradiction
  | H : In _ (_ ++ _) |- _ => apply in_app_or in H; destruct H as [H|H]
  | H : In _ (_ :: _) |- _ => destruct H as [H|H]
  | H : In _ (map _ _) |- _ =>
      apply in_map_iff in H; destruct H as [? [H ?]]
  | H : In _ (if ?c then _ else _) |- _ => destruct c
  | H : In _ (match ?c with Some _ => _ | None => _ end) |- _ =>
      destruct c
  | H : In _ (ray_moves _ _ _ _ _ _) |- _ =>
      apply ray_moves_from in H
  | H : _ = ?m |- from_pos ?m = _ => rewrite <- H; reflexivity
  | H : ?e |- ?e => exact H
  end.

Lemma generate_piece_moves_from (self : ChessBoard) (row col : Z)
      (piece : Piece) (m : Move) :
  In m (generate_piece_moves self row col piece) ->
  from_pos m = (row, col).
Proof.
  unfold generate_piece_moves.
  destruct (piece_type piece); intros H.
  - unfold generate_pawn_moves in H. cbn [flat_map] in H. from_cases.
  - unfold generate_rook_moves in H. cbn [flat_map] in H. from_cases.
  - unfold generate_knight_moves in H. cbn [flat_map] in H. from_cases.
  - unfold generate_bishop_moves in H. cbn [flat_map] in H. from_cases.
  - unfold generate_queen_moves, generate_rook_moves,
      generate_bishop_moves in H. cbn [flat_map] in H. from_cases.
  - unfold generate_king_moves in H. cbn [flat_map] in H.
    cbn [Z.eqb andb] in H. from_cases.
Qed.

(** A legal move starts from a square holding a piece of the side asked
    for, and passes the legality filter. *)
Lemma generate_legal_moves_in (self : ChessBoard) (color : Color)
      (m : Move) :
  In m (generate_legal_moves self color) ->
  is_legal_move self m = true /\
  exists piece,
    get_piece self (fst (from_pos m)) (snd (from_pos m)) = Some piece /\
    piece_color piece = color.
Proof.
  unfold generate_legal_moves. rewrite in_flat_map.
  intros [[[row col] piece] [Hp Hm]].
  apply filter_In in Hm. destruct Hm as [Hm Hl].
  split; [assumption|].
  apply generate_piece_moves_from in Hm. rewrite Hm. simpl.
  exists piece. now apply get_all_pieces_occupied in Hp.
Qed.

Lemma move_in_origin (self : ChessBoard) (color : Color) (m : Move) :
  move_in m (generate_legal_moves self color) = true ->
  exists piece,
    get_piece self (fst (from_pos m)) (snd (from_pos m)) = Some piece.
Proof.
  unfold move_in. rewrite existsb_exists. intros [m' [Hin Heq]].
  apply generate_legal_moves_in in Hin.
  destruct Hin as [_ [piece [Hp _]]].
  unfold Move_eqb in Heq. rewrite !andb_true_iff in Heq.
  destruct Heq as [[Hf _] _]. apply Pos_eqb_eq in Hf.
  rewrite Hf. now exists piece.
Qed.

Ltac in_cases :=
  repeat match goal with
  | H : False |- _ => contradiction
  | H : In _ [] |- _ => contradiction
  | H : In _ (_ ++ _) |- _ => apply in_app_or in H; destruct H as [H|H]
  | H : In _ (_ :: _) |- _ => destruct H as [H|H]
  | H : In _ (map _ _) |- _ =>
      apply in_map_iff in H; destruct H as [? [H ?]]
  | H : In _ (if ?c then _ else _) |- _ => destruct c eqn:?
  | H : In _ (match ?c with Some _ => _ | None => _ end) |- _ =>
      destruct c eqn:?
  end.

(** The only pawn move spanning two rows is the double step from the
    starting row, straight ahead. *)
Lemma generate_pawn_moves_two_rows (self : ChessBoard) (row col : Z)
      (color : Color) (m : Move) :
  In m (generate_pawn_moves self row col color) ->
  Z.abs (fst (to_pos m) - row) = 2 ->
  to_pos m = (row + 2 * (match color with WHITE => -1 | BLACK => 1 end),
              col) /\
  row = match color with WHITE => 6 | BLACK => 1 end.
Proof.
  unfold generate_pawn_moves. cbn [flat_map]. intros H Habs.
  in_cases; subst m; cbn [to_pos plain_move promotion_move en_passant_move
                          fst snd] in Habs;
    destruct color; try lia.
  all: match goal with
       | E : (_ =? _) && _ = true |- _ =>
           apply andb_true_iff in E; destruct E as [E _];
           apply Z.eqb_eq in E
       end.
  all: cbn [to_pos plain_move]; split; [f_equal; lia|lia].
Qed.

(** A move that passes the legality gate as a pawn move spanning two
    rows stays in its column and starts from the pawn's starting row. *)
Lemma checked_double_step (s : ChessBoard) (move : Move) (piece : Piece) :
  move_in move (generate_legal_moves s (current_player s)) = true ->
  get_piece s (fst (from_pos move)) (snd (from_pos move)) = Some piece ->
  piece_type piece = PAWN ->
  Z.abs (fst (to_pos move) - fst (from_pos move)) = 2 ->
  snd (to_pos move) = snd (from_pos move) /\
  Z.abs ((fst (from_pos move) + fst (to_pos move)) / 2
         - fst (from_pos move)) = 1 /\
  Z.abs (fst (to_pos move)
         - (fst (from_pos move) + fst (to_pos move)) / 2) = 1.
Proof.
  intros Hin Hpiece Hpawn Habs.
  unfold move_in in Hin. rewrite existsb_exists in Hin.
  destruct Hin as [m' [Hm' Heq]].
  unfold Move_eqb in Heq. rewrite !andb_true_iff in Heq.
  destruct Heq as [[Hf Ht] _].
  apply Pos_eqb_eq in Hf. apply Pos_eqb_eq in Ht.
  unfold generate_legal_moves in Hm'. rewrite in_flat_map in Hm'.
  destruct Hm' as [[[row col] p] [Hp Hm']].
  apply filter_In in Hm'. destruct Hm' as [Hm' _].
  pose proof (generate_piece_moves_from _ _ _ _ _ Hm') as Hfrom.
  apply get_all_pieces_occupied in Hp. destruct Hp as [Hp _].
  rewrite Hf, Hfrom in Hpiece. simpl in Hpiece.
  rewrite Hp in Hpiece. injection Hpiece as ->.
  unfold generate_piece_moves in Hm'. rewrite Hpawn in Hm'.
  rewrite Hf, Ht, Hfrom in *. cbn [fst snd] in *.
  destruct (generate_pawn_moves_two_rows _ _ _ _ _ Hm' Habs)
    as [Hto _].
  rewrite Hto. cbn [fst snd].
  destruct (piece_color piece).
  - replace ((row + (row + 2 * -1)) / 2) with (row - 1)
      by (replace (row + (row + 2 * -1)) with ((row - 1) * 2) by lia;
          now rewrite Z.div_mul).
    repeat split; lia.
  - replace ((row + (row + 2 * 1)) / 2) with (row + 1)
      by (replace (row + (row + 2 * 1)) with ((row + 1) * 2) by lia;
          now rewrite Z.div_mul).
    repeat split; lia.
Qed.

(** ** What [make_move] does to the fields of the position *)

Lemma same_counters_refl (s : ChessBoard) : same_counters s s.
Proof. repeat split. Qed.

Lemma same_counters_trans (s1 s2 s3 : ChessBoard) :
  same_counters s1 s2 -> same_counters s2 s3 -> same_counters s1 s3.
Proof.
  unfold same_counters. intros (A1 & A2 & A3 & A4 & A5) (B1 & B2 & B3 & B4 & B5).
  repeat split; congruence.
Qed.

Lemma set_piece_counters (s : ChessBoard) (row col : Z) (p : option Piece) :
  same_counters s (set_piece s row col p).
Proof.
  unfold set_piece. destruct (is_valid_position row col);
    [destruct (nth_error _ _)|]; repeat split.
Qed.

Create HintDb counters.

#[local] Hint Resolve same_counters_refl set_piece_counters : counters.

Lemma handle_castling_counters (s : ChessBoard) (move : Move) :
  same_counters s (handle_castling s move).
Proof.
  unfold handle_castling. destruct (from_pos move), (to_pos move).
  destruct (_ =? 6);
    repeat (eapply same_counters_trans; [|apply set_piece_counters]);
    auto with counters.
Qed.

Lemma handle_en_passant_counters (s : ChessBoard) (move : Move) :
  same_counters s (handle_en_passant s move).
Proof.
  unfold handle_en_passant. destruct (from_pos move), (to_pos move).
  repeat (eapply same_counters_trans; [|apply set_piece_counters]);
    auto with counters.
Qed.

Lemma get_piece_board (s s' : ChessBoard) (row col : Z) :
  board s = board s' -> get_piece s row col = get_piece s' row col.
Proof. unfold get_piece. now intros ->. Qed.

Lemma get_piece_with (s : ChessBoard) (row col : Z) :
  (forall c, get_piece (with_current_player s c) row col
             = get_piece s row col) /\
  (forall l, get_piece (with_move_history s l) row col
             = get_piece s row col) /\
  (forall t, get_piece (with_en_passant_target s t) row col
             = get_piece s row col) /\
  (forall n, get_piece (with_halfmove_clock s n) row col
             = get_piece s row col) /\
  (forall n, get_piece (with_fullmove_number s n) row col
             = get_piece s row col).
Proof. repeat split. Qed.

Ltac strip_with :=
  repeat match goal with
  | |- context [get_piece (with_current_player ?s ?c) ?row ?col] =>
      change (get_piece (with_current_player s c) row col)
        with (get_piece s row col)
  | |- context [get_piece (with_move_history ?s ?c) ?row ?col] =>
      change (get_piece (with_move_history s c) row col)
        with (get_piece s row col)
  | |- context [get_piece (with_en_passant_target ?s ?c) ?row ?col] =>
      change (get_piece (with_en_passant_target s c) row col)
        with (get_piece s row col)
  | |- context [get_piece (with_halfmove_clock ?s ?c) ?row ?col] =>
      change (get_piece (with_halfmove_clock s c) row col)
        with (get_piece s row col)
  | |- context [get_piece (with_fullmove_number ?s ?c) ?row ?col] =>
      change (get_piece (with_fullmove_number s c) row col)
        with (get_piece s row col)
  end.

(** A successful [make_move(move, check_legality=False)], field by
    field. *)
Lemma make_move_unchecked_success (s s' : ChessBoard) (move : Move) :
  make_move_unchecked s move = (true, s') ->
  exists piece,
    get_piece s (fst (from_pos move)) (snd (from_pos move)) = Some piece /\
    current_player s' = other_color (current_player s) /\
    move_history s' = move_history s ++ [move] /\
    en_passant_target s' = en_passant_after move piece /\
    halfmove_clock s' =
      (if PieceType_eqb (piece_type piece) PAWN ||
          occupied (get_piece s' (fst (to_pos move)) (snd (to_pos move)))
       then 0 else halfmove_clock s + 1) /\
    fullmove_number s' =
      (if Color_eqb (current_player s) BLACK
       then fullmove_number s + 1 else fullmove_number s).
Proof.
  unfold make_move_unchecked.
  destruct (from_pos move) as [from_row from_col] eqn:Hfrom.
  destruct (to_pos move) as [to_row to_col] eqn:Hto.
  simpl fst; simpl snd.
  destruct (get_piece s from_row from_col) as [piece|] eqn:Hpiece;
    [|discriminate].
  set (s1 := if is_castling move then _ else _).
  set (s2 := match get_piece s1 to_row to_col with
             | Some _ => _ | None => _ end).
  assert (H2 : same_counters s s2).
  { assert (H1 : same_counters s s1).
    { unfold s1. destruct (is_castling move);
        [apply handle_castling_counters|].
      destruct (is_en_passant move); [apply handle_en_passant_counters|].
      destruct (promotion move);
        repeat (eapply same_counters_trans; [|apply set_piece_counters]);
        auto with counters. }
    unfold s2. destruct (get_piece s1 to_row to_col); [|exact H1].
    eapply same_counters_trans; [exact H1|apply set_piece_counters]. }
  destruct H2 as (Hcp & Hmh & _ & Hhc & Hfn).
  intros H. injection H as <-. exists piece. split; [reflexivity|].
  unfold update_en_passant_target, en_passant_after.
  rewrite Hfrom, Hto. simpl fst; simpl snd.
  destruct (PieceType_eqb (piece_type piece) PAWN &&
            (Z.abs (to_row - from_row) =? 2));
    strip_with;
    destruct (PieceType_eqb (piece_type piece) PAWN ||
              occupied (get_piece s2 to_row to_col)) eqn:Hq;
    cbn [current_player with_halfmove_clock with_move_history
         with_en_passant_target halfmove_clock move_history
         en_passant_target fullmove_number];
    rewrite ?Hcp, ?Hmh, ?Hhc, ?Hfn;
    destruct (Color_eqb (current_player s) BLACK);
    strip_with; rewrite ?Hq;
    cbn; rewrite ?Hcp, ?Hmh, ?Hhc, ?Hfn; repeat split.
Qed.

Lemma make_move_success (s s' : ChessBoard) (move : Move)
      (check_legality : bool) :
  make_move s move check_legality = (true, s') ->
  make_move_unchecked s move = (true, s').
Proof.
  unfold make_move. destruct (check_legality && _); [discriminate|auto].
Qed.

(** On objects, [make_move] returns the flag of [make_move] on the value
    of [self] and leaves that value's next state in [self]; nothing else
    in the store changes. *)
Lemma make_move_obj_run (self : ref) (move : Move) (check_legality : bool)
      (h : Heap) :
  (self < List.length h)%nat ->
  exists g,
    make_move_obj self move check_legality h =
    (fst (make_move (nth self h blank) move check_legality),
     list_set h self (snd (make_move (nth self h blank) move
                                     check_legality)) ++ g).
Proof.
  intros Hself. unfold make_move_obj, make_move.
  destruct check_legality; simpl andb.
  - destruct (generate_legal_moves_obj_preserves self
                (current_player (nth self h blank)) h Hself) as [g Hg].
    exists g. unfold bind, deref at 1. rewrite Hg.
    destruct (negb (move_in move _)).
    + unfold ret. simpl. now rewrite list_set_same.
    + rewrite make_move_unchecked_obj_run.
      rewrite nth_preserved by assumption.
      now rewrite list_set_app_l by assumption.
  - exists []. rewrite make_move_unchecked_obj_run. now rewrite app_nil_r.
Qed.

(** ** The claims *)

(** C1 (the code departs from the claim).  The claim: a successful
    [make_move] sets [halfmove_clock] to zero after a pawn move or a
    capture and adds one to it otherwise.  [make_move] tests for a capture
    by reading the destination square after the piece has been put
    there, so the test succeeds for a quiet move too: in the starting
    position the knight move g1-f3 (a knight, onto an empty square) is
    accepted and leaves the clock at 0, and with the clock at 7 before the
    move it is 0 afterwards, not 8. *)
Theorem quiet_knight_move_resets_clock :
  let move := plain_move (7, 6) (5, 5) in
  let s7 := with_halfmove_clock ChessBoard_init 7 in
  get_piece ChessBoard_init 7 6 = Some (Piece_init KNIGHT WHITE) /\
  get_piece ChessBoard_init 5 5 = None /\
  fst (make_move ChessBoard_init move true) = true /\
  halfmove_clock ChessBoard_init = 0 /\
  halfmove_clock (snd (make_move ChessBoard_init move true)) = 0 /\
  fst (make_move s7 move true) = true /\
  halfmove_clock (snd (make_move s7 move true)) = 0.
Proof. vm_compute. repeat split. Qed.

(** What the test of [is_legal_move] settles: after a move returned by
    [generate_legal_moves(p, side)] the king that is not in check is the
    king of the side to move of [p], whichever [side] the moves were
    asked for. *)
Lemma legal_moves_keep_side_to_move_safe (p : ChessBoard) (side : Color)
      (m : Move) :
  In m (generate_legal_moves p side) ->
  is_in_check (snd (make_move p m false)) (current_player p) = false.
Proof.
  intros Hin. apply generate_legal_moves_in in Hin.
  destruct Hin as [Hlegal _]. unfold is_legal_move in Hlegal.
  unfold make_move. simpl andb.
  now apply negb_true_iff in Hlegal.
Qed.

(** C2 (the code departs from the claim).  The claim: no move returned
    by [generate_legal_moves(p, side)] leaves the king of [side] in
    check.  [is_legal_move] looks at the king of [self.current_player],
    not at the mover's.  After 1. e4 d5 2. Bb5+ Nc6, with White to move,
    the call for Black, which [evaluate_position] of a black bot makes
    without switching the side to move, returns the pinned knight's move
    c6-e5, after which Black is in check; it returns 29 moves where the
    call on the position with the side to move switched, as
    [evaluate_position] makes it for the opponent's moves, returns 24.
    After 1. e4 d5 2. Bb5+, with Black to move, the call for White
    returns 6 moves and the call with the side switched 36. *)
Theorem legal_moves_leave_own_king_in_check :
  let m := plain_move (2, 2) (3, 4) in
  List.length (move_history pinned_knight) = 4%nat /\
  current_player pinned_knight = WHITE /\
  In m (generate_legal_moves pinned_knight BLACK) /\
  is_in_check (snd (make_move pinned_knight m false)) BLACK = true /\
  List.length (generate_legal_moves pinned_knight BLACK) = 29%nat /\
  List.length (generate_legal_moves
                 (with_current_player pinned_knight BLACK) BLACK)
  = 24%nat /\
  current_player bishop_check = BLACK /\
  List.length (generate_legal_moves bishop_check WHITE) = 6%nat /\
  List.length (generate_legal_moves
                 (with_current_player bishop_check WHITE) WHITE)
  = 36%nat.
Proof. vm_compute. tauto. Qed.

(** C4.  With the legality gate on, [make_move] on the board object
    [self] returns [False] and leaves the store, hence every field of
    [self], as it was whenever the move does not equal a legal move of the
    side to move; otherwise it returns [True] and [self] holds the
    position after the move, with the other side to move. *)
Theorem make_move_gate (h : Heap) (self : ref) (move : Move) :
  (self < List.length h)%nat ->
  let s := nth self h blank in
  (move_in move (generate_legal_moves s (current_player s)) = false ->
   exists g, make_move_obj self move true h = (false, h ++ g)) /\
  (move_in move (generate_legal_moves s (current_player s)) = true ->
   exists g s',
     make_move_obj self move true h = (true, list_set h self s' ++ g) /\
     make_move_unchecked s move = (true, s') /\
     current_player s' = other_color (current_player s) /\
     s' <> s).
Proof.
  intros Hself s.
  destruct (make_move_obj_run self move true h Hself) as [g Hg].
  fold s in Hg. unfold make_move in Hg. simpl andb in Hg.
  split; intros Hin; rewrite Hin in Hg; simpl in Hg.
  - exists g. unfold s in Hg. now rewrite list_set_same in Hg.
  - destruct (move_in_origin _ _ _ Hin) as [piece Hpiece].
    destruct (make_move_unchecked s move) as [ok s'] eqn:Hrun.
    assert (Hok : ok = true).
    { unfold make_move_unchecked in Hrun.
      destruct (from_pos move), (to_pos move). simpl in Hpiece.
      rewrite Hpiece in Hrun. now injection Hrun as <- _. }
    subst ok. exists g, s'. simpl in Hg.
    destruct (make_move_unchecked_success _ _ _ Hrun)
      as (_ & _ & Hcp & _).
    repeat split; try assumption.
    intros ->. destruct (current_player s); discriminate.
Qed.

Lemma make_move_gate_witness :
  (exists g,
     make_move_obj 0%nat (plain_move (6, 4) (3, 4)) true [ChessBoard_init]
     = (false, [ChessBoard_init] ++ g)) /\
  (exists g s',
     make_move_obj 0%nat (plain_move (6, 4) (4, 4)) true [ChessBoard_init]
     = (true, list_set [ChessBoard_init] 0%nat s' ++ g) /\
     make_move_unchecked ChessBoard_init (plain_move (6, 4) (4, 4))
     = (true, s') /\
     current_player s' = other_color (current_player ChessBoard_init) /\
     s' <> ChessBoard_init).
Proof.
  assert (H : (0 < List.length [ChessBoard_init])%nat) by (simpl; lia).
  split.
  - apply (make_move_gate [ChessBoard_init] 0%nat
             (plain_move (6, 4) (3, 4)) H).
    vm_compute. reflexivity.
  - apply (make_move_gate [ChessBoard_init] 0%nat
             (plain_move (6, 4) (4, 4)) H).
    vm_compute. reflexivity.
Defined.

(** C5, as amended.  When [halfmove_clock] is at least 100,
    [is_game_over] reports the end of the game; it reports the draw by
    the 50-move rule whenever the side to move has a legal move, whatever
    the material (checkmate and stalemate are tested first). *)
Theorem fifty_move_draw (s : ChessBoard) :
  halfmove_clock s >= 100 ->
  fst (is_game_over s) = true /\
  (generate_legal_moves s (current_player s) <> [] ->
   is_game_over s = (true, Some "Draw by 50-move rule!"%string)).
Proof.
  intros Hclock. unfold is_game_over, is_checkmate, is_stalemate.
  assert (Hge : (halfmove_clock s >=? 100) = true).
  { apply Z.geb_le. lia. }
  split.
  - destruct (is_in_check s (current_player s));
      destruct (List.length _ =? 0)%nat; simpl; try reflexivity.
    all: rewrite Hge; reflexivity.
  - intros Hmoves.
    destruct (generate_legal_moves s (current_player s));
      [congruence|].
    cbn [List.length Nat.eqb].
    destruct (is_in_check s (current_player s)); cbn [negb andb];
      now rewrite Hge.
Qed.

Lemma fifty_move_draw_witness :
  fst (is_game_over (with_halfmove_clock ChessBoard_init 100)) = true /\
  is_game_over (with_halfmove_clock ChessBoard_init 100)
  = (true, Some "Draw by 50-move rule!"%string).
Proof.
  assert (H : halfmove_clock (with_halfmove_clock ChessBoard_init 100)
              >= 100) by (simpl; lia).
  destruct (fifty_move_draw _ H) as [H1 H2].
  split; [exact H1|]. apply H2. vm_compute. discriminate.
Defined.

(** C5 as stated fails on a mated position: after 1. f3 e5 2. g4 Qh4 with
    the clock set to 100, [is_game_over] reports the checkmate, not the
    draw. *)
Lemma checkmate_before_fifty_move_draw :
  let s := with_halfmove_clock fools_mate 100 in
  halfmove_clock s >= 100 /\
  is_game_over s = (true, Some "Checkmate! Black wins!"%string) /\
  is_game_over s <> (true, Some "Draw by 50-move rule!"%string).
Proof.
  vm_compute. repeat split; try discriminate.
Qed.

(** C8.  Run on the board object [self] of any store, [is_legal_move],
    [generate_legal_moves], [order_moves] and [evaluate_position] (with
    its switch of the side to move and back) return what they return on
    the value of [self], and the store afterwards is the store before,
    object for object, followed by the copies made on the way. *)
Theorem simulations_preserve_position (bot : ChessBot) (h : Heap)
        (self : ref) (move : Move) (color : Color) (moves : list Move) :
  (self < List.length h)%nat ->
  let s := nth self h blank in
  (exists g, is_legal_move_obj self move h
             = (is_legal_move s move, h ++ g)) /\
  (exists g, generate_legal_moves_obj self color h
             = (generate_legal_moves s color, h ++ g)) /\
  (exists g, order_moves_obj bot self moves h
             = (order_moves bot s moves, h ++ g)) /\
  (exists g, evaluate_position_obj bot self h
             = (evaluate_position bot s, h ++ g)).
Proof.
  intros Hself s. split; [|split; [|split]].
  - now apply is_legal_move_obj_preserves.
  - now apply generate_legal_moves_obj_preserves.
  - now apply order_moves_obj_preserves.
  - now apply evaluate_position_obj_preserves.
Qed.

Lemma simulations_preserve_position_witness :
  let bot := ChessBot_init BLACK 3 in
  let h := [ChessBoard_init] in
  let move := plain_move (6, 4) (4, 4) in
  (exists g, is_legal_move_obj 0%nat move h
             = (is_legal_move ChessBoard_init move, h ++ g)) /\
  (exists g, generate_legal_moves_obj 0%nat WHITE h
             = (generate_legal_moves ChessBoard_init WHITE, h ++ g)) /\
  (exists g, order_moves_obj bot 0%nat [move] h
             = (order_moves bot ChessBoard_init [move], h ++ g)) /\
  (exists g, evaluate_position_obj bot 0%nat h
             = (evaluate_position bot ChessBoard_init, h ++ g)).
Proof.
  apply (simulations_preserve_position (ChessBot_init BLACK 3)
           [ChessBoard_init] 0%nat (plain_move (6, 4) (4, 4)) WHITE
           [plain_move (6, 4) (4, 4)]).
  simpl. lia.
Defined.

(** C9.  After every successful [make_move] the en-passant target is the
    square between origin and destination rows, in the destination
    column, if the piece moved was a pawn and the move spans two rows,
    and [None] otherwise; the target before the move plays no part, so no
    target outlives the next move.  For a move that passed the legality
    gate such a pawn move is the double step straight ahead, and the
    target is the square it passes over. *)
Theorem en_passant_target_recomputed (s s' : ChessBoard) (move : Move)
        (check_legality : bool) :
  make_move s move check_legality = (true, s') ->
  exists piece,
    get_piece s (fst (from_pos move)) (snd (from_pos move)) = Some piece /\
    en_passant_target s' =
      (if PieceType_eqb (piece_type piece) PAWN &&
          (Z.abs (fst (to_pos move) - fst (from_pos move)) =? 2)
       then Some ((fst (from_pos move) + fst (to_pos move)) / 2,
                  snd (to_pos move))
       else None) /\
    (check_legality = true ->
     piece_type piece = PAWN ->
     Z.abs (fst (to_pos move) - fst (from_pos move)) = 2 ->
     snd (to_pos move) = snd (from_pos move) /\
     Z.abs ((fst (from_pos move) + fst (to_pos move)) / 2
            - fst (from_pos move)) = 1 /\
     Z.abs (fst (to_pos move)
            - (fst (from_pos move) + fst (to_pos move)) / 2) = 1).
Proof.
  intros H. pose proof (make_move_success _ _ _ _ H) as Hrun.
  destruct (make_move_unchecked_success _ _ _ Hrun)
    as (piece & Hp & _ & _ & Hep & _).
  exists piece. split; [exact Hp|]. split; [exact Hep|].
  intros -> Hpawn Habs.
  apply (checked_double_step s move piece); try assumption.
  unfold make_move in H. cbn [andb] in H.
  destruct (move_in move _); [reflexivity|discriminate].
Qed.

Lemma en_passant_target_recomputed_witness :
  let e4 := plain_move (6, 4) (4, 4) in
  let a6 := plain_move (1, 0) (2, 0) in
  let s1 := snd (make_move ChessBoard_init e4 true) in
  let s2 := snd (make_move s1 a6 true) in
  en_passant_target s1 = Some ((6 + 4) / 2, 4) /\
  (snd (to_pos e4) = snd (from_pos e4) /\
   Z.abs ((fst (from_pos e4) + fst (to_pos e4)) / 2 - fst (from_pos e4))
   = 1 /\
   Z.abs (fst (to_pos e4) - (fst (from_pos e4) + fst (to_pos e4)) / 2)
   = 1) /\
  en_passant_target s2 = None.
Proof.
  intros e4 a6 s1 s2.
  assert (H1 : make_move ChessBoard_init e4 true = (true, s1))
    by (vm_compute; reflexivity).
  assert (H2 : make_move s1 a6 true = (true, s2))
    by (vm_compute; reflexivity).
  destruct (en_passant_target_recomputed _ _ _ _ H1)
    as (p1 & Hp1 & Hep1 & Hleg1).
  destruct (en_passant_target_recomputed _ _ _ _ H2)
    as (p2 & Hp2 & Hep2 & _).
  assert (E1 : p1 = Piece_init PAWN WHITE)
    by (vm_compute in Hp1; now injection Hp1 as <-).
  assert (E2 : p2 = Piece_init PAWN BLACK)
    by (vm_compute in Hp2; now injection Hp2 as <-).
  subst p1 p2.
  split; [exact Hep1|]. split; [|exact Hep2].
  apply Hleg1; reflexivity.
Defined.

(** C10.  For every integer [d], the bot built with difficulty [d] stores
    [max(1, min(d, 6))], which lies between 1 and 6. *)
Theorem difficulty_clamped (color : Color) (d : Z) :
  difficulty (ChessBot_init color d) = Z.max 1 (Z.min d 6) /\
  1 <= difficulty (ChessBot_init color d) <= 6.
Proof. simpl. split; [reflexivity|lia]. Qed.

(** ** Scores *)

Ltac score_cases :=
  repeat match goal with s : Score |- _ => destruct s end;
  unfold Score_max, Score_min, Score_ltb, Score_leb in *; simpl in *;
  repeat match goal with
         | |- context [?x <=? ?y] => destruct (Z.leb_spec x y); simpl in *
         | H : context [?x <=? ?y] |- _ =>
             destruct (Z.leb_spec x y); simpl in *
         end;
  try congruence; try lia; try (f_equal; lia).

Lemma Score_max_assoc (a b c : Score) :
  Score_max (Score_max a b) c = Score_max a (Score_max b c).
Proof. score_cases. Qed.

Lemma Score_max_comm (a b : Score) : Score_max a b = Score_max b a.
Proof. score_cases. Qed.

Lemma Score_min_assoc (a b c : Score) :
  Score_min (Score_min a b) c = Score_min a (Score_min b c).
Proof. score_cases. Qed.

Lemma Score_min_comm (a b : Score) : Score_min a b = Score_min b a.
Proof. score_cases. Qed.

Lemma max_over_acc (f : Move -> Score) (moves : list Move) (acc : Score) :
  fold_left (fun a m => Score_max a (f m)) moves acc
  = Score_max acc (max_over f moves).
Proof.
  unfold max_over. revert acc.
  induction moves as [|m rest IH]; intros acc; simpl.
  - score_cases.
  - rewrite IH, (IH (Score_max NegInf (f m))).
    generalize (fold_left (fun a m0 => Score_max a (f m0)) rest NegInf).
    generalize (f m). intros x y. score_cases.
Qed.

Lemma max_over_cons (f : Move -> Score) (m : Move) (moves : list Move) :
  max_over f (m :: moves) = Score_max (f m) (max_over f moves).
Proof.
  unfold max_over at 1. simpl. rewrite max_over_acc.
  generalize (max_over f moves), (f m). intros x y. score_cases.
Qed.

Lemma min_over_acc (f : Move -> Score) (moves : list Move) (acc : Score) :
  fold_left (fun a m => Score_min a (f m)) moves acc
  = Score_min acc (min_over f moves).
Proof.
  unfold min_over. revert acc.
  induction moves as [|m rest IH]; intros acc; simpl.
  - score_cases.
  - rewrite IH, (IH (Score_min PosInf (f m))).
    generalize (fold_left (fun a m0 => Score_min a (f m0)) rest PosInf).
    generalize (f m). intros x y. score_cases.
Qed.

Lemma min_over_cons (f : Move -> Score) (m : Move) (moves : list Move) :
  min_over f (m :: moves) = Score_min (f m) (min_over f moves).
Proof.
  unfold min_over at 1. simpl. rewrite min_over_acc.
  generalize (min_over f moves), (f m). intros x y. score_cases.
Qed.

Lemma max_over_perm (f : Move -> Score) (l l' : list Move) :
  Permutation l l' -> max_over f l = max_over f l'.
Proof.
  induction 1 as [|x l l' _ IH|x y l|l l' l'' _ IH1 _ IH2].
  - reflexivity.
  - now rewrite !max_over_cons, IH.
  - rewrite !max_over_cons, <- !Score_max_assoc.
    now rewrite (Score_max_comm (f y)).
  - congruence.
Qed.

Lemma min_over_perm (f : Move -> Score) (l l' : list Move) :
  Permutation l l' -> min_over f l = min_over f l'.
Proof.
  induction 1 as [|x l l' _ IH|x y l|l l' l'' _ IH1 _ IH2].
  - reflexivity.
  - now rewrite !min_over_cons, IH.
  - rewrite !min_over_cons, <- !Score_min_assoc.
    now rewrite (Score_min_comm (f y)).
  - congruence.
Qed.

Lemma max_over_fin (f : Move -> Score) (moves : list Move) :
  (forall m, exists z, f m = Fin z) ->
  max_over f moves = NegInf \/ exists z, max_over f moves = Fin z.
Proof.
  intros Hf. induction moves as [|m rest IH]; [now left|].
  right. rewrite max_over_cons. destruct (Hf m) as [z ->].
  destruct IH as [->|[z' ->]]; unfold Score_max, Score_ltb; simpl;
    try destruct (_ <=? _); simpl; eauto.
Qed.

Lemma min_over_fin (f : Move -> Score) (moves : list Move) :
  (forall m, exists z, f m = Fin z) ->
  min_over f moves = PosInf \/ exists z, min_over f moves = Fin z.
Proof.
  intros Hf. induction moves as [|m rest IH]; [now left|].
  right. rewrite min_over_cons. destruct (Hf m) as [z ->].
  destruct IH as [->|[z' ->]]; unfold Score_min, Score_ltb; simpl;
    try destruct (_ <=? _); simpl; eauto.
Qed.

(** ** Move ordering is a rearrangement *)

Lemma insert_desc_perm (km : Z * Move) (l : list (Z * Move)) :
  Permutation (insert_desc km l) (km :: l).
Proof.
  induction l as [|y t IH]; simpl; [reflexivity|].
  destruct (fst y >? fst km); [|reflexivity].
  rewrite IH. apply perm_swap.
Qed.

Lemma sorted_desc_perm (keys : list Z) (moves : list Move) :
  List.length keys = List.length moves ->
  Permutation (sorted_desc keys moves) moves.
Proof.
  intros Hlen. unfold sorted_desc.
  transitivity (map snd (combine keys moves)).
  - apply Permutation_map.
    induction (combine keys moves) as [|km l IH]; simpl; [reflexivity|].
    rewrite insert_desc_perm. now constructor.
  - revert keys Hlen.
    induction moves as [|m rest IH]; intros [|k ks] Hlen; simpl in *;
      try discriminate; try reflexivity.
    constructor. apply IH. lia.
Qed.

Lemma order_moves_perm (self : ChessBot) (board : ChessBoard)
      (moves : list Move) :
  Permutation (order_moves self board moves) moves.
Proof.
  unfold order_moves. apply sorted_desc_perm. apply length_map.
Qed.

(** ** Alpha-beta pruning against exhaustive search *)

Lemma Score_leb_true (a b : Score) : Score_leb a b = true <-> Sle a b.
Proof.
  destruct a, b; simpl; rewrite ?Z.leb_le; intuition discriminate.
Qed.

Lemma Score_leb_false (a b : Score) : Score_leb a b = false <-> ~ Sle a b.
Proof.
  rewrite <- Score_leb_true. destruct (Score_leb a b); intuition congruence.
Qed.

Lemma Score_ltb_true (a b : Score) : Score_ltb a b = true <-> ~ Sle b a.
Proof.
  unfold Score_ltb. rewrite negb_true_iff. apply Score_leb_false.
Qed.

Lemma Score_ltb_false (a b : Score) : Score_ltb a b = false <-> Sle b a.
Proof.
  unfold Score_ltb. rewrite negb_false_iff. apply Score_leb_true.
Qed.

Lemma Score_eq_Seq (a b : Score) : a = b <-> Seq a b.
Proof.
  destruct a, b; simpl; split; try discriminate; try tauto;
    try congruence.
Qed.

Lemma Score_max_Smax (a b : Score) : Score_max a b = Smax a b.
Proof. score_cases. Qed.

Lemma Score_min_Smin (a b : Score) : Score_min a b = Smin a b.
Proof. score_cases. Qed.

(** Scores to propositions, then case analysis on the scores in sight;
    the cases are linear arithmetic. *)
Ltac window_cases :=
  rewrite ?Score_max_Smax, ?Score_min_Smin in *;
  rewrite ?Score_leb_true, ?Score_leb_false, ?Score_ltb_true,
    ?Score_ltb_false, ?Score_eq_Seq in *;
  repeat match goal with H : _ |- _ => revert H end;
  repeat match goal with
         | |- forall s : Score, _ => intros [| ? |]
         | |- forall _ : _, _ => intro
         end;
  cbn [Sle Seq Smax Smin] in *; try tauto; try lia.

Lemma ab_ok_same (alpha beta v : Score) : ab_ok alpha beta v v.
Proof. unfold ab_ok. auto. Qed.

Lemma max_cut (alpha beta v e M V : Score) :
  Score_ltb alpha beta = true ->
  ab_ok alpha beta v e ->
  Score_leb beta (Score_max alpha e) = true ->
  ab_ok alpha beta (Score_max v V) (Score_max M e).
Proof. unfold ab_ok. intros Hab (H1 & H2 & H3) Hcut. window_cases. Qed.

Lemma max_step (alpha beta v e V R : Score) :
  Score_ltb alpha beta = true ->
  ab_ok alpha beta v e ->
  Score_leb beta (Score_max alpha e) = false ->
  ab_ok (Score_max alpha e) beta V R ->
  Score_leb e R = true ->
  ab_ok alpha beta (Score_max v V) R.
Proof.
  unfold ab_ok. intros Hab (H1 & H2 & H3) Hcut (H4 & H5 & H6) HR.
  window_cases.
Qed.

Lemma min_cut (alpha beta v e M V : Score) :
  Score_ltb alpha beta = true ->
  ab_ok alpha beta v e ->
  Score_leb (Score_min beta e) alpha = true ->
  ab_ok alpha beta (Score_min v V) (Score_min M e).
Proof. unfold ab_ok. intros Hab (H1 & H2 & H3) Hcut. window_cases. Qed.

Lemma min_step (alpha beta v e V R : Score) :
  Score_ltb alpha beta = true ->
  ab_ok alpha beta v e ->
  Score_leb (Score_min beta e) alpha = false ->
  ab_ok alpha (Score_min beta e) V R ->
  Score_leb R e = true ->
  ab_ok alpha beta (Score_min v V) R.
Proof.
  unfold ab_ok. intros Hab (H1 & H2 & H3) Hcut (H4 & H5 & H6) HR.
  window_cases.
Qed.

Section Loops.

(** [child] is a search of the positions below a node, [exact] their
    exhaustive value. *)
Variable child : ChessBoard -> Score -> Score -> Score.
Variable exact : ChessBoard -> Score.
Variable board : ChessBoard.

Hypothesis child_ok :
  forall b alpha beta,
    Score_ltb alpha beta = true ->
    ab_ok alpha beta (exact b) (child b alpha beta).

Lemma max_loop_ge (moves : list Move) :
  forall M alpha beta,
    Score_leb M (max_loop child board moves M alpha beta) = true.
Proof.
  induction moves as [|m rest IH]; intros M alpha beta; simpl.
  - destruct M; simpl; auto using Z.leb_refl.
  - set (e := child _ alpha beta).
    destruct (Score_leb beta (Score_max alpha e)).
    + clearbody e. score_cases.
    + specialize (IH (Score_max M e) (Score_max alpha e) beta).
      revert IH. generalize (max_loop child board rest (Score_max M e)
                               (Score_max alpha e) beta).
      clearbody e. intros R HR. clear - HR. score_cases.
Qed.

Lemma max_loop_ok (moves : list Move) :
  forall M alpha beta,
    Score_ltb alpha beta = true ->
    Score_leb M alpha = true ->
    ab_ok alpha beta (max_over (exact_after exact board) moves)
          (max_loop child board moves M alpha beta).
Proof.
  induction moves as [|m rest IH]; intros M alpha beta Hab HM.
  - simpl. unfold max_over; simpl. unfold ab_ok. clear - Hab HM.
    window_cases.
  - rewrite max_over_cons. simpl.
    pose proof (child_ok (snd (make_move_unchecked board m)) alpha beta
                         Hab) as Hc.
    fold (exact_after exact board m) in Hc.
    set (e := child _ alpha beta) in *.
    destruct (Score_leb beta (Score_max alpha e)) eqn:Hcut.
    + now apply max_cut.
    + eapply max_step; eauto.
      * apply IH.
        -- clear - Hcut. unfold Score_ltb. clearbody e.
           rewrite negb_true_iff. exact Hcut.
        -- clear - HM. clearbody e. score_cases.
      * pose proof (max_loop_ge rest (Score_max M e)
                                (Score_max alpha e) beta) as HR.
        revert HR. generalize (max_loop child board rest (Score_max M e)
                                 (Score_max alpha e) beta).
        clearbody e. intros R HR. clear - HR. score_cases.
Qed.

Lemma min_loop_le (moves : list Move) :
  forall M alpha beta,
    Score_leb (min_loop child board moves M alpha beta) M = true.
Proof.
  induction moves as [|m rest IH]; intros M alpha beta; simpl.
  - destruct M; simpl; auto using Z.leb_refl.
  - set (e := child _ alpha beta).
    destruct (Score_leb (Score_min beta e) alpha).
    + clearbody e. score_cases.
    + specialize (IH (Score_min M e) alpha (Score_min beta e)).
      revert IH. generalize (min_loop child board rest (Score_min M e)
                               alpha (Score_min beta e)).
      clearbody e. intros R HR. clear - HR. score_cases.
Qed.

Lemma min_loop_ok (moves : list Move) :
  forall M alpha beta,
    Score_ltb alpha beta = true ->
    Score_leb beta M = true ->
    ab_ok alpha beta (min_over (exact_after exact board) moves)
          (min_loop child board moves M alpha beta).
Proof.
  induction moves as [|m rest IH]; intros M alpha beta Hab HM.
  - simpl. unfold min_over; simpl. unfold ab_ok. clear - Hab HM.
    window_cases.
  - rewrite min_over_cons. simpl.
    pose proof (child_ok (snd (make_move_unchecked board m)) alpha beta
                         Hab) as Hc.
    fold (exact_after exact board m) in Hc.
    set (e := child _ alpha beta) in *.
    destruct (Score_leb (Score_min beta e) alpha) eqn:Hcut.
    + now apply min_cut.
    + eapply min_step; eauto.
      * apply IH.
        -- clear - Hcut. unfold Score_ltb. clearbody e.
           rewrite negb_true_iff. exact Hcut.
        -- clear - HM. clearbody e. score_cases.
      * pose proof (min_loop_le rest (Score_min M e) alpha
                                (Score_min beta e)) as HR.
        revert HR. generalize (min_loop child board rest (Score_min M e)
                                 alpha (Score_min beta e)).
        clearbody e. intros R HR. clear - HR. score_cases.
Qed.

End Loops.

(** At every node and for every window, [minimax] and exhaustive search
    agree in the sense of [ab_ok]. *)
Lemma minimax_ab_ok (self : ChessBot) (depth : nat) :
  forall board alpha beta maximizing,
    Score_ltb alpha beta = true ->
    ab_ok alpha beta (minimax_exhaustive self depth board maximizing)
          (minimax self depth board alpha beta maximizing).
Proof.
  induction depth as [|depth IH]; intros board alpha beta maximizing Hab;
    simpl.
  - destruct (terminal_score self board 0); apply ab_ok_same.
  - destruct (terminal_score self board (S depth)); [apply ab_ok_same|].
    destruct (generate_legal_moves board (current_player board))
      as [|m0 rest] eqn:Hmoves; [apply ab_ok_same|].
    destruct maximizing.
    + rewrite <- (max_over_perm _ _ _
                    (order_moves_perm self board (m0 :: rest))).
      apply (max_loop_ok
               (fun b al be => minimax self depth b al be false)
               (fun b => minimax_exhaustive self depth b false) board).
      * intros b al be Hw. now apply IH.
      * exact Hab.
      * reflexivity.
    + rewrite <- (min_over_perm _ _ _
                    (order_moves_perm self board (m0 :: rest))).
      apply (min_loop_ok
               (fun b al be => minimax self depth b al be true)
               (fun b => minimax_exhaustive self depth b true) board).
      * intros b al be Hw. now apply IH.
      * exact Hab.
      * destruct beta; reflexivity.
Qed.

Lemma terminal_score_fin (self : ChessBot) (board : ChessBoard)
      (depth : nat) (s : Score) :
  terminal_score self board depth = Some s -> exists z, s = Fin z.
Proof.
  unfold terminal_score.
  destruct (is_game_over board) as [[|] [result|]]; try discriminate.
  destruct (str_in "wins" result); [|intros [= <-]; eauto].
  destruct (_ || _); intros [= <-]; eauto.
Qed.

(** Exhaustive search returns a number, never an infinity. *)
Lemma minimax_exhaustive_fin (self : ChessBot) (depth : nat) :
  forall board maximizing,
    exists z, minimax_exhaustive self depth board maximizing = Fin z.
Proof.
  induction depth as [|depth IH]; intros board maximizing; simpl.
  - destruct (terminal_score self board 0) eqn:Ht;
      [now apply terminal_score_fin in Ht|eauto].
  - destruct (terminal_score self board (S depth)) eqn:Ht;
      [now apply terminal_score_fin in Ht|].
    destruct (generate_legal_moves board (current_player board))
      as [|m0 rest]; [eauto|].
    destruct maximizing.
    + rewrite max_over_cons.
      destruct (IH (snd (make_move_unchecked board m0)) false) as [z ->].
      destruct (max_over_fin
                  (fun move => minimax_exhaustive self depth
                     (snd (make_move_unchecked board move)) false) rest)
        as [->|[z' ->]]; [intros m; apply IH| |].
      * rewrite Score_max_Smax. simpl. eauto.
      * rewrite Score_max_Smax. simpl. eauto.
    + rewrite min_over_cons.
      destruct (IH (snd (make_move_unchecked board m0)) true) as [z ->].
      destruct (min_over_fin
                  (fun move => minimax_exhaustive self depth
                     (snd (make_move_unchecked board move)) true) rest)
        as [->|[z' ->]]; [intros m; apply IH| |].
      * rewrite Score_min_Smin. simpl. eauto.
      * rewrite Score_min_Smin. simpl. eauto.
Qed.

(** The loop of [get_best_move], started with [best_score = alpha] below
    [+inf]: the score it ends with is the larger of [best_score] and the
    exhaustive scores of the moves, and the move it ends with is either
    the one it started with, the score unchanged, or one of the moves,
    whose exhaustive score is the final score. *)
Lemma best_move_loop_spec (self : ChessBot) (board : ChessBoard)
      (moves : list Move) :
  forall best_move best_score,
    best_score <> PosInf ->
    let result :=
      best_move_loop self board moves best_move best_score best_score
                     PosInf in
    snd result
    = Score_max best_score
                (max_over (exhaustive_move_score self board) moves) /\
    ((fst result = best_move /\ snd result = best_score) \/
     exists m, fst result = Some m /\ In m moves /\
               exhaustive_move_score self board m = snd result).
Proof.
  induction moves as [|m rest IH]; intros best_move best_score Hfin.
  - simpl. split; [|now left].
    unfold max_over; simpl. clear. window_cases.
  - cbn zeta. rewrite max_over_cons. cbn [best_move_loop].
    assert (Hw : Score_ltb best_score PosInf = true)
      by (destruct best_score; try reflexivity; congruence).
    pose proof (minimax_ab_ok self (Z.to_nat (difficulty self - 1))
                  (snd (make_move_unchecked board m)) best_score PosInf
                  false Hw) as Hab.
    destruct (minimax_exhaustive_fin self (Z.to_nat (difficulty self - 1))
                (snd (make_move_unchecked board m)) false) as [v Hv].
    change (minimax_exhaustive self (Z.to_nat (difficulty self - 1))
              (snd (make_move_unchecked board m)) false)
      with (exhaustive_move_score self board m) in Hab, Hv.
    rewrite Hv in Hab. rewrite Hv.
    set (score := minimax self _ _ best_score PosInf false) in *.
    clearbody score.
    destruct (Score_ltb best_score score) eqn:Hlt.
    + (* the move is better: the search returned its exhaustive score *)
      assert (Hs : score = Fin v).
      { clear - Hab Hlt Hfin. unfold ab_ok in Hab.
        destruct Hab as (H1 & _ & H3). window_cases. }
      subst score.
      assert (Hmax : Score_max best_score (Fin v) = Fin v)
        by (unfold Score_max; now rewrite Hlt).
      rewrite Hmax. cbn [Score_leb].
      destruct (IH (Some m) (Fin v)) as [IH1 IH2]; [discriminate|].
      cbn zeta in IH1, IH2.
      split.
      * now rewrite IH1, <- Score_max_assoc, Hmax.
      * right. destruct IH2 as [[E1 E2]|(m' & E1 & E2 & E3)].
        -- exists m. rewrite E1, E2. repeat split; auto. now left.
        -- exists m'. repeat split; auto. now right.
    + (* no better: the loop goes on as before *)
      assert (Hcut : Score_leb PosInf best_score = false)
        by (destruct best_score; try reflexivity; congruence).
      assert (Hmax : Score_max best_score score = best_score)
        by (unfold Score_max; now rewrite Hlt).
      rewrite Hmax, Hcut.
      destruct (IH best_move best_score Hfin) as [IH1 IH2].
      cbn zeta in IH1, IH2.
      split.
      * rewrite IH1, <- Score_max_assoc. f_equal.
        clear - Hab Hlt Hfin. unfold ab_ok in Hab.
        destruct Hab as (H1 & _ & H3). window_cases.
      * destruct IH2 as [IH2|(m' & E1 & E2 & E3)]; [now left|].
        right. exists m'. repeat split; auto. now right.
Qed.

(** The search proper of [get_best_move]: with a difficulty other than 1
    and a move to choose from, the move returned is one of the legal
    moves, the score reported is the best exhaustive score over the legal
    moves, and it is the exhaustive score of the move returned. *)
Lemma get_best_move_search (self : ChessBot) (board : ChessBoard)
      (rnd : nat) :
  difficulty self <> 1 ->
  generate_legal_moves board (bot_color self) <> [] ->
  exists m s,
    get_best_move_scored self board rnd = (Some m, Some s) /\
    In m (generate_legal_moves board (bot_color self)) /\
    s = exhaustive_best_score self board /\
    exhaustive_move_score self board m = s.
Proof.
  intros Hd Hmoves. unfold get_best_move_scored, exhaustive_best_score.
  destruct (generate_legal_moves board (bot_color self))
    as [|m0 rest] eqn:Hlegal; [congruence|].
  destruct (Z.eqb_spec (difficulty self) 1) as [|_]; [contradiction|].
  pose proof (order_moves_perm self board (m0 :: rest)) as Hperm.
  destruct (best_move_loop_spec self board
              (order_moves self board (m0 :: rest)) None NegInf)
    as [Hscore Hmove]; [discriminate|].
  cbn zeta in Hscore, Hmove.
  destruct (best_move_loop self board _ None NegInf NegInf PosInf)
    as [best_move best_score].
  simpl in Hscore, Hmove.
  rewrite (max_over_perm _ _ _ Hperm) in Hscore.
  assert (Hs : best_score
               = max_over (exhaustive_move_score self board) (m0 :: rest)).
  { rewrite Hscore. generalize (max_over (exhaustive_move_score self board)
                                         (m0 :: rest)).
    intros x. score_cases. }
  destruct Hmove as [[_ Hneg]|(m & -> & Hin & Hex)].
  - exfalso. rewrite Hs, max_over_cons in Hneg.
    destruct (minimax_exhaustive_fin self (Z.to_nat (difficulty self - 1))
                (snd (make_move_unchecked board m0)) false) as [z Hz].
    unfold exhaustive_move_score in Hneg at 1. rewrite Hz in Hneg.
    destruct (max_over_fin (exhaustive_move_score self board) rest)
      as [E|[z' E]];
      [intros m; apply minimax_exhaustive_fin| |];
      rewrite E, Score_max_Smax in Hneg; discriminate.
  - exists m, best_score. repeat split; auto.
    eapply Permutation_in; eauto.
Qed.

(** At a root where the bot is to move and the game is not over, the
    best exhaustive score is exhaustive minimax of the position at the
    bot's full depth. *)
Lemma exhaustive_best_score_root (self : ChessBot) (board : ChessBoard) :
  1 <= difficulty self ->
  bot_color self = current_player board ->
  fst (is_game_over board) = false ->
  minimax_exhaustive self (Z.to_nat (difficulty self)) board true
  = exhaustive_best_score self board.
Proof.
  intros Hd Hcolor Hover.
  replace (Z.to_nat (difficulty self))
    with (S (Z.to_nat (difficulty self - 1))) by lia.
  cbn [minimax_exhaustive].
  assert (Ht : terminal_score self board
                 (S (Z.to_nat (difficulty self - 1))) = None).
  { unfold terminal_score.
    destruct (is_game_over board) as [[|] r]; [discriminate|reflexivity]. }
  rewrite Ht. unfold exhaustive_best_score, exhaustive_move_score.
  rewrite Hcolor.
  destruct (generate_legal_moves board (current_player board))
    as [|m0 rest] eqn:Hlegal; [|reflexivity].
  exfalso. unfold is_game_over, is_checkmate, is_stalemate in Hover.
  rewrite Hlegal in Hover. simpl in Hover.
  destruct (is_in_check board (current_player board)); discriminate.
Qed.

(** C3, as amended.  At every difficulty from 2 to 6 and in every
    position with a move for the bot, the score of the move
    [get_best_move] chooses, both as the search reports it and as
    exhaustive search scores that move, is the best score exhaustive
    minimax without pruning and ordering finds at the same depth; when
    the bot is to move and the game is not over this is exhaustive
    minimax of the position itself. *)
Theorem alpha_beta_matches_exhaustive (self : ChessBot)
        (board : ChessBoard) (rnd : nat) :
  2 <= difficulty self <= 6 ->
  generate_legal_moves board (bot_color self) <> [] ->
  exists m s,
    get_best_move_scored self board rnd = (Some m, Some s) /\
    In m (generate_legal_moves board (bot_color self)) /\
    s = exhaustive_best_score self board /\
    exhaustive_move_score self board m = s /\
    (bot_color self = current_player board ->
     fst (is_game_over board) = false ->
     s = minimax_exhaustive self (Z.to_nat (difficulty self)) board true).
Proof.
  intros Hd Hmoves.
  destruct (get_best_move_search self board rnd) as (m & s & H1 & H2 & H3 & H4);
    [lia|assumption|].
  exists m, s. repeat split; auto.
  intros Hcolor Hover. rewrite H3. symmetry.
  apply exhaustive_best_score_root; [lia|assumption|assumption].
Qed.

Lemma alpha_beta_matches_exhaustive_witness :
  let self := ChessBot_init WHITE 2 in
  exists m s,
    get_best_move_scored self ChessBoard_init 0 = (Some m, Some s) /\
    In m (generate_legal_moves ChessBoard_init WHITE) /\
    s = exhaustive_best_score self ChessBoard_init /\
    exhaustive_move_score self ChessBoard_init m = s /\
    s = minimax_exhaustive self (Z.to_nat (difficulty self))
                           ChessBoard_init true.
Proof.
  intros self.
  assert (Hd : 2 <= difficulty self <= 6) by (simpl; lia).
  assert (Hm : generate_legal_moves ChessBoard_init (bot_color self) <> [])
    by (vm_compute; discriminate).
  destruct (alpha_beta_matches_exhaustive self ChessBoard_init 0 Hd Hm)
    as (m & s & H1 & H2 & H3 & H4 & H5).
  exists m, s.
  split; [exact H1|]. split; [exact H2|]. split; [exact H3|].
  split; [exact H4|].
  apply H5; [reflexivity|vm_compute; reflexivity].
Defined.

(** C3 as stated fails at depth 1, where [get_best_move] returns a move
    drawn at random: in the starting position the draw 0 gives a2-a3,
    whose exhaustive score at depth 1 is -10, while the best exhaustive
    score at depth 1 is 160. *)
Lemma random_move_is_not_best :
  let self := ChessBot_init WHITE 1 in
  difficulty self = 1 /\
  get_best_move self ChessBoard_init 0 = Some (plain_move (6, 0) (5, 0)) /\
  exhaustive_move_score self ChessBoard_init (plain_move (6, 0) (5, 0))
  = Fin (-10) /\
  exhaustive_best_score self ChessBoard_init = Fin 160 /\
  minimax_exhaustive self 1 ChessBoard_init true = Fin 160.
Proof. vm_compute. repeat split. Qed.

(** ** Terminal nodes of the search *)

Lemma terminal_score_checkmate (self : ChessBot) (board : ChessBoard)
      (depth : nat) :
  is_checkmate board (current_player board) = true ->
  terminal_score self board depth
  = Some (Fin (if Color_eqb (bot_color self)
                            (other_color (current_player board))
               then 10000 + Z.of_nat depth
               else -10000 - Z.of_nat depth)).
Proof.
  intros H. unfold terminal_score, is_game_over. rewrite H.
  destruct (current_player board), (bot_color self); reflexivity.
Qed.

Lemma terminal_score_draw (self : ChessBot) (board : ChessBoard)
      (depth : nat) :
  is_checkmate board (current_player board) = false ->
  is_stalemate board (current_player board) = true \/
  halfmove_clock board >= 100 ->
  terminal_score self board depth = Some (Fin 0).
Proof.
  intros Hmate Hdraw. unfold terminal_score, is_game_over. rewrite Hmate.
  destruct (is_stalemate board (current_player board)); [reflexivity|].
  destruct Hdraw as [Hs|Hclock]; [discriminate|].
  assert (Hge : (halfmove_clock board >=? 100) = true)
    by (apply Z.geb_le; lia).
  rewrite Hge. reflexivity.
Qed.

Lemma minimax_terminal (self : ChessBot) (depth : nat)
      (board : ChessBoard) (alpha beta : Score) (maximizing : bool)
      (s : Score) :
  terminal_score self board depth = Some s ->
  minimax self depth board alpha beta maximizing = s.
Proof. intros H. destruct depth; simpl; now rewrite H. Qed.

(** C6.  At a node where the side to move is checkmated, [minimax]
    returns [10000 + depth] if that side is the bot's opponent and
    [-10000 - depth] if it is the bot; at a node that is a stalemate or a
    50-move draw it returns 0; and at every node where the side to move
    has no legal move and is not checkmated it returns 0. *)
Theorem minimax_terminal_scores (self : ChessBot) (depth : nat)
        (board : ChessBoard) (alpha beta : Score) (maximizing : bool) :
  let side := current_player board in
  (is_checkmate board side = true ->
   minimax self depth board alpha beta maximizing
   = Fin (if Color_eqb (bot_color self) (other_color side)
          then 10000 + Z.of_nat depth
          else -10000 - Z.of_nat depth)) /\
  (is_checkmate board side = false ->
   is_stalemate board side = true \/ halfmove_clock board >= 100 ->
   minimax self depth board alpha beta maximizing = Fin 0) /\
  (generate_legal_moves board side = [] ->
   is_checkmate board side = false ->
   minimax self depth board alpha beta maximizing = Fin 0).
Proof.
  intros side. split; [|split].
  - intros H. apply minimax_terminal. now apply terminal_score_checkmate.
  - intros Hmate Hdraw. apply minimax_terminal.
    now apply terminal_score_draw.
  - intros Hmoves Hmate. apply minimax_terminal.
    apply terminal_score_draw; [assumption|]. left.
    unfold is_checkmate, is_stalemate in *. fold side.
    rewrite Hmoves in *. simpl in *.
    rewrite andb_true_r in *. now rewrite Hmate.
Qed.

Lemma minimax_terminal_scores_witness :
  minimax (ChessBot_init BLACK 3) 2 fools_mate NegInf PosInf false
  = Fin 10002 /\
  minimax (ChessBot_init WHITE 3) 2 fools_mate NegInf PosInf true
  = Fin (-10002) /\
  minimax (ChessBot_init WHITE 3) 2 stalemate_corner NegInf PosInf false
  = Fin 0 /\
  minimax (ChessBot_init WHITE 3) 1
          (with_halfmove_clock ChessBoard_init 100) NegInf PosInf true
  = Fin 0.
Proof.
  split; [|split; [|split]].
  - destruct (minimax_terminal_scores (ChessBot_init BLACK 3) 2
                fools_mate NegInf PosInf false) as (H & _ & _).
    apply H. vm_compute. reflexivity.
  - destruct (minimax_terminal_scores (ChessBot_init WHITE 3) 2
                fools_mate NegInf PosInf true) as (H & _ & _).
    apply H. vm_compute. reflexivity.
  - destruct (minimax_terminal_scores (ChessBot_init WHITE 3) 2
                stalemate_corner NegInf PosInf false) as (_ & _ & H).
    apply H; vm_compute; reflexivity.
  - destruct (minimax_terminal_scores (ChessBot_init WHITE 3) 1
                (with_halfmove_clock ChessBoard_init 100)
                NegInf PosInf true) as (_ & H & _).
    apply H; [vm_compute; reflexivity|].
    right. simpl. lia.
Defined.

(** C7, as amended.  At every difficulty from 1 to 6, [get_best_move]
    returns [None] exactly when [generate_legal_moves] has no move for the
    bot's own colour, and a move it returns is one of those moves; when
    the bot is the side to move, these are the legal moves of the side to
    move. *)
Theorem get_best_move_none_iff (self : ChessBot) (board : ChessBoard)
        (rnd : nat) :
  1 <= difficulty self <= 6 ->
  (get_best_move self board rnd = None <->
   generate_legal_moves board (bot_color self) = []) /\
  (forall m, get_best_move self board rnd = Some m ->
             In m (generate_legal_moves board (bot_color self))).
Proof.
  intros Hd. unfold get_best_move.
  destruct (generate_legal_moves board (bot_color self))
    as [|m0 rest] eqn:Hlegal.
  - unfold get_best_move_scored. rewrite Hlegal. simpl.
    split; [tauto|discriminate].
  - destruct (Z.eq_dec (difficulty self) 1) as [H1|H1].
    + unfold get_best_move_scored. rewrite Hlegal.
      apply Z.eqb_eq in H1. rewrite H1. cbn [fst].
      assert (Hlt : (rnd mod List.length (m0 :: rest)
                     < List.length (m0 :: rest))%nat)
        by (apply Nat.mod_upper_bound; discriminate).
      destruct (nth_error (m0 :: rest)
                          (rnd mod List.length (m0 :: rest))) as [m|] eqn:Hn.
      * split; [split; discriminate|].
        intros m' [= <-]. eapply nth_error_In; eauto.
      * apply nth_error_None in Hn. lia.
    + destruct (get_best_move_search self board rnd H1)
        as (m & s & Hrun & Hin & _); [now rewrite Hlegal|].
      rewrite Hrun, Hlegal in *. cbn [fst].
      split; [split; discriminate|].
      now intros m' [= <-].
Qed.

Lemma get_best_move_none_iff_witness :
  (get_best_move (ChessBot_init WHITE 1) fools_mate 0 = None <->
   generate_legal_moves fools_mate WHITE = []) /\
  get_best_move (ChessBot_init WHITE 1) fools_mate 0 = None /\
  (forall m, get_best_move (ChessBot_init BLACK 1)
               (snd (make_move ChessBoard_init (plain_move (6, 4) (4, 4))
                               true)) 7 = Some m ->
             In m (generate_legal_moves
                     (snd (make_move ChessBoard_init
                                     (plain_move (6, 4) (4, 4)) true))
                     BLACK)).
Proof.
  assert (Hd : forall c, 1 <= difficulty (ChessBot_init c 1) <= 6)
    by (intros c; simpl; lia).
  destruct (get_best_move_none_iff (ChessBot_init WHITE 1) fools_mate 0
              (Hd WHITE)) as [Hiff _].
  destruct (get_best_move_none_iff (ChessBot_init BLACK 1)
              (snd (make_move ChessBoard_init (plain_move (6, 4) (4, 4))
                              true)) 7 (Hd BLACK)) as [_ Hin].
  split; [exact Hiff|]. split; [|exact Hin].
  apply Hiff. vm_compute. reflexivity.
Defined.

(** C7 as stated fails when the bot is not the side to move: in the
    mated position after 1. f3 e5 2. g4 Qh4 White, to move, has no legal
    move, yet the black bot returns a move. *)
Lemma bot_moves_out_of_turn :
  current_player fools_mate = WHITE /\
  generate_legal_moves fools_mate (current_player fools_mate) = [] /\
  get_best_move (ChessBot_init BLACK 1) fools_mate 0
  = Some (plain_move (4, 7) (4, 6)).
Proof. vm_compute. repeat split. Qed.


(** * Further properties of the code *)

(** ** The grid *)

Lemma nth_error_list_set_same {A : Type} (l : list A) (n : nat) (x : A) :
  (n < List.length l)%nat -> nth_error (list_set l n x) n = Some x.
Proof.
  revert n; induction l as [|a l IH]; intros [|n] Hn; simpl in *;
    try lia; auto.
  apply IH; lia.
Qed.

Lemma nth_error_list_set_other {A : Type} (l : list A) (n m : nat) (x : A) :
  n <> m -> nth_error (list_set l n x) m = nth_error l m.
Proof.
  revert n m; induction l as [|a l IH]; intros [|n] [|m] Hnm; simpl;
    try congruence; auto.
Qed.

Lemma valid_bounds (row col : Z) :
  is_valid_position row col = true <-> 0 <= row < 8 /\ 0 <= col < 8.
Proof.
  unfold is_valid_position.
  rewrite !andb_true_iff, !Z.leb_le, !Z.ltb_lt. lia.
Qed.

Lemma wf_row (s : ChessBoard) (row : Z) :
  wf_board s -> 0 <= row < 8 ->
  exists r, nth_error (board s) (Z.to_nat row) = Some r /\
            List.length r = 8%nat.
Proof.
  intros [Hlen Hrows] Hrow.
  destruct (nth_error (board s) (Z.to_nat row)) as [r|] eqn:Hn.
  - exists r. split; [reflexivity|].
    rewrite Forall_forall in Hrows. apply Hrows.
    eapply nth_error_In; eauto.
  - apply nth_error_None in Hn. lia.
Qed.

Lemma set_piece_wf (s : ChessBoard) (row col : Z) (p : option Piece) :
  wf_board s -> wf_board (set_piece s row col p).
Proof.
  intros Hwf. unfold set_piece.
  destruct (is_valid_position row col) eqn:Hv; [|exact Hwf].
  apply valid_bounds in Hv.
  destruct (wf_row s row Hwf (proj1 Hv)) as [r [Hr Hlen]].
  rewrite Hr. destruct Hwf as [Hl Hrows].
  split; simpl.
  - now rewrite list_set_length.
  - rewrite Forall_forall in *. intros x Hx.
    apply In_nth_error in Hx. destruct Hx as [n Hn].
    destruct (Nat.eq_dec (Z.to_nat row) n) as [<-|Hne].
    + rewrite nth_error_list_set_same in Hn
        by (apply nth_error_Some; congruence).
      injection Hn as <-. now rewrite list_set_length.
    + rewrite nth_error_list_set_other in Hn by assumption.
      apply Hrows. eapply nth_error_In; eauto.
Qed.

(** Reading a square after [set_piece], on an 8x8 grid. *)
Lemma get_set_piece_eq (s : ChessBoard) (row col row' col' : Z)
        (p : option Piece) :
  wf_board s ->
  get_piece (set_piece s row col p) row' col'
  = if is_valid_position row col && (row =? row') && (col =? col')
    then p else get_piece s row' col'.
Proof.
  intros Hwf. unfold set_piece.
  destruct (is_valid_position row col) eqn:Hv; [|reflexivity].
  pose proof Hv as Hb. apply valid_bounds in Hb.
  destruct (wf_row s row Hwf (proj1 Hb)) as [r [Hr Hlen]].
  rewrite Hr. unfold get_piece. simpl board. cbn [andb].
  destruct (Z.eqb_spec row row') as [<-|Hrow];
    [destruct (Z.eqb_spec col col') as [<-|Hcol]|]; cbn [andb].
  - rewrite Hv. unfold grid_at.
    rewrite nth_error_list_set_same
      by (apply nth_error_Some; congruence).
    rewrite nth_error_list_set_same by lia. reflexivity.
  - destruct (is_valid_position row col') eqn:Hv'; [|reflexivity].
    apply valid_bounds in Hv'. unfold grid_at.
    rewrite nth_error_list_set_same
      by (apply nth_error_Some; congruence).
    rewrite Hr. rewrite nth_error_list_set_other by lia. reflexivity.
  - destruct (is_valid_position row' col') eqn:Hv'; [|reflexivity].
    apply valid_bounds in Hv'. unfold grid_at.
    rewrite nth_error_list_set_other by lia. reflexivity.
Qed.

Lemma ChessBoard_init_wf : wf_board ChessBoard_init.
Proof.
  split; [reflexivity|]. repeat constructor.
Qed.

Lemma get_piece_valid (s : ChessBoard) (row col : Z) (p : Piece) :
  get_piece s row col = Some p -> is_valid_position row col = true.
Proof.
  unfold get_piece. destruct (is_valid_position row col);
    [reflexivity|discriminate].
Qed.

Lemma handle_castling_wf (s : ChessBoard) (move : Move) :
  wf_board s -> wf_board (handle_castling s move).
Proof.
  intros H. unfold handle_castling.
  destruct (from_pos move), (to_pos move). destruct (_ =? 6);
    repeat apply set_piece_wf; exact H.
Qed.

Lemma handle_en_passant_wf (s : ChessBoard) (move : Move) :
  wf_board s -> wf_board (handle_en_passant s move).
Proof.
  intros H. unfold handle_en_passant.
  destruct (from_pos move), (to_pos move).
  repeat apply set_piece_wf; exact H.
Qed.

(** The statements of [make_move] that write to the grid, in order: the
    special or regular relocation, then the [has_moved] mark. *)
Lemma make_move_unchecked_board (s : ChessBoard) (move : Move)
      (piece : Piece) :
  get_piece s (fst (from_pos move)) (snd (from_pos move)) = Some piece ->
  let s1 :=
    if is_castling move then handle_castling s move
    else if is_en_passant move then handle_en_passant s move
    else
      let s0 := set_piece
                  (set_piece s (fst (to_pos move)) (snd (to_pos move))
                             (Some piece))
                  (fst (from_pos move)) (snd (from_pos move)) None in
      match promotion move with
      | Some kind =>
          set_piece s0 (fst (to_pos move)) (snd (to_pos move))
                    (Some (Piece_init kind (piece_color piece)))
      | None => s0
      end in
  let s2 :=
    match get_piece s1 (fst (to_pos move)) (snd (to_pos move)) with
    | Some moved_piece =>
        set_piece s1 (fst (to_pos move)) (snd (to_pos move))
                  (Some (set_has_moved moved_piece))
    | None => s1
    end in
  fst (make_move_unchecked s move) = true /\
  board (snd (make_move_unchecked s move)) = board s2.
Proof.
  intros Hp. unfold make_move_unchecked.
  destruct (from_pos move) as [fr fc], (to_pos move) as [tr tc].
  cbn [fst snd] in *. rewrite Hp.
  split; [reflexivity|].
  cbn [snd]. unfold update_en_passant_target.
  repeat match goal with
         | |- context [if ?c then _ else _] => destruct c
         | |- context [match ?c with Some _ => _ | None => _ end] =>
             destruct c
         end; reflexivity.
Qed.

(** ** The shape of the generated moves *)

Lemma ray_moves_shape (self : ChessBoard) (row col row_dir col_dir : Z)
      (steps : list Z) (m : Move) :
  In m (ray_moves self row col row_dir col_dir steps) ->
  exists i,
    In i steps /\
    m = plain_move (row, col) (row + i * row_dir, col + i * col_dir) /\
    is_valid_position (row + i * row_dir) (col + i * col_dir) = true /\
    match get_piece self (row + i * row_dir) (col + i * col_dir) with
    | Some target => enemy_of_origin self row col target = true
    | None => True
    end.
Proof.
  induction steps as [|i rest IH]; simpl; [contradiction|].
  destruct (is_valid_position _ _) eqn:Hv; simpl; [|contradiction].
  destruct (get_piece self _ _) as [t|] eqn:Hg.
  - destruct (enemy_of_origin _ _ _ _) eqn:He; simpl; [|contradiction].
    intros [<-|[]]. exists i. rewrite Hg. auto.
  - simpl. intros [<-|H].
    + exists i. rewrite Hg. auto.
    + destruct (IH H) as (j & Hj & Hrest). exists j. auto.
Qed.

Ltac ray_cases :=
  repeat match goal with
  | H : In _ (ray_moves _ _ _ _ _ _) |- _ =>
      apply ray_moves_shape in H;
      destruct H as (? & ? & ? & ? & ?)
  end.

Ltac bounds :=
  repeat match goal with
  | H : _ && _ = true |- _ => apply andb_true_iff in H; destruct H
  | H : is_valid_position _ _ = true |- _ => apply valid_bounds in H
  | H : (_ =? _) = true |- _ => apply Z.eqb_eq in H
  | H : In _ range1_8 |- _ => unfold range1_8 in H; simpl in H
  | H : _ \/ _ |- _ => destruct H
  | H : False |- _ => contradiction
  end.

(** A candidate move of a piece starts on the piece's square and ends on
    a different square of the board. *)
Lemma piece_moves_on_board (self : ChessBoard) (row col : Z)
        (piece : Piece) (m : Move) :
  In m (generate_piece_moves self row col piece) ->
  from_pos m = (row, col) /\
  is_valid_position (fst (to_pos m)) (snd (to_pos m)) = true /\
  to_pos m <> from_pos m.
Proof.
  intros H. split; [now apply generate_piece_moves_from in H|].
  rewrite (generate_piece_moves_from _ _ _ _ _ H).
  unfold generate_piece_moves in H.
  destruct (piece_type piece).
  - unfold generate_pawn_moves in H. cbn [flat_map] in H.
    destruct (piece_color piece); in_cases; subst m;
      cbn [to_pos plain_move promotion_move en_passant_move fst snd];
      bounds; (split; [apply valid_bounds; lia|intros [=]; lia]).
  - unfold generate_rook_moves in H. cbn [flat_map] in H.
    in_cases; ray_cases; subst m; cbn [to_pos plain_move fst snd];
      (split; [assumption|bounds; subst; intros [=]; lia]).
  - unfold generate_knight_moves in H. cbn [flat_map] in H.
    in_cases; subst m; cbn [to_pos plain_move fst snd];
      (split; [assumption|intros [=]; lia]).
  - unfold generate_bishop_moves in H. cbn [flat_map] in H.
    in_cases; ray_cases; subst m; cbn [to_pos plain_move fst snd];
      (split; [assumption|bounds; subst; intros [=]; lia]).
  - unfold generate_queen_moves, generate_rook_moves,
      generate_bishop_moves in H. cbn [flat_map] in H.
    in_cases; ray_cases; subst m; cbn [to_pos plain_move fst snd];
      (split; [assumption|bounds; subst; intros [=]; lia]).
  - unfold generate_king_moves in H. cbn [flat_map] in H.
    cbn [Z.eqb andb] in H.
    in_cases; subst m;
      cbn [to_pos plain_move castling_move fst snd];
      try (split; [assumption|intros [=]; lia]).
    all: unfold castling_allowed in *;
      repeat match goal with
             | H : match ?c with Some _ => _ | None => _ end = true |- _ =>
                 destruct c eqn:?; [|discriminate]
             end;
      cbn [forallb] in *; bounds;
      repeat match goal with
             | H : get_piece _ ?r ?c = Some _ |- _ =>
                 lazymatch goal with
                 | V : is_valid_position r c = true |- _ => fail
                 | V : 0 <= r < 8 /\ 0 <= c < 8 |- _ => fail
                 | _ => pose proof (get_piece_valid _ _ _ _ H)
                 end
             | H : negb (occupied (get_piece ?s ?r ?c)) = true |- _ =>
                 apply negb_true_iff in H
             end; bounds.
    all: split; [apply valid_bounds; lia|].
    all: intros [=]; subst.
    all: repeat match goal with
                | H : occupied (get_piece ?s ?r ?c) = false,
                  H' : get_piece ?s ?r ?c = Some _ |- _ =>
                    rewrite H' in H; discriminate
                end.
Qed.

Lemma Color_eqb_eq (a b : Color) : Color_eqb a b = true <-> a = b.
Proof. destruct a, b; simpl; split; congruence. Qed.

Lemma Color_eqb_neq (a b : Color) : Color_eqb a b = false <-> a <> b.
Proof. destruct a, b; simpl; split; congruence. Qed.

Ltac enemy :=
  repeat match goal with
  | H : negb _ = true |- _ => apply negb_true_iff in H
  | H : Color_eqb _ _ = false |- _ => apply Color_eqb_neq in H
  | H : occupied ?x = false |- _ => destruct x; [discriminate H|clear H]
  end.

(** A candidate move other than an en-passant capture never lands on a
    piece of the mover's colour. *)
Lemma piece_moves_no_own_capture (self : ChessBoard)
        (row col : Z) (piece : Piece) (m : Move) :
  get_piece self row col = Some piece ->
  In m (generate_piece_moves self row col piece) ->
  is_en_passant m = false ->
  match get_piece self (fst (to_pos m)) (snd (to_pos m)) with
  | Some target => piece_color target <> piece_color piece
  | None => True
  end.
Proof.
  intros Hp H Hep.
  unfold generate_piece_moves in H.
  destruct (piece_type piece).
  - unfold generate_pawn_moves in H. cbn [flat_map] in H.
    in_cases; subst m; try discriminate Hep;
      cbn [to_pos plain_move promotion_move fst snd];
      bounds; enemy;
      repeat match goal with
             | H : get_piece ?s ?r ?c = _ |- context [get_piece ?s ?r ?c] =>
                 rewrite H
             end; auto.
  - unfold generate_rook_moves in H. cbn [flat_map] in H.
    in_cases; ray_cases; subst m; cbn [to_pos plain_move fst snd];
      (destruct (get_piece self (row + _ * _) (col + _ * _)); [|exact I]);
      unfold enemy_of_origin in *; rewrite Hp in *; enemy; assumption.
  - unfold generate_knight_moves in H. cbn [flat_map] in H.
    in_cases; subst m; cbn [to_pos plain_move fst snd];
      unfold enemy_of_origin in *; rewrite ?Hp in *;
      repeat match goal with
             | H : get_piece ?s ?r ?c = _ |- context [get_piece ?s ?r ?c] =>
                 rewrite H
             end; enemy; auto.
  - unfold generate_bishop_moves in H. cbn [flat_map] in H.
    in_cases; ray_cases; subst m; cbn [to_pos plain_move fst snd];
      (destruct (get_piece self (row + _ * _) (col + _ * _)); [|exact I]);
      unfold enemy_of_origin in *; rewrite Hp in *; enemy; assumption.
  - unfold generate_queen_moves, generate_rook_moves,
      generate_bishop_moves in H. cbn [flat_map] in H.
    in_cases; ray_cases; subst m; cbn [to_pos plain_move fst snd];
      (destruct (get_piece self (row + _ * _) (col + _ * _)); [|exact I]);
      unfold enemy_of_origin in *; rewrite Hp in *; enemy; assumption.
  - unfold generate_king_moves in H. cbn [flat_map] in H.
    cbn [Z.eqb andb] in H. rewrite Hp in H.
    in_cases; subst m; cbn [to_pos plain_move castling_move fst snd];
      repeat match goal with
             | H : get_piece ?s ?r ?c = _ |- context [get_piece ?s ?r ?c] =>
                 rewrite H
             end; enemy; auto.
    all: unfold castling_allowed in *;
      repeat match goal with
             | H : match ?c with Some _ => _ | None => _ end = true |- _ =>
                 destruct c eqn:?; [|discriminate]
             end;
      cbn [forallb] in *; bounds; enemy; exact I.
Qed.


(** ** What a move does to the grid *)

Lemma make_move_unchecked_wf (s : ChessBoard) (move : Move) :
  wf_board s -> wf_board (snd (make_move_unchecked s move)).
Proof.
  intros Hwf.
  destruct (get_piece s (fst (from_pos move)) (snd (from_pos move)))
    as [piece|] eqn:Hp.
  - destruct (make_move_unchecked_board s move piece Hp) as [_ Hb].
    unfold wf_board. rewrite Hb. cbv zeta.
    repeat match goal with
           | |- context [if ?c then _ else _] => destruct c
           | |- context [match ?c with Some _ => _ | None => _ end] =>
               destruct c
           end;
      repeat first [apply set_piece_wf | apply handle_castling_wf
                   | apply handle_en_passant_wf]; exact Hwf.
  - unfold make_move_unchecked.
    destruct (from_pos move), (to_pos move). cbn [fst snd] in Hp.
    now rewrite Hp.
Qed.

(** X1.  [make_move], with or without the legality gate, keeps the grid
    at eight rows of eight squares. *)
Theorem make_move_keeps_grid_shape (s : ChessBoard) (move : Move)
        (check_legality : bool) :
  wf_board s -> wf_board (snd (make_move s move check_legality)).
Proof.
  intros Hwf. unfold make_move.
  destruct (check_legality && _); [exact Hwf|].
  now apply make_move_unchecked_wf.
Qed.

Lemma make_move_keeps_grid_shape_witness :
  wf_board (snd (make_move ChessBoard_init (plain_move (6, 4) (4, 4))
                           true)).
Proof.
  apply make_move_keeps_grid_shape. exact ChessBoard_init_wf.
Defined.

(** X2.  Without the legality gate [make_move] fails exactly when the
    origin square holds no piece (an origin off the board included), and
    a failed [make_move] leaves the position as it was. *)
Theorem make_move_unchecked_fails_iff (s : ChessBoard) (move : Move) :
  (fst (make_move s move false) = false <->
   get_piece s (fst (from_pos move)) (snd (from_pos move)) = None) /\
  (fst (make_move s move false) = false ->
   snd (make_move s move false) = s).
Proof.
  unfold make_move. cbn [andb]. unfold make_move_unchecked.
  destruct (from_pos move) as [fr fc], (to_pos move) as [tr tc].
  cbn [fst snd].
  destruct (get_piece s fr fc); cbn [fst snd];
    split; try split; try discriminate; auto.
Qed.

Lemma make_move_unchecked_fails_iff_witness :
  fst (make_move ChessBoard_init (plain_move (4, 4) (3, 4)) false) = false /\
  snd (make_move ChessBoard_init (plain_move (4, 4) (3, 4)) false)
  = ChessBoard_init.
Proof.
  destruct (make_move_unchecked_fails_iff ChessBoard_init
              (plain_move (4, 4) (3, 4))) as [[_ H1] H2].
  assert (H : fst (make_move ChessBoard_init (plain_move (4, 4) (3, 4))
                             false) = false) by (apply H1; reflexivity).
  split; [exact H|exact (H2 H)].
Defined.

(** X3.  After a successful [make_move] the other side is to move, the
    move is the last entry of the history, which is otherwise unchanged,
    and the full-move number has grown by one exactly when Black
    moved. *)
Theorem make_move_bookkeeping (s s' : ChessBoard) (move : Move)
        (check_legality : bool) :
  make_move s move check_legality = (true, s') ->
  current_player s' = other_color (current_player s) /\
  move_history s' = move_history s ++ [move] /\
  fullmove_number s' = (if Color_eqb (current_player s) BLACK
                        then fullmove_number s + 1
                        else fullmove_number s).
Proof.
  intros H. apply make_move_success in H.
  destruct (make_move_unchecked_success _ _ _ H)
    as (_ & _ & Hcp & Hmh & _ & _ & Hfn).
  auto.
Qed.

Lemma make_move_bookkeeping_witness :
  let m := plain_move (6, 4) (4, 4) in
  let s' := snd (make_move ChessBoard_init m true) in
  current_player s' = BLACK /\
  move_history s' = [m] /\
  fullmove_number s' = 1.
Proof.
  intros m s'.
  apply (make_move_bookkeeping ChessBoard_init s' m true).
  vm_compute. reflexivity.
Defined.

Lemma PieceType_eqb_eq (a b : PieceType) :
  PieceType_eqb a b = true <-> a = b.
Proof. destruct a, b; simpl; split; congruence. Qed.

Ltac squares :=
  repeat match goal with
  | |- context [is_valid_position ?r ?c] =>
      let E := fresh "V" in
      destruct (is_valid_position r c) eqn:E;
      [apply valid_bounds in E
      |apply not_true_iff_false in E; rewrite valid_bounds in E]
  | |- context [?a =? ?b] => destruct (Z.eqb_spec a b)
  end; cbn [andb]; try lia; try assumption; try reflexivity;
  try congruence.

Ltac sq :=
  repeat match goal with
  | |- context [is_valid_position ?r ?c] =>
      rewrite (proj2 (valid_bounds r c)) by lia
  | |- context [?a =? ?b] =>
      first [ rewrite (proj2 (Z.eqb_eq a b)) by lia
            | rewrite (proj2 (Z.eqb_neq a b)) by lia
            | destruct (Z.eqb_spec a b) ]
  end; cbn [andb]; try assumption; try reflexivity; try congruence.

Ltac get_set Hwf :=
  repeat (rewrite get_set_piece_eq
            by (repeat first [apply set_piece_wf | apply handle_castling_wf
                             | apply handle_en_passant_wf]; exact Hwf)).

(** The king's castling candidates, read off [generate_king_moves]. *)
Lemma castling_candidates (s : ChessBoard) (row col : Z) (king : Piece)
      (m : Move) :
  get_piece s row col = Some king ->
  In m (generate_king_moves s row col (piece_color king)) ->
  is_castling m = true ->
  has_moved king = false /\
  is_in_check s (piece_color king) = false /\
  ((m = castling_move (row, col) (row, 6) /\
    castling_allowed s row (piece_color king) 7 [5; 6] [5; 6] = true) \/
   (m = castling_move (row, col) (row, 2) /\
    castling_allowed s row (piece_color king) 0 [1; 2; 3] [2; 3] = true)).
Proof.
  intros Hp H Hc. unfold generate_king_moves in H.
  cbn [flat_map] in H. cbn [Z.eqb andb] in H. rewrite Hp in H.
  cbv beta iota in H.
  in_cases; subst m; try discriminate Hc.
  all: match goal with
       | E : negb (has_moved _) && negb (is_in_check _ _) = true |- _ =>
           apply andb_true_iff in E; destruct E as [E1 E2];
           apply negb_true_iff in E1; apply negb_true_iff in E2
       end; auto.
Qed.

Lemma castling_allowed_facts (s : ChessBoard) (row : Z) (color : Color)
      (rook_col : Z) (empty_cols safe_cols : list Z) :
  castling_allowed s row color rook_col empty_cols safe_cols = true ->
  exists rook,
    get_piece s row rook_col = Some rook /\
    piece_type rook = ROOK /\ has_moved rook = false /\
    (forall c, In c empty_cols -> get_piece s row c = None) /\
    (forall c, In c safe_cols ->
               is_square_attacked s row c (other_color color) = false).
Proof.
  unfold castling_allowed.
  destruct (get_piece s row rook_col) as [rook|]; [|discriminate].
  rewrite !andb_true_iff, !forallb_forall.
  intros [[[Ht Hm] He] Hs]. exists rook.
  apply PieceType_eqb_eq in Ht. apply negb_true_iff in Hm.
  repeat split; auto.
  - intros c Hc. specialize (He c Hc). apply negb_true_iff in He.
    destruct (get_piece s row c); [discriminate|reflexivity].
  - intros c Hc. specialize (Hs c Hc). now apply negb_true_iff in Hs.
Qed.

(** The squares after a castling candidate of the king is applied. *)
Lemma castling_squares (s : ChessBoard) (row col : Z)
        (king : Piece) (m : Move) :
  wf_board s ->
  get_piece s row col = Some king ->
  piece_type king = KING ->
  In m (generate_king_moves s row col (piece_color king)) ->
  is_castling m = true ->
  let s' := snd (make_move s m false) in
  exists king_to rook_from rook_to rook,
    ((king_to = 6 /\ rook_from = 7 /\ rook_to = 5) \/
     (king_to = 2 /\ rook_from = 0 /\ rook_to = 3)) /\
    to_pos m = (row, king_to) /\
    get_piece s row rook_from = Some rook /\
    piece_type rook = ROOK /\ has_moved rook = false /\
    get_piece s' row king_to = Some (set_has_moved king) /\
    get_piece s' row rook_to = Some rook /\
    get_piece s' row rook_from = None /\
    get_piece s' row col = None.
Proof.
  intros Hwf Hp Hking Hin Hc s'.
  destruct (castling_candidates s row col king m Hp Hin Hc)
    as (_ & _ & Hcases).
  pose proof (get_piece_valid _ _ _ _ Hp) as Hv. apply valid_bounds in Hv.
  assert (Hb : forall r c, get_piece s' r c
               = get_piece
                   (match get_piece (handle_castling s m)
                            (fst (to_pos m)) (snd (to_pos m)) with
                    | Some moved_piece =>
                        set_piece (handle_castling s m) (fst (to_pos m))
                                  (snd (to_pos m))
                                  (Some (set_has_moved moved_piece))
                    | None => handle_castling s m
                    end) r c).
  { intros r c. apply get_piece_board. unfold s', make_move. cbn [andb].
    assert (Hp' : get_piece s (fst (from_pos m)) (snd (from_pos m))
                  = Some king).
    { destruct Hcases as [[-> _]|[-> _]]; exact Hp. }
    destruct (make_move_unchecked_board s m king Hp') as [_ Hbd].
    rewrite Hbd. cbv zeta. now rewrite Hc. }
  destruct Hcases as [[-> Hallowed]|[-> Hallowed]];
    destruct (castling_allowed_facts _ _ _ _ _ _ Hallowed)
      as (rook & Hrook & Htype & Hmoved & Hempty & _).
  - exists 6, 7, 5, rook.
    assert (H5 : get_piece s row 5 = None) by (apply Hempty; simpl; auto).
    assert (H6 : get_piece s row 6 = None) by (apply Hempty; simpl; auto).
    assert (Hcol : col <> 5 /\ col <> 6 /\ col <> 7).
    { repeat split; intros ->; congruence. }
    cbn [to_pos castling_move fst snd] in Hb.
    assert (Hk : get_piece (handle_castling s (castling_move (row, col)
                                                             (row, 6)))
                           row 6 = Some king).
    { unfold handle_castling. cbn [from_pos to_pos castling_move Z.eqb
                                    Pos.eqb].
      get_set Hwf. sq. }
    rewrite Hk in Hb.
    repeat split; auto; rewrite Hb;
      unfold handle_castling;
      cbn [from_pos to_pos castling_move Z.eqb Pos.eqb];
      get_set Hwf; rewrite ?Hrook, ?Hp; sq.
  - exists 2, 0, 3, rook.
    assert (H1 : get_piece s row 1 = None) by (apply Hempty; simpl; auto).
    assert (H2 : get_piece s row 2 = None) by (apply Hempty; simpl; auto).
    assert (H3 : get_piece s row 3 = None) by (apply Hempty; simpl; auto).
    assert (Hcol : col <> 0 /\ col <> 1 /\ col <> 2 /\ col <> 3).
    { repeat split; intros ->; congruence. }
    cbn [to_pos castling_move fst snd] in Hb.
    assert (Hk : get_piece (handle_castling s (castling_move (row, col)
                                                             (row, 2)))
                           row 2 = Some king).
    { unfold handle_castling. cbn [from_pos to_pos castling_move Z.eqb
                                    Pos.eqb].
      get_set Hwf. sq. }
    rewrite Hk in Hb.
    repeat split; auto; rewrite Hb;
      unfold handle_castling;
      cbn [from_pos to_pos castling_move Z.eqb Pos.eqb];
      get_set Hwf; rewrite ?Hrook, ?Hp; sq.
Qed.

(** The grid after a successful [make_move] is the grid after its
    relocation step with the piece on the destination marked as moved. *)
Lemma make_move_unchecked_squares (s : ChessBoard) (move : Move)
      (piece : Piece) (s1 : ChessBoard) :
  get_piece s (fst (from_pos move)) (snd (from_pos move)) = Some piece ->
  s1 = (if is_castling move then handle_castling s move
        else if is_en_passant move then handle_en_passant s move
        else
          let s0 := set_piece
                      (set_piece s (fst (to_pos move)) (snd (to_pos move))
                                 (Some piece))
                      (fst (from_pos move)) (snd (from_pos move)) None in
          match promotion move with
          | Some kind =>
              set_piece s0 (fst (to_pos move)) (snd (to_pos move))
                        (Some (Piece_init kind (piece_color piece)))
          | None => s0
          end) ->
  forall r c,
    get_piece (snd (make_move_unchecked s move)) r c
    = get_piece
        (match get_piece s1 (fst (to_pos move)) (snd (to_pos move)) with
         | Some moved_piece =>
             set_piece s1 (fst (to_pos move)) (snd (to_pos move))
                       (Some (set_has_moved moved_piece))
         | None => s1
         end) r c.
Proof.
  intros Hp -> r c. apply get_piece_board.
  now destruct (make_move_unchecked_board s move piece Hp) as [_ ->].
Qed.

(** The squares after a move that is neither castling nor en passant. *)
Lemma regular_move_squares (s : ChessBoard) (move : Move)
        (piece : Piece) :
  wf_board s ->
  get_piece s (fst (from_pos move)) (snd (from_pos move)) = Some piece ->
  is_castling move = false ->
  is_en_passant move = false ->
  is_valid_position (fst (to_pos move)) (snd (to_pos move)) = true ->
  to_pos move <> from_pos move ->
  let s' := snd (make_move s move false) in
  get_piece s' (fst (to_pos move)) (snd (to_pos move))
  = Some (mkPiece (match promotion move with
                   | Some kind => kind
                   | None => piece_type piece
                   end) (piece_color piece) true) /\
  get_piece s' (fst (from_pos move)) (snd (from_pos move)) = None /\
  (forall r c, (r, c) <> from_pos move -> (r, c) <> to_pos move ->
               get_piece s' r c = get_piece s r c).
Proof.
  intros Hwf Hp Hc He Hv Hne s'.
  unfold s', make_move. cbn [andb].
  pose proof (make_move_unchecked_squares s move piece _ Hp eq_refl) as Hb.
  rewrite Hc, He in Hb. cbv zeta in Hb.
  pose proof (get_piece_valid _ _ _ _ Hp) as Hvf.
  destruct (from_pos move) as [fr fc], (to_pos move) as [tr tc].
  cbn [fst snd] in *. apply valid_bounds in Hv, Hvf.
  assert (Hd : fr <> tr \/ fc <> tc).
  { destruct (Z.eq_dec fr tr), (Z.eq_dec fc tc); subst; auto;
      now contradiction Hne. }
  destruct (promotion move) as [kind|].
  - assert (H1 : get_piece
                   (set_piece
                      (set_piece (set_piece s tr tc (Some piece)) fr fc None)
                      tr tc (Some (Piece_init kind (piece_color piece))))
                   tr tc
                 = Some (Piece_init kind (piece_color piece))).
    { get_set Hwf. sq. }
    rewrite H1 in Hb.
    split; [|split].
    + rewrite Hb. get_set Hwf. sq.
    + rewrite Hb. get_set Hwf.
      destruct Hd; sq.
    + intros r c Hf Ht. rewrite Hb. get_set Hwf.
      assert (r <> fr \/ c <> fc)
        by (destruct (Z.eq_dec r fr), (Z.eq_dec c fc); subst; auto;
            now contradiction Hf).
      assert (r <> tr \/ c <> tc)
        by (destruct (Z.eq_dec r tr), (Z.eq_dec c tc); subst; auto;
            now contradiction Ht).
      squares.
  - assert (H1 : get_piece
                   (set_piece (set_piece s tr tc (Some piece)) fr fc None)
                   tr tc
                 = Some piece).
    { get_set Hwf. destruct Hd; sq. }
    rewrite H1 in Hb.
    split; [|split].
    + rewrite Hb. get_set Hwf. sq.
    + rewrite Hb. get_set Hwf. destruct Hd; sq.
    + intros r c Hf Ht. rewrite Hb. get_set Hwf.
      assert (r <> fr \/ c <> fc)
        by (destruct (Z.eq_dec r fr), (Z.eq_dec c fc); subst; auto;
            now contradiction Hf).
      assert (r <> tr \/ c <> tc)
        by (destruct (Z.eq_dec r tr), (Z.eq_dec c tc); subst; auto;
            now contradiction Ht).
      squares.
Qed.

(** The squares after an en-passant move. *)
Lemma en_passant_squares (s : ChessBoard) (move : Move)
        (pawn : Piece) :
  wf_board s ->
  get_piece s (fst (from_pos move)) (snd (from_pos move)) = Some pawn ->
  is_castling move = false ->
  is_en_passant move = true ->
  is_valid_position (fst (to_pos move)) (snd (to_pos move)) = true ->
  fst (to_pos move) <> fst (from_pos move) ->
  let s' := snd (make_move s move false) in
  get_piece s' (fst (to_pos move)) (snd (to_pos move))
  = Some (set_has_moved pawn) /\
  get_piece s' (fst (from_pos move)) (snd (from_pos move)) = None /\
  get_piece s' (fst (from_pos move)) (snd (to_pos move)) = None /\
  (forall r c, (r, c) <> from_pos move -> (r, c) <> to_pos move ->
               (r, c) <> (fst (from_pos move), snd (to_pos move)) ->
               get_piece s' r c = get_piece s r c).
Proof.
  intros Hwf Hp Hc He Hv Hne s'.
  unfold s', make_move. cbn [andb].
  pose proof (make_move_unchecked_squares s move pawn _ Hp eq_refl) as Hb.
  rewrite Hc, He in Hb. unfold handle_en_passant in Hb.
  pose proof (get_piece_valid _ _ _ _ Hp) as Hvf.
  destruct (from_pos move) as [fr fc], (to_pos move) as [tr tc].
  cbn [fst snd] in *. apply valid_bounds in Hv, Hvf.
  assert (H1 : get_piece
                 (set_piece
                    (set_piece (set_piece s tr tc (get_piece s fr fc))
                               fr fc None) fr tc None) tr tc
               = Some pawn).
  { get_set Hwf. sq. }
  rewrite H1 in Hb.
  split; [|split; [|split]].
  - rewrite Hb. get_set Hwf. sq.
  - rewrite Hb. get_set Hwf. sq.
  - rewrite Hb. get_set Hwf. sq.
  - intros r c Hf Ht Hx. rewrite Hb. get_set Hwf.
    assert (r <> fr \/ c <> fc)
      by (destruct (Z.eq_dec r fr), (Z.eq_dec c fc); subst; auto;
          now contradiction Hf).
    assert (r <> tr \/ c <> tc)
      by (destruct (Z.eq_dec r tr), (Z.eq_dec c tc); subst; auto;
          now contradiction Ht).
    assert (r <> fr \/ c <> tc)
      by (destruct (Z.eq_dec r fr), (Z.eq_dec c tc); subst; auto;
          now contradiction Hx).
    squares.
Qed.

Lemma Move_eqb_refl (m : Move) : Move_eqb m m = true.
Proof.
  unfold Move_eqb, Pos_eqb. rewrite !Z.eqb_refl. simpl.
  destruct (promotion m) as [[]|]; reflexivity.
Qed.

Lemma move_in_In (m : Move) (l : list Move) : In m l -> move_in m l = true.
Proof.
  intros H. unfold move_in. apply existsb_exists.
  exists m. split; [assumption|apply Move_eqb_refl].
Qed.

(** Candidates of a piece other than a pawn are never en-passant moves,
    and only the king has castling candidates. *)
Lemma non_pawn_flags (s : ChessBoard) (row col : Z) (piece : Piece)
      (m : Move) :
  In m (generate_piece_moves s row col piece) ->
  piece_type piece <> PAWN ->
  is_en_passant m = false /\
  (is_castling m = true ->
   piece_type piece = KING /\
   In m (generate_king_moves s row col (piece_color piece))).
Proof.
  intros H Hnp. unfold generate_piece_moves in H.
  destruct (piece_type piece) eqn:Ht; [congruence| | | | |].
  - unfold generate_rook_moves in H. cbn [flat_map] in H.
    in_cases; ray_cases; subst m; (split; [reflexivity|discriminate]).
  - unfold generate_knight_moves in H. cbn [flat_map] in H.
    in_cases; subst m; (split; [reflexivity|discriminate]).
  - unfold generate_bishop_moves in H. cbn [flat_map] in H.
    in_cases; ray_cases; subst m; (split; [reflexivity|discriminate]).
  - unfold generate_queen_moves, generate_rook_moves,
      generate_bishop_moves in H. cbn [flat_map] in H.
    in_cases; ray_cases; subst m; (split; [reflexivity|discriminate]).
  - split; [|intros _; split; [reflexivity|exact H]].
    unfold generate_king_moves in H. cbn [flat_map] in H.
    cbn [Z.eqb andb] in H. in_cases; subst m; reflexivity.
Qed.

Lemma legal_move_origin (s : ChessBoard) (color : Color) (m : Move) :
  In m (generate_legal_moves s color) ->
  exists row col piece,
    get_piece s row col = Some piece /\ piece_color piece = color /\
    In m (generate_piece_moves s row col piece) /\
    is_legal_move s m = true.
Proof.
  unfold generate_legal_moves. rewrite in_flat_map.
  intros [[[row col] piece] [Hp Hm]].
  apply filter_In in Hm. destruct Hm as [Hm Hl].
  apply get_all_pieces_occupied in Hp. destruct Hp as [Hp Hcol].
  exists row, col, piece. auto.
Qed.

(** A legal move on an 8x8 grid: the clock after it, and the gate. *)
Lemma legal_move_clock (s : ChessBoard) (color : Color)
        (m : Move) :
  wf_board s ->
  In m (generate_legal_moves s color) ->
  fst (make_move s m false) = true /\
  halfmove_clock (snd (make_move s m false)) = 0 /\
  (color = current_player s -> make_move s m true = make_move s m false).
Proof.
  intros Hwf Hin.
  pose proof (move_in_In _ _ Hin) as Hgate.
  destruct (legal_move_origin s color m Hin)
    as (row & col & piece & Hp & _ & Hm & _).
  destruct (piece_moves_on_board s row col piece m Hm)
    as (Hfrom & Hvalid & Hne).
  assert (Hp' : get_piece s (fst (from_pos m)) (snd (from_pos m))
                = Some piece) by (now rewrite Hfrom).
  assert (Hclock : fst (make_move s m false) = true /\
                   halfmove_clock (snd (make_move s m false)) = 0).
  { unfold make_move. cbn [andb].
    destruct (make_move_unchecked s m) as [ok s'] eqn:Hrun.
    destruct (make_move_unchecked_board s m piece Hp') as [Hok _].
    rewrite Hrun in Hok. cbn [fst] in Hok. subst ok.
    split; [reflexivity|]. cbn [snd].
    destruct (make_move_unchecked_success s s' m Hrun)
      as (piece' & Hq & _ & _ & _ & Hclock & _).
    rewrite Hp' in Hq. injection Hq as <-.
    rewrite Hclock.
    destruct (PieceType_eqb (piece_type piece) PAWN) eqn:Hpawn;
      [reflexivity|].
    assert (Hnp : piece_type piece <> PAWN).
    { intros E. rewrite E in Hpawn. discriminate. }
    destruct (non_pawn_flags s row col piece m Hm Hnp) as [Hep Hcastle].
    replace s' with (snd (make_move s m false))
      by (unfold make_move; cbn [andb]; now rewrite Hrun).
    destruct (is_castling m) eqn:Hc.
    - destruct (Hcastle eq_refl) as [Hking Hkm].
      destruct (castling_squares s row col piece m Hwf Hp
                  Hking Hkm Hc)
        as (kt & rf & rt & rook & _ & Hto & _ & _ & _ & Hk & _).
      rewrite Hto. cbn [fst snd]. rewrite Hk. reflexivity.
    - destruct (regular_move_squares s m piece Hwf Hp' Hc Hep Hvalid Hne)
        as [Hto _].
      rewrite Hto. reflexivity. }
  destruct Hclock as [Hok Hzero].
  split; [exact Hok|]. split; [exact Hzero|].
  intros ->. unfold make_move. rewrite Hgate. reflexivity.
Qed.

(** X4.  On an 8x8 grid every move [generate_legal_moves] returns is
    applied successfully and leaves [halfmove_clock] at 0, whatever the
    piece and whether or not it captures: the capture test of [make_move]
    finds the mover itself on the destination.  So the position after a
    legal move is never reported as a draw by the 50-move rule. *)
Theorem legal_move_resets_clock (s : ChessBoard) (color : Color)
        (m : Move) :
  wf_board s ->
  In m (generate_legal_moves s color) ->
  fst (make_move s m false) = true /\
  halfmove_clock (snd (make_move s m false)) = 0 /\
  is_game_over (snd (make_move s m false))
  <> (true, Some "Draw by 50-move rule!"%string) /\
  (color = current_player s -> make_move s m true = make_move s m false).
Proof.
  intros Hwf Hin.
  destruct (legal_move_clock s color m Hwf Hin) as (Hok & Hzero & Hgate).
  split; [exact Hok|]. split; [exact Hzero|]. split; [|exact Hgate].
  unfold is_game_over. rewrite Hzero. cbn [Z.geb Z.compare].
  destruct (is_checkmate _ _); [|destruct (is_stalemate _ _)];
    discriminate.
Qed.

Lemma legal_move_resets_clock_witness :
  let s := with_halfmove_clock ChessBoard_init 99 in
  let m := plain_move (7, 6) (5, 5) in
  fst (make_move s m false) = true /\
  halfmove_clock (snd (make_move s m false)) = 0 /\
  is_game_over (snd (make_move s m false))
  <> (true, Some "Draw by 50-move rule!"%string) /\
  make_move s m true = make_move s m false.
Proof.
  intros s m.
  assert (Hwf : wf_board s) by exact ChessBoard_init_wf.
  assert (Hin : In m (generate_legal_moves s WHITE))
    by (vm_compute; tauto).
  destruct (legal_move_resets_clock s WHITE m Hwf Hin)
    as (H1 & H2 & H3 & H4).
  repeat split; auto.
Defined.

Lemma pawn_flags (s : ChessBoard) (row col : Z) (color : Color)
      (m : Move) :
  In m (generate_pawn_moves s row col color) ->
  is_castling m = false /\ fst (to_pos m) <> row.
Proof.
  unfold generate_pawn_moves. cbn [flat_map]. intros H.
  destruct color; in_cases; subst m;
    cbn [is_castling to_pos plain_move promotion_move en_passant_move fst];
    (split; [reflexivity|lia]).
Qed.

Lemma special_move_pieces (s : ChessBoard) (row col : Z) (piece : Piece)
      (m : Move) :
  In m (generate_piece_moves s row col piece) ->
  (is_castling m = true ->
   piece_type piece = KING /\ is_en_passant m = false /\
   In m (generate_king_moves s row col (piece_color piece))) /\
  (is_en_passant m = true ->
   piece_type piece = PAWN /\ is_castling m = false /\
   fst (to_pos m) <> row).
Proof.
  intros H.
  destruct (PieceType_eqb (piece_type piece) PAWN) eqn:Hpawn.
  - apply PieceType_eqb_eq in Hpawn.
    assert (Hm : In m (generate_pawn_moves s row col (piece_color piece))).
    { unfold generate_piece_moves in H. now rewrite Hpawn in H. }
    destruct (pawn_flags _ _ _ _ _ Hm) as [Hc Hrow].
    split; [congruence|auto].
  - assert (Hnp : piece_type piece <> PAWN).
    { intros E. rewrite E in Hpawn. discriminate. }
    destruct (non_pawn_flags s row col piece m H Hnp) as [Hep Hc].
    split; [|congruence].
    intros Hcm. destruct (Hc Hcm). auto.
Qed.

(** ** The end of the game *)

(** X5.  [is_game_over] reports that the game goes on exactly when the
    side to move has a legal move and [halfmove_clock] is below 100;
    it gives a message exactly when it reports the end, and checkmate
    and stalemate never hold together. *)
Theorem is_game_over_cases (s : ChessBoard) :
  (is_game_over s = (false, None) <->
   generate_legal_moves s (current_player s) <> [] /\
   halfmove_clock s < 100) /\
  (fst (is_game_over s) = true <-> snd (is_game_over s) <> None) /\
  (is_checkmate s (current_player s) &&
   is_stalemate s (current_player s) = false).
Proof.
  unfold is_game_over, is_checkmate, is_stalemate.
  destruct (generate_legal_moves s (current_player s)) as [|m rest];
    cbn [List.length Nat.eqb];
    destruct (is_in_check s (current_player s)); cbn [negb andb];
    try destruct (Z.geb_spec (halfmove_clock s) 100); cbn [fst snd];
    repeat split; try discriminate; try congruence; try lia;
    try (intros []; congruence); intros; try discriminate; try lia.
Qed.

Lemma get_all_pieces_complete (s : ChessBoard) (color : Color)
      (row col : Z) (piece : Piece) :
  In row range8 -> In col range8 ->
  grid_at (board s) row col = Some piece ->
  piece_color piece = color ->
  In (row, col, piece) (get_all_pieces s color).
Proof.
  intros Hr Hc Hg Hcol. unfold get_all_pieces.
  apply in_flat_map. exists row. split; [assumption|].
  apply in_flat_map. exists col. split; [assumption|].
  rewrite Hg. rewrite (proj2 (Color_eqb_eq _ _) Hcol). now left.
Qed.

(** X6.  A side that has no piece on the board has no king to check and
    no move to make: when it is to move, [is_game_over] reports a
    stalemate. *)
Theorem no_pieces_is_stalemate (s : ChessBoard) :
  get_all_pieces s (current_player s) = [] ->
  is_in_check s (current_player s) = false /\
  generate_legal_moves s (current_player s) = [] /\
  is_game_over s = (true, Some "Stalemate! It's a draw!"%string).
Proof.
  intros Hnone.
  assert (Hking : find_king s (current_player s) = None).
  { unfold find_king.
    destruct (find _ _) as [[r c]|] eqn:Hf; [|reflexivity].
    apply find_some in Hf. destruct Hf as [Hin Hk]. cbn [fst snd] in Hk.
    apply in_flat_map in Hin. destruct Hin as [r' [Hr' Hin]].
    apply in_map_iff in Hin. destruct Hin as [c' [[= <- <-] Hc']].
    destruct (grid_at (board s) r' c') as [p|] eqn:Hg; [|discriminate].
    apply andb_true_iff in Hk. destruct Hk as [_ Hk].
    apply Color_eqb_eq in Hk.
    pose proof (get_all_pieces_complete s _ r' c' p Hr' Hc' Hg Hk) as H.
    rewrite Hnone in H. contradiction. }
  assert (Hcheck : is_in_check s (current_player s) = false).
  { unfold is_in_check. now rewrite Hking. }
  assert (Hmoves : generate_legal_moves s (current_player s) = []).
  { unfold generate_legal_moves. now rewrite Hnone. }
  repeat split; try assumption.
  unfold is_game_over, is_checkmate, is_stalemate.
  rewrite Hcheck, Hmoves. reflexivity.
Qed.

Lemma no_pieces_is_stalemate_witness :
  is_in_check blank WHITE = false /\
  generate_legal_moves blank WHITE = [] /\
  is_game_over blank = (true, Some "Stalemate! It's a draw!"%string).
Proof.
  apply (no_pieces_is_stalemate blank). reflexivity.
Defined.

(** ** Ordering, evaluation and search *)

Lemma insert_desc_sorted (km : Z * Move) (l : list (Z * Move)) :
  StronglySorted (fun a b => fst a >= fst b) l ->
  StronglySorted (fun a b => fst a >= fst b) (insert_desc km l).
Proof.
  induction 1 as [|y t Hs IH Hy]; simpl.
  - repeat constructor.
  - destruct (Z.gtb_spec (fst y) (fst km)) as [Hgt|Hle].
    + constructor; [exact IH|].
      eapply Permutation_Forall;
        [symmetry; apply insert_desc_perm|].
      constructor; [lia|exact Hy].
    + constructor; [now constructor|].
      constructor; [lia|].
      eapply Forall_impl; [|exact Hy]. simpl. intros a Ha. lia.
Qed.

Lemma sorted_pairs (l : list (Z * Move)) :
  StronglySorted (fun a b => fst a >= fst b)
                 (fold_right insert_desc [] l) /\
  Permutation (fold_right insert_desc [] l) l.
Proof.
  induction l as [|km l [IH1 IH2]]; simpl.
  - split; constructor.
  - split; [now apply insert_desc_sorted|].
    rewrite insert_desc_perm. now constructor.
Qed.

Lemma sorted_map_snd (f : Move -> Z) (l : list (Z * Move)) :
  Forall (fun p => fst p = f (snd p)) l ->
  StronglySorted (fun a b => fst a >= fst b) l ->
  StronglySorted (fun a b => f a >= f b) (map snd l).
Proof.
  intros Hkeys Hs. induction Hs as [|y t Hs IH Hy]; simpl.
  - constructor.
  - inversion Hkeys as [|? ? Hk Hks]; subst.
    constructor; [now apply IH|].
    apply Forall_map. rewrite Forall_forall in *.
    intros p Hp. rewrite <- Hk, <- (Hks p Hp). now apply Hy.
Qed.

Lemma combine_keys (f : Move -> Z) (l : list Move) :
  Forall (fun p => fst p = f (snd p)) (combine (map f l) l).
Proof. induction l; simpl; constructor; auto. Qed.

Lemma insert_desc_filter (k : Z) (km : Z * Move) (l : list (Z * Move)) :
  filter (fun p => fst p =? k) (insert_desc km l)
  = filter (fun p => fst p =? k) (km :: l).
Proof.
  induction l as [|y t IH]; [reflexivity|].
  cbn [insert_desc].
  destruct (Z.gtb_spec (fst y) (fst km)) as [Hgt|Hle]; [|reflexivity].
  cbn [filter] in *. rewrite IH.
  destruct (Z.eqb_spec (fst y) k), (Z.eqb_spec (fst km) k);
    try reflexivity; lia.
Qed.

Lemma sorted_pairs_filter (k : Z) (l : list (Z * Move)) :
  filter (fun p => fst p =? k) (fold_right insert_desc [] l)
  = filter (fun p => fst p =? k) l.
Proof.
  induction l as [|km l IH]; [reflexivity|].
  cbn [fold_right]. rewrite insert_desc_filter.
  cbn [filter]. now rewrite IH.
Qed.

Lemma filter_map_snd (f : Move -> Z) (k : Z) (l : list (Z * Move)) :
  Forall (fun p => fst p = f (snd p)) l ->
  filter (fun m => f m =? k) (map snd l)
  = map snd (filter (fun p => fst p =? k) l).
Proof.
  induction 1 as [|p l Hp _ IH]; [reflexivity|].
  cbn [map filter]. rewrite <- Hp, IH.
  destruct (fst p =? k); reflexivity.
Qed.

Lemma map_snd_combine (f : Move -> Z) (l : list Move) :
  map snd (combine (map f l) l) = l.
Proof. induction l; simpl; congruence. Qed.

(** [sorted] is stable: the moves of any one priority come out in the
    order they went in. *)
Lemma order_moves_stable (self : ChessBot) (board : ChessBoard)
      (moves : list Move) (k : Z) :
  filter (fun m => move_priority self board m =? k)
         (order_moves self board moves)
  = filter (fun m => move_priority self board m =? k) moves.
Proof.
  unfold order_moves, sorted_desc.
  set (f := move_priority self board).
  destruct (sorted_pairs (combine (map f moves) moves)) as [_ Hp].
  rewrite (filter_map_snd f k)
    by (eapply Permutation_Forall;
        [symmetry; exact Hp|apply combine_keys]).
  rewrite sorted_pairs_filter.
  rewrite <- (filter_map_snd f k) by apply combine_keys.
  now rewrite map_snd_combine.
Qed.

(** X7.  [order_moves] returns the moves it was given, each as often as
    it came, in an order in which the priority never increases, and moves
    of one and the same priority keep the order they came in. *)
Theorem order_moves_sorted (self : ChessBot) (board : ChessBoard)
        (moves : list Move) :
  Permutation (order_moves self board moves) moves /\
  StronglySorted (fun a b => move_priority self board a
                             >= move_priority self board b)
                 (order_moves self board moves) /\
  (forall k,
     filter (fun m => move_priority self board m =? k)
            (order_moves self board moves)
     = filter (fun m => move_priority self board m =? k) moves).
Proof.
  split; [apply order_moves_perm|]. split; [|apply order_moves_stable].
  unfold order_moves, sorted_desc.
  destruct (sorted_pairs (combine (map (move_priority self board) moves)
                                  moves)) as [Hs Hp].
  apply sorted_map_snd; [|exact Hs].
  eapply Permutation_Forall; [symmetry; exact Hp|].
  apply combine_keys.
Qed.

Section LoopsFinite.

Variable child : ChessBoard -> Score -> Score -> Score.
Variable board : ChessBoard.

Hypothesis child_fin : forall b alpha beta, exists z, child b alpha beta = Fin z.

Lemma max_loop_fin (moves : list Move) :
  forall M alpha beta,
    (M = NegInf /\ moves <> []) \/ (exists z, M = Fin z) ->
    exists z, max_loop child board moves M alpha beta = Fin z.
Proof.
  induction moves as [|m rest IH]; intros M alpha beta HM; simpl.
  - destruct HM as [[_ H]|H]; [congruence|exact H].
  - destruct (child_fin (snd (make_move_unchecked board m)) alpha beta)
      as [e He].
    rewrite He.
    assert (Hmax : exists z, Score_max M (Fin e) = Fin z).
    { rewrite Score_max_Smax.
      destruct HM as [[-> _]|[z ->]]; simpl; eauto. }
    destruct (Score_leb beta _); [exact Hmax|].
    apply IH. now right.
Qed.

Lemma min_loop_fin (moves : list Move) :
  forall M alpha beta,
    (M = PosInf /\ moves <> []) \/ (exists z, M = Fin z) ->
    exists z, min_loop child board moves M alpha beta = Fin z.
Proof.
  induction moves as [|m rest IH]; intros M alpha beta HM; simpl.
  - destruct HM as [[_ H]|H]; [congruence|exact H].
  - destruct (child_fin (snd (make_move_unchecked board m)) alpha beta)
      as [e He].
    rewrite He.
    assert (Hmin : exists z, Score_min M (Fin e) = Fin z).
    { rewrite Score_min_Smin.
      destruct HM as [[-> _]|[z ->]]; simpl; eauto. }
    destruct (Score_leb _ alpha); [exact Hmin|].
    apply IH. now right.
Qed.

End LoopsFinite.

Lemma order_moves_nonempty (self : ChessBot) (board : ChessBoard)
      (m : Move) (rest : list Move) :
  order_moves self board (m :: rest) <> [].
Proof.
  intros E. pose proof (order_moves_perm self board (m :: rest)) as H.
  rewrite E in H. now apply Permutation_nil in H.
Qed.

(** X8.  [minimax] returns an integer score at every node, for every
    depth and every pair of bounds it is called with: the infinities
    that initialise the loops never come back. *)
Theorem minimax_finite (self : ChessBot) (depth : nat) :
  forall board alpha beta maximizing,
    exists z, minimax self depth board alpha beta maximizing = Fin z.
Proof.
  induction depth as [|depth IH]; intros board alpha beta maximizing;
    simpl.
  - destruct (terminal_score self board 0) eqn:Ht;
      [now apply terminal_score_fin in Ht|eauto].
  - destruct (terminal_score self board (S depth)) eqn:Ht;
      [now apply terminal_score_fin in Ht|].
    destruct (generate_legal_moves board (current_player board))
      as [|m0 rest]; [eauto|].
    destruct maximizing.
    + apply max_loop_fin; [intros; apply IH|].
      left. split; [reflexivity|apply order_moves_nonempty].
    + apply min_loop_fin; [intros; apply IH|].
      left. split; [reflexivity|apply order_moves_nonempty].
Qed.

(** X9.  At every node, for every depth and every window
    [alpha < beta], the value [minimax] returns and the value of
    exhaustive search are on the same side of the window, and equal when
    the exhaustive value lies strictly inside; with the full window
    [minimax] is exhaustive search. *)
Theorem minimax_window (self : ChessBot) (depth : nat)
        (board : ChessBoard) (alpha beta : Score) (maximizing : bool) :
  Score_ltb alpha beta = true ->
  let v := minimax_exhaustive self depth board maximizing in
  let r := minimax self depth board alpha beta maximizing in
  (Score_leb v alpha = true -> Score_leb r alpha = true) /\
  (Score_leb beta v = true -> Score_leb beta r = true) /\
  (Score_ltb alpha v = true -> Score_ltb v beta = true -> r = v) /\
  minimax self depth board NegInf PosInf maximizing = v.
Proof.
  intros Hw v r.
  destruct (minimax_ab_ok self depth board alpha beta maximizing Hw)
    as (H1 & H2 & H3).
  repeat split; auto.
  destruct (minimax_ab_ok self depth board NegInf PosInf maximizing
                          eq_refl) as (_ & _ & Hfull).
  destruct (minimax_exhaustive_fin self depth board maximizing) as [z Hz].
  fold v in Hz, Hfull. rewrite Hz in *. apply Hfull; reflexivity.
Qed.

Lemma minimax_window_witness :
  let self := ChessBot_init WHITE 2 in
  let v := minimax_exhaustive self 1 ChessBoard_init true in
  let r := minimax self 1 ChessBoard_init (Fin 0) (Fin 100) true in
  v = Fin 160 /\ Score_leb (Fin 100) r = true /\
  minimax self 1 ChessBoard_init NegInf PosInf true = v.
Proof.
  intros self v r.
  destruct (minimax_window self 1 ChessBoard_init (Fin 0) (Fin 100) true
                           eq_refl) as (_ & H2 & _ & H4).
  assert (Hv : v = Fin 160) by (vm_compute; reflexivity).
  split; [exact Hv|]. split; [|exact H4].
  apply H2. fold v. rewrite Hv. reflexivity.
Defined.

(** X10.  On every square of the board every piece is worth between 80
    and 20030 points, positional bonus included: its value never turns
    against its owner. *)
Theorem get_piece_value_bounds (piece : Piece) (row col : Z) :
  is_valid_position row col = true ->
  80 <= get_piece_value piece row col <= 20030.
Proof.
  intros Hv. apply valid_bounds in Hv.
  assert (Hr : In row range8) by (unfold range8; simpl; lia).
  assert (Hc : In col range8) by (unfold range8; simpl; lia).
  assert (Hall :
    forallb (fun t => forallb (fun c => forallb (fun r => forallb (fun k =>
      let v := get_piece_value (mkPiece t c false) r k in
      (80 <=? v) && (v <=? 20030)) range8) range8) [WHITE; BLACK])
      [PAWN; ROOK; KNIGHT; BISHOP; QUEEN; KING] = true)
    by (vm_compute; reflexivity).
  rewrite forallb_forall in Hall.
  assert (Ht : In (piece_type piece)
                  [PAWN; ROOK; KNIGHT; BISHOP; QUEEN; KING])
    by (destruct (piece_type piece); simpl; tauto).
  specialize (Hall _ Ht). rewrite forallb_forall in Hall.
  assert (Hcol : In (piece_color piece) [WHITE; BLACK])
    by (destruct (piece_color piece); simpl; tauto).
  specialize (Hall _ Hcol). rewrite forallb_forall in Hall.
  specialize (Hall _ Hr). rewrite forallb_forall in Hall.
  specialize (Hall _ Hc). cbv zeta in Hall.
  apply andb_true_iff in Hall. rewrite !Z.leb_le in Hall.
  exact Hall.
Qed.

Lemma get_piece_value_bounds_witness :
  80 <= get_piece_value (Piece_init PAWN WHITE) 6 3 <= 20030.
Proof. apply get_piece_value_bounds. reflexivity. Defined.

(** X11.  The material part of the evaluation is zero-sum: what a white
    bot counts on a position is the negative of what a black bot
    counts. *)
Theorem material_score_zero_sum (d d' : Z) (board : ChessBoard) :
  material_score (mkBot WHITE d) board
  = - material_score (mkBot BLACK d') board.
Proof.
  unfold material_score.
  assert (H : forall l a b, a = - b ->
    fold_left (fun score '(row, col) =>
                 match get_piece board row col with
                 | Some piece =>
                     let piece_value := get_piece_value piece row col in
                     if Color_eqb (piece_color piece)
                                  (bot_color (mkBot WHITE d))
                     then score + piece_value else score - piece_value
                 | None => score
                 end) l a
    = - fold_left (fun score '(row, col) =>
                 match get_piece board row col with
                 | Some piece =>
                     let piece_value := get_piece_value piece row col in
                     if Color_eqb (piece_color piece)
                                  (bot_color (mkBot BLACK d'))
                     then score + piece_value else score - piece_value
                 | None => score
                 end) l b).
  { induction l as [|[r c] l IH]; intros a b Hab; simpl; [exact Hab|].
    apply IH. destruct (get_piece board r c) as [p|]; [|exact Hab].
    destruct (piece_color p); simpl; lia. }
  apply H. reflexivity.
Qed.

(** ** Move notation *)

Lemma promotion_eqb_eq (a b : option PieceType) :
  promotion_eqb a b = true <-> a = b.
Proof.
  destruct a as [[]|], b as [[]|]; simpl; split; congruence.
Qed.

Lemma promotion_map_kinds (c : ascii) (kind : PieceType) :
  promotion_map c = Some kind -> In kind promotion_pieces.
Proof.
  unfold promotion_map, promotion_pieces.
  repeat (destruct (Ascii.eqb c _); [intros [= <-]; simpl; tauto|]).
  discriminate.
Qed.

Lemma parse_squares_sound (c0 c1 c2 c3 : ascii) (pc : option ascii)
      (from to : Pos) (promo : option PieceType) :
  parse_squares c0 c1 c2 c3 pc = Some (from, to, promo) ->
  is_valid_position (fst from) (snd from) = true /\
  is_valid_position (fst to) (snd to) = true /\
  (pc = None -> promo = None) /\
  (forall c, pc = Some c -> 
             exists kind, promo = Some kind /\ In kind promotion_pieces).
Proof.
  unfold parse_squares.
  destruct (int_of_char c1) as [d1|]; [|discriminate].
  destruct (int_of_char c3) as [d3|]; [|discriminate].
  destruct (is_valid_position (8 - d1) (ord c0 - ord "a")) eqn:V1;
    [|discriminate].
  destruct (is_valid_position (8 - d3) (ord c2 - ord "a")) eqn:V2;
    [|discriminate].
  cbn [andb negb].
  destruct pc as [c|].
  - destruct (promotion_map c) as [kind|] eqn:Hk; [|discriminate].
    intros [= <- <- <-]. cbn [fst snd].
    repeat split; auto; try discriminate.
    intros c' [= <-]. exists kind. split; [reflexivity|].
    eapply promotion_map_kinds; eauto.
  - intros [= <- <- <-]. cbn [fst snd].
    repeat split; auto. discriminate.
Qed.

(** X12.  Whatever the text, a result of [parse_move_input] names two
    squares of the board and either no promotion or one of queen, rook,
    bishop and knight. *)
Theorem parse_move_input_sound (move_str : string) (from to : Pos)
        (promo : option PieceType) :
  parse_move_input move_str = Some (from, to, promo) ->
  is_valid_position (fst from) (snd from) = true /\
  is_valid_position (fst to) (snd to) = true /\
  (promo = None \/
   exists kind, promo = Some kind /\ In kind promotion_pieces).
Proof.
  unfold parse_move_input.
  destruct (lower (strip move_str)) as [|c0 [|c1 [|c2 [|c3 [|c4 [|? ?]]]]]];
    try discriminate; intros H;
    destruct (parse_squares_sound _ _ _ _ _ _ _ _ H) as (H1 & H2 & H3 & H4);
    repeat split; auto.
  right. now apply (H4 c4).
Qed.

Lemma parse_move_input_sound_witness :
  is_valid_position 1 4 = true /\ is_valid_position 0 4 = true /\
  (Some QUEEN = None \/
   exists kind, Some QUEEN = Some kind /\ In kind promotion_pieces).
Proof.
  apply (parse_move_input_sound " E7e8Q " (1, 4) (0, 4) (Some QUEEN)).
  vm_compute. reflexivity.
Defined.

Lemma file_char (col : Z) :
  0 <= col < 8 ->
  exists c, chr (ord "a" + col) = Some c /\
            ord c - ord "a" = col /\
            is_space c = false /\ lower_char c = c.
Proof.
  intros H. exists (ascii_of_N (Z.to_N (ord "a" + col))).
  assert (Hc : col = 0 \/ col = 1 \/ col = 2 \/ col = 3 \/
               col = 4 \/ col = 5 \/ col = 6 \/ col = 7) by lia.
  repeat (destruct Hc as [-> | Hc]; [vm_compute; auto|]).
  subst. vm_compute; auto.
Qed.

Lemma rank_char (row : Z) :
  0 <= row < 8 ->
  exists d, str_of_int (8 - row) = String d EmptyString /\
            int_of_char d = Some (8 - row) /\
            is_space d = false /\ lower_char d = d.
Proof.
  intros H. exists (ascii_of_N (Z.to_N (ord "0" + (8 - row)))).
  assert (Hc : row = 0 \/ row = 1 \/ row = 2 \/ row = 3 \/
               row = 4 \/ row = 5 \/ row = 6 \/ row = 7) by lia.
  repeat (destruct Hc as [-> | Hc]; [vm_compute; auto|]).
  subst. vm_compute; auto.
Qed.

(** X13.  For a move between squares of the board, the text [str(move)]
    reads back through [parse_move_input] as the move's origin and
    destination when the move has no promotion; with a promotion the
    text has six characters and [parse_move_input] rejects it. *)
Theorem Move_str_parse (m : Move) :
  is_valid_position (fst (from_pos m)) (snd (from_pos m)) = true ->
  is_valid_position (fst (to_pos m)) (snd (to_pos m)) = true ->
  exists text,
    Move_str m = Some text /\
    parse_move_input text
    = match promotion m with
      | None => Some (from_pos m, to_pos m, None)
      | Some _ => None
      end.
Proof.
  destruct m as [[fr fc] [tr tc] promo cas ep].
  cbn [from_pos to_pos promotion fst snd].
  intros Hf Ht. apply valid_bounds in Hf, Ht.
  destruct (file_char fc (proj2 Hf)) as (c0 & Ec0 & Oc0 & Sc0 & Lc0).
  destruct (file_char tc (proj2 Ht)) as (c2 & Ec2 & Oc2 & Sc2 & Lc2).
  destruct (rank_char fr (proj1 Hf)) as (c1 & Ec1 & Ic1 & Sc1 & Lc1).
  destruct (rank_char tr (proj1 Ht)) as (c3 & Ec3 & Ic3 & Sc3 & Lc3).
  unfold Move_str. cbn [from_pos to_pos promotion fst snd].
  rewrite Ec0, Ec2, Ec1, Ec3.
  eexists. split; [reflexivity|].
  assert (Hv1 : is_valid_position fr fc = true)
    by (apply valid_bounds; lia).
  assert (Hv2 : is_valid_position tr tc = true)
    by (apply valid_bounds; lia).
  destruct promo as [kind|].
  - unfold parse_move_input, strip. cbn [append lstrip].
    rewrite Sc0. cbn [rstrip].
    assert (Hk : is_space (upper_letter (PieceType_value kind)) = false)
      by (destruct kind; reflexivity).
    rewrite Hk. cbn [lower]. reflexivity.
  - unfold parse_move_input, strip. cbn [append lstrip].
    rewrite Sc0. cbn [rstrip]. rewrite Sc3. cbn [lower].
    rewrite Lc0, Lc1, Lc2, Lc3.
    unfold parse_squares. rewrite Ic1, Ic3, Oc0, Oc2.
    replace (8 - (8 - fr)) with fr by lia.
    replace (8 - (8 - tr)) with tr by lia.
    rewrite Hv1, Hv2. reflexivity.
Qed.

Lemma Move_str_parse_witness :
  (exists text,
     Move_str (plain_move (6, 4) (4, 4)) = Some text /\
     parse_move_input text = Some ((6, 4), (4, 4), None)) /\
  (exists text,
     Move_str (promotion_move (1, 4) (0, 4) QUEEN) = Some text /\
     parse_move_input text = None).
Proof.
  split.
  - apply (Move_str_parse (plain_move (6, 4) (4, 4))); reflexivity.
  - apply (Move_str_parse (promotion_move (1, 4) (0, 4) QUEEN));
      reflexivity.
Defined.

(** ** Legal moves and what applying them does *)

Lemma wf_play (s : ChessBoard) (moves : list Move) :
  wf_board s -> wf_board (play s moves).
Proof.
  revert s. induction moves as [|m rest IH]; intros s H; simpl;
    [exact H|]. apply IH.
  unfold make_move. destruct (true && _); [exact H|].
  now apply make_move_unchecked_wf.
Qed.

Lemma castle_ready_wf : wf_board castle_ready.
Proof.
  unfold castle_ready. simpl. repeat apply set_piece_wf.
  exact ChessBoard_init_wf.
Qed.

Lemma en_passant_ready_wf : wf_board en_passant_ready.
Proof. apply wf_play. exact ChessBoard_init_wf. Qed.

(** X14.  [set_piece] keeps the grid at eight rows of eight squares; on
    such a grid a read after a write gives the piece written when it is
    the written square and that square is on the board, and the former
    contents otherwise, so a write outside the board changes nothing. *)
Theorem set_piece_get_piece (s : ChessBoard) (row col row' col' : Z)
        (p : option Piece) :
  wf_board s ->
  wf_board (set_piece s row col p) /\
  get_piece (set_piece s row col p) row' col'
  = (if is_valid_position row col && (row =? row') && (col =? col')
     then p else get_piece s row' col') /\
  (is_valid_position row col = false -> set_piece s row col p = s).
Proof.
  intros Hwf. split; [now apply set_piece_wf|].
  split; [now apply get_set_piece_eq|].
  intros Hv. unfold set_piece. now rewrite Hv.
Qed.

Lemma set_piece_get_piece_witness :
  wf_board (set_piece ChessBoard_init 4 4 None) /\
  get_piece (set_piece ChessBoard_init 4 4 (Some (Piece_init QUEEN BLACK)))
            4 4
  = Some (Piece_init QUEEN BLACK) /\
  get_piece (set_piece ChessBoard_init 4 4 None) 6 4
  = Some (Piece_init PAWN WHITE) /\
  set_piece ChessBoard_init 8 0 (Some (Piece_init KING WHITE))
  = ChessBoard_init.
Proof.
  destruct (set_piece_get_piece ChessBoard_init 4 4 6 4 None
              ChessBoard_init_wf) as (H1 & H2 & _).
  destruct (set_piece_get_piece ChessBoard_init 4 4 4 4
              (Some (Piece_init QUEEN BLACK)) ChessBoard_init_wf)
    as (_ & H3 & _).
  destruct (set_piece_get_piece ChessBoard_init 8 0 0 0
              (Some (Piece_init KING WHITE)) ChessBoard_init_wf)
    as (_ & _ & H4).
  split; [exact H1|]. split; [exact H3|]. split; [exact H2|].
  apply H4. reflexivity.
Defined.

(** X15.  Every move [generate_legal_moves] returns for a colour starts on
    a square holding a piece of that colour and ends on a different
    square of the board. *)
Theorem legal_moves_on_board (s : ChessBoard) (color : Color) (m : Move) :
  In m (generate_legal_moves s color) ->
  (exists piece,
     get_piece s (fst (from_pos m)) (snd (from_pos m)) = Some piece /\
     piece_color piece = color) /\
  is_valid_position (fst (to_pos m)) (snd (to_pos m)) = true /\
  to_pos m <> from_pos m.
Proof.
  intros Hin.
  destruct (legal_move_origin s color m Hin)
    as (row & col & piece & Hp & Hc & Hm & _).
  destruct (piece_moves_on_board s row col piece m Hm)
    as (Hfrom & Hv & Hne).
  split; [|auto]. exists piece. rewrite Hfrom. auto.
Qed.

Lemma legal_moves_on_board_witness :
  let m := castling_move (7, 4) (7, 6) in
  (exists piece,
     get_piece castle_ready (fst (from_pos m)) (snd (from_pos m))
     = Some piece /\ piece_color piece = WHITE) /\
  is_valid_position (fst (to_pos m)) (snd (to_pos m)) = true /\
  to_pos m <> from_pos m.
Proof.
  apply (legal_moves_on_board castle_ready WHITE).
  vm_compute. tauto.
Defined.

(** X16.  No move [generate_legal_moves] returns for a colour, other than
    an en-passant capture, lands on a piece of that colour: the
    destination is empty or holds an enemy piece. *)
Theorem legal_moves_no_own_capture (s : ChessBoard) (color : Color)
        (m : Move) :
  In m (generate_legal_moves s color) ->
  is_en_passant m = false ->
  match get_piece s (fst (to_pos m)) (snd (to_pos m)) with
  | Some target => piece_color target <> color
  | None => True
  end.
Proof.
  intros Hin Hep.
  destruct (legal_move_origin s color m Hin)
    as (row & col & piece & Hp & <- & Hm & _).
  now apply (piece_moves_no_own_capture s row col piece m).
Qed.

Lemma legal_moves_no_own_capture_witness :
  let m := plain_move (7, 1) (5, 2) in
  match get_piece ChessBoard_init (fst (to_pos m)) (snd (to_pos m)) with
  | Some target => piece_color target <> WHITE
  | None => True
  end.
Proof.
  intros m.
  apply (legal_moves_no_own_capture ChessBoard_init WHITE m).
  - vm_compute. tauto.
  - reflexivity.
Defined.

(** X17.  On an 8x8 grid a castling move returned by
    [generate_legal_moves], applied by [make_move], puts the king two
    squares aside with [has_moved] set and the rook on the square the
    king passed, and empties the two squares they came from; the rook's
    own [has_moved] flag stays unset. *)
Theorem legal_castling_moves_king_and_rook (s : ChessBoard)
        (color : Color) (m : Move) :
  wf_board s ->
  In m (generate_legal_moves s color) ->
  is_castling m = true ->
  let s' := snd (make_move s m false) in
  let row := fst (from_pos m) in
  exists king rook king_to rook_from rook_to,
    ((king_to = 6 /\ rook_from = 7 /\ rook_to = 5) \/
     (king_to = 2 /\ rook_from = 0 /\ rook_to = 3)) /\
    to_pos m = (row, king_to) /\
    get_piece s row (snd (from_pos m)) = Some king /\
    piece_type king = KING /\ piece_color king = color /\
    has_moved king = false /\
    get_piece s row rook_from = Some rook /\
    piece_type rook = ROOK /\ has_moved rook = false /\
    get_piece s' row king_to = Some (set_has_moved king) /\
    get_piece s' row rook_to = Some rook /\
    get_piece s' row rook_from = None /\
    get_piece s' row (snd (from_pos m)) = None.
Proof.
  intros Hwf Hin Hc s' row.
  destruct (legal_move_origin s color m Hin)
    as (r & col & king & Hp & Hcol & Hm & _).
  destruct (special_move_pieces s r col king m Hm) as [Hcastle _].
  destruct (Hcastle Hc) as (Hking & _ & Hkm).
  destruct (castling_candidates s r col king m Hp Hkm Hc) as (Hnm & _).
  destruct (castling_squares s r col king m Hwf Hp Hking Hkm Hc)
    as (kt & rf & rt & rook & Hk & Hto & H1 & H2 & H3 & H4 & H5 & H6 & H7).
  pose proof (generate_piece_moves_from _ _ _ _ _ Hm) as Hfrom.
  unfold row, s'. rewrite Hfrom. cbn [fst snd].
  exists king, rook, kt, rf, rt. repeat split; auto.
Qed.

Lemma legal_castling_moves_king_and_rook_witness :
  let m := castling_move (7, 4) (7, 6) in
  let s' := snd (make_move castle_ready m false) in
  exists king rook king_to rook_from rook_to,
    ((king_to = 6 /\ rook_from = 7 /\ rook_to = 5) \/
     (king_to = 2 /\ rook_from = 0 /\ rook_to = 3)) /\
    to_pos m = (7, king_to) /\
    get_piece castle_ready 7 4 = Some king /\
    piece_type king = KING /\ piece_color king = WHITE /\
    has_moved king = false /\
    get_piece castle_ready 7 rook_from = Some rook /\
    piece_type rook = ROOK /\ has_moved rook = false /\
    get_piece s' 7 king_to = Some (set_has_moved king) /\
    get_piece s' 7 rook_to = Some rook /\
    get_piece s' 7 rook_from = None /\
    get_piece s' 7 4 = None.
Proof.
  apply (legal_castling_moves_king_and_rook castle_ready WHITE
           (castling_move (7, 4) (7, 6)) castle_ready_wf).
  - vm_compute. tauto.
  - reflexivity.
Defined.

(** X18.  On an 8x8 grid a move returned by [generate_legal_moves] that is
    neither castling nor en passant leaves the mover on the destination
    with [has_moved] set (as the promotion piece, in the mover's colour,
    if the move names one), empties the origin and changes no other
    square; whatever stood on the destination is gone. *)
Theorem legal_regular_move_relocates (s : ChessBoard) (color : Color)
        (m : Move) :
  wf_board s ->
  In m (generate_legal_moves s color) ->
  is_castling m = false ->
  is_en_passant m = false ->
  let s' := snd (make_move s m false) in
  exists piece,
    get_piece s (fst (from_pos m)) (snd (from_pos m)) = Some piece /\
    get_piece s' (fst (to_pos m)) (snd (to_pos m))
    = Some (mkPiece (match promotion m with
                     | Some kind => kind
                     | None => piece_type piece
                     end) color true) /\
    get_piece s' (fst (from_pos m)) (snd (from_pos m)) = None /\
    (forall r c, (r, c) <> from_pos m -> (r, c) <> to_pos m ->
                 get_piece s' r c = get_piece s r c).
Proof.
  intros Hwf Hin Hc Hep s'.
  destruct (legal_move_origin s color m Hin)
    as (row & col & piece & Hp & <- & Hm & _).
  destruct (piece_moves_on_board s row col piece m Hm)
    as (Hfrom & Hv & Hne).
  assert (Hp' : get_piece s (fst (from_pos m)) (snd (from_pos m))
                = Some piece) by (now rewrite Hfrom).
  exists piece. split; [exact Hp'|].
  now apply regular_move_squares.
Qed.

Lemma legal_regular_move_relocates_witness :
  let m := plain_move (6, 4) (4, 4) in
  let s' := snd (make_move ChessBoard_init m false) in
  exists piece,
    get_piece ChessBoard_init 6 4 = Some piece /\
    get_piece s' 4 4 = Some (mkPiece (piece_type piece) WHITE true) /\
    get_piece s' 6 4 = None /\
    (forall r c, (r, c) <> (6, 4) -> (r, c) <> (4, 4) ->
                 get_piece s' r c = get_piece ChessBoard_init r c).
Proof.
  apply (legal_regular_move_relocates ChessBoard_init WHITE
           (plain_move (6, 4) (4, 4)) ChessBoard_init_wf).
  - vm_compute. tauto.
  - reflexivity.
  - reflexivity.
Defined.

(** X19.  On an 8x8 grid an en-passant move returned by
    [generate_legal_moves] is a pawn's; applied, it puts the pawn on the
    destination with [has_moved] set, empties the origin and the square
    beside the origin in the destination column (the captured pawn's),
    and changes no other square. *)
Theorem legal_en_passant_removes_pawn (s : ChessBoard) (color : Color)
        (m : Move) :
  wf_board s ->
  In m (generate_legal_moves s color) ->
  is_en_passant m = true ->
  let s' := snd (make_move s m false) in
  exists pawn,
    get_piece s (fst (from_pos m)) (snd (from_pos m)) = Some pawn /\
    piece_type pawn = PAWN /\ piece_color pawn = color /\
    get_piece s' (fst (to_pos m)) (snd (to_pos m))
    = Some (set_has_moved pawn) /\
    get_piece s' (fst (from_pos m)) (snd (from_pos m)) = None /\
    get_piece s' (fst (from_pos m)) (snd (to_pos m)) = None /\
    (forall r c, (r, c) <> from_pos m -> (r, c) <> to_pos m ->
                 (r, c) <> (fst (from_pos m), snd (to_pos m)) ->
                 get_piece s' r c = get_piece s r c).
Proof.
  intros Hwf Hin Hep s'.
  destruct (legal_move_origin s color m Hin)
    as (row & col & pawn & Hp & Hcol & Hm & _).
  destruct (special_move_pieces s row col pawn m Hm) as [_ Hpawn].
  destruct (Hpawn Hep) as (Htype & Hc & Hrow).
  destruct (piece_moves_on_board s row col pawn m Hm)
    as (Hfrom & Hv & _).
  assert (Hp' : get_piece s (fst (from_pos m)) (snd (from_pos m))
                = Some pawn) by (now rewrite Hfrom).
  exists pawn. split; [exact Hp'|]. split; [exact Htype|].
  split; [exact Hcol|].
  apply en_passant_squares; try assumption.
  now rewrite Hfrom.
Qed.

Lemma legal_en_passant_removes_pawn_witness :
  let m := en_passant_move (3, 4) (2, 3) in
  let s' := snd (make_move en_passant_ready m false) in
  exists pawn,
    get_piece en_passant_ready 3 4 = Some pawn /\
    piece_type pawn = PAWN /\ piece_color pawn = WHITE /\
    get_piece s' 2 3 = Some (set_has_moved pawn) /\
    get_piece s' 3 4 = None /\
    get_piece s' 3 3 = None /\
    (forall r c, (r, c) <> (3, 4) -> (r, c) <> (2, 3) ->
                 (r, c) <> (3, 3) ->
                 get_piece s' r c = get_piece en_passant_ready r c).
Proof.
  apply (legal_en_passant_removes_pawn en_passant_ready WHITE
           (en_passant_move (3, 4) (2, 3)) en_passant_ready_wf).
  - vm_compute. tauto.
  - reflexivity.
Defined.

(** ** The path between two squares *)

Lemma step_towards_sgn (a b : Z) : step_towards a b = Z.sgn (b - a).
Proof.
  unfold step_towards.
  destruct (Z.eqb_spec a b); [subst; now rewrite Z.sub_diag|].
  destruct (Z.gtb_spec b a); [rewrite Z.sgn_pos|rewrite Z.sgn_neg]; lia.
Qed.

Lemma path_loop_spec (s : ChessBoard) (rs cs to_r to_c : Z) (fuel : nat) :
  rs <> 0 \/ cs <> 0 ->
  forall (k r c : Z),
    0 <= k <= Z.of_nat fuel ->
    to_r = r + k * rs -> to_c = c + k * cs ->
    (path_loop fuel s r c rs cs to_r to_c = true <->
     forall j, 0 <= j < k -> get_piece s (r + j * rs) (c + j * cs) = None).
Proof.
  intros Hstep. induction fuel as [|fuel IH]; intros k r c Hk Hr Hc.
  - assert (k = 0) by lia. subst k. simpl.
    replace (r =? to_r) with true by (symmetry; apply Z.eqb_eq; lia).
    replace (c =? to_c) with true by (symmetry; apply Z.eqb_eq; lia).
    simpl. split; [intros _ j Hj; lia|reflexivity].
  - cbn [path_loop].
    destruct (Z.eq_dec k 0) as [->|Hk0].
    + replace (r =? to_r) with true by (symmetry; apply Z.eqb_eq; lia).
      replace (c =? to_c) with true by (symmetry; apply Z.eqb_eq; lia).
      simpl. split; [intros _ j Hj; lia|reflexivity].
    + assert (Hat : (r =? to_r) && (c =? to_c) = false).
      { apply andb_false_iff.
        destruct Hstep as [Hs|Hs]; [left|right]; apply Z.eqb_neq; nia. }
      rewrite Hat.
      destruct (get_piece s r c) as [p|] eqn:Hg.
      * split; [discriminate|]. intros H.
        specialize (H 0 ltac:(lia)).
        rewrite !Z.mul_0_l, !Z.add_0_r in H. congruence.
      * rewrite (IH (k - 1)) by lia.
        split; intros H j Hj.
        -- destruct (Z.eq_dec j 0) as [->|Hj0].
           ++ now rewrite !Z.mul_0_l, !Z.add_0_r.
           ++ specialize (H (j - 1) ltac:(lia)).
              replace (r + rs + (j - 1) * rs) with (r + j * rs) in H by lia.
              now replace (c + cs + (j - 1) * cs) with (c + j * cs) in H
                by lia.
        -- specialize (H (j + 1) ltac:(lia)).
           replace (r + (j + 1) * rs) with (r + rs + j * rs) in H by lia.
           now replace (c + (j + 1) * cs) with (c + cs + j * cs) in H
             by lia.
Qed.

(** X20.  For two squares on a common row, column or diagonal,
    [is_path_clear] holds exactly when every square strictly between
    them is empty; the two end squares are not looked at. *)
Theorem is_path_clear_between (s : ChessBoard)
        (from_row from_col to_row to_col : Z) :
  from_row = to_row \/ from_col = to_col \/
  Z.abs (to_row - from_row) = Z.abs (to_col - from_col) ->
  (is_path_clear s from_row from_col to_row to_col = true <->
   forall j,
     0 < j < Z.max (Z.abs (to_row - from_row)) (Z.abs (to_col - from_col)) ->
     get_piece s (from_row + j * Z.sgn (to_row - from_row))
               (from_col + j * Z.sgn (to_col - from_col)) = None).
Proof.
  intros Hline. unfold is_path_clear. rewrite !step_towards_sgn.
  set (dr := to_row - from_row) in *. set (dc := to_col - from_col) in *.
  set (d := Z.max (Z.abs dr) (Z.abs dc)).
  assert (Hdr : to_row = from_row + dr) by (unfold dr; lia).
  assert (Hdc : to_col = from_col + dc) by (unfold dc; lia).
  assert (Hline' : dr = 0 \/ dc = 0 \/ Z.abs dr = Z.abs dc)
    by (unfold dr, dc; lia).
  clearbody dr dc. subst to_row to_col. clear Hline.
  destruct (Z.eq_dec d 0) as [Hd|Hd].
  - assert (dr = 0 /\ dc = 0) as [-> ->] by (unfold d in Hd; lia).
    rewrite Hd. simpl. rewrite !Z.add_0_r, !Z.eqb_refl. simpl.
    split; [intros _ j Hj; lia|reflexivity].
  - assert (Hsr : d * Z.sgn dr = dr /\ d * Z.sgn dc = dc).
    { unfold d.
      destruct (Z.sgn_spec dr) as [[? ->]|[[? ->]|[? ->]]];
        destruct (Z.sgn_spec dc) as [[? ->]|[[? ->]|[? ->]]]; lia. }
    assert (Hnz : Z.sgn dr <> 0 \/ Z.sgn dc <> 0).
    { unfold d in Hd.
      destruct (Z.sgn_spec dr) as [[? ->]|[[? ->]|[? ->]]];
        destruct (Z.sgn_spec dc) as [[? ->]|[[? ->]|[? ->]]]; lia. }
    rewrite (path_loop_spec s _ _ _ _ (Z.to_nat d) Hnz (d - 1));
      [|unfold d in *; lia|lia|lia].
    split; intros H j Hj.
    + specialize (H (j - 1) ltac:(lia)).
      replace (from_row + Z.sgn dr + (j - 1) * Z.sgn dr)
        with (from_row + j * Z.sgn dr) in H by lia.
      now replace (from_col + Z.sgn dc + (j - 1) * Z.sgn dc)
        with (from_col + j * Z.sgn dc) in H by lia.
    + specialize (H (j + 1) ltac:(lia)).
      replace (from_row + (j + 1) * Z.sgn dr)
        with (from_row + Z.sgn dr + j * Z.sgn dr) in H by lia.
      now replace (from_col + (j + 1) * Z.sgn dc)
        with (from_col + Z.sgn dc + j * Z.sgn dc) in H by lia.
Qed.

Lemma is_path_clear_between_witness :
  is_path_clear ChessBoard_init 5 0 2 3 = true <->
  forall j,
    0 < j < Z.max (Z.abs (2 - 5)) (Z.abs (3 - 0)) ->
    get_piece ChessBoard_init (5 + j * Z.sgn (2 - 5))
              (0 + j * Z.sgn (3 - 0)) = None.
Proof.
  apply (is_path_clear_between ChessBoard_init 5 0 2 3).
  right. right. reflexivity.
Defined.

(** ** From the text typed in, or the bot, to an applied move *)

Lemma legal_move_accepted (s : ChessBoard) (m : Move) :
  In m (generate_legal_moves s (current_player s)) ->
  fst (make_move s m true) = true.
Proof.
  intros Hin. unfold make_move.
  rewrite (move_in_In _ _ Hin). cbn [negb andb].
  destruct (legal_move_origin s _ m Hin) as (row & col & piece & Hp & _ & Hm & _).
  pose proof (generate_piece_moves_from _ _ _ _ _ Hm) as Hfrom.
  apply (make_move_unchecked_board s m piece). now rewrite Hfrom.
Qed.

(** X21.  A move found by [find_move_from_input] is one of the legal
    moves of the side to move, it is the move the text names, and
    [make_move] accepts it with the legality gate on; when the text
    parses and nothing is found, no legal move matches it. *)
Theorem find_move_from_input_accepted (s : ChessBoard) (text : string) :
  (forall m,
     find_move_from_input s text = Some m ->
     In m (generate_legal_moves s (current_player s)) /\
     parse_move_input text = Some (from_pos m, to_pos m, promotion m) /\
     fst (make_move s m true) = true) /\
  (forall from to promo,
     parse_move_input text = Some (from, to, promo) ->
     find_move_from_input s text = None ->
     forall m, In m (generate_legal_moves s (current_player s)) ->
               ~ (from_pos m = from /\ to_pos m = to /\
                  promotion m = promo)).
Proof.
  unfold find_move_from_input. split.
  - intros m H.
    destruct (parse_move_input text) as [[[from to] promo]|];
      [|discriminate].
    apply find_some in H. destruct H as [Hin Hmatch].
    rewrite !andb_true_iff in Hmatch. destruct Hmatch as [[Hf Ht] Hp].
    apply Pos_eqb_eq in Hf. apply Pos_eqb_eq in Ht.
    apply promotion_eqb_eq in Hp. subst.
    repeat split; auto. now apply legal_move_accepted.
  - intros from to promo Hparse H m Hin [Hf [Ht Hp]].
    rewrite Hparse in H.
    pose proof (find_none _ _ H m Hin) as Hno. cbv beta in Hno.
    subst. unfold Pos_eqb in Hno. rewrite !Z.eqb_refl in Hno.
    cbn [andb] in Hno.
    rewrite (proj2 (promotion_eqb_eq _ _) eq_refl) in Hno. discriminate.
Qed.

Lemma find_move_from_input_accepted_witness :
  (exists m,
     find_move_from_input ChessBoard_init "E2e4 " = Some m /\
     In m (generate_legal_moves ChessBoard_init WHITE) /\
     parse_move_input "E2e4 " = Some (from_pos m, to_pos m, promotion m) /\
     fst (make_move ChessBoard_init m true) = true) /\
  (forall m, In m (generate_legal_moves ChessBoard_init WHITE) ->
             ~ (from_pos m = (6, 4) /\ to_pos m = (3, 4) /\
                promotion m = None)).
Proof.
  destruct (find_move_from_input_accepted ChessBoard_init "E2e4 ")
    as [Hfound _].
  destruct (find_move_from_input_accepted ChessBoard_init "e2e5")
    as [_ Hnone].
  split.
  - exists (plain_move (6, 4) (4, 4)).
    split; [vm_compute; reflexivity|].
    apply Hfound. vm_compute. reflexivity.
  - apply (Hnone (6, 4) (3, 4) None); vm_compute; reflexivity.
Defined.

Lemma get_best_move_in (self : ChessBot) (board : ChessBoard) (rnd : nat)
      (m : Move) :
  get_best_move self board rnd = Some m ->
  In m (generate_legal_moves board (bot_color self)).
Proof.
  unfold get_best_move. intros H.
  destruct (generate_legal_moves board (bot_color self))
    as [|m0 rest] eqn:Hlegal.
  - unfold get_best_move_scored in H. rewrite Hlegal in H. discriminate.
  - destruct (Z.eq_dec (difficulty self) 1) as [H1|H1].
    + unfold get_best_move_scored in H. rewrite Hlegal in H.
      apply Z.eqb_eq in H1. rewrite H1 in H. cbn [fst] in H.
      eapply nth_error_In; eauto.
    + destruct (get_best_move_search self board rnd H1)
        as (m' & s & Hrun & Hin & _); [now rewrite Hlegal|].
      rewrite Hrun in H. cbn [fst] in H. injection H as <-.
      now rewrite Hlegal in Hin.
Qed.

(** X22.  When the bot is the side to move, the move [get_best_move]
    returns is accepted by [make_move] with the legality gate on, and on
    an 8x8 grid the board after it has the other side to move and
    [halfmove_clock] at 0. *)
Theorem get_best_move_accepted (self : ChessBot) (board : ChessBoard)
        (rnd : nat) (m : Move) :
  wf_board board ->
  bot_color self = current_player board ->
  get_best_move self board rnd = Some m ->
  exists board',
    make_move board m true = (true, board') /\
    current_player board' = other_color (current_player board) /\
    halfmove_clock board' = 0 /\
    wf_board board'.
Proof.
  intros Hwf Hcolor Hbest.
  apply get_best_move_in in Hbest. rewrite Hcolor in Hbest.
  pose proof (legal_move_accepted board m Hbest) as Hok.
  destruct (make_move board m true) as [ok board'] eqn:Hrun.
  cbn [fst] in Hok. subst ok. exists board'.
  split; [reflexivity|].
  destruct (legal_move_clock board _ m Hwf Hbest)
    as (_ & Hclock & Hsame).
  rewrite <- (Hsame eq_refl), Hrun in Hclock. cbn [snd] in Hclock.
  pose proof (make_move_success _ _ _ _ Hrun) as Hun.
  destruct (make_move_unchecked_success _ _ _ Hun) as (_ & _ & Hcp & _).
  split; [exact Hcp|]. split; [exact Hclock|].
  replace board' with (snd (make_move_unchecked board m))
    by (now rewrite Hun).
  now apply make_move_unchecked_wf.
Qed.

Lemma get_best_move_accepted_witness :
  exists board',
    make_move ChessBoard_init (plain_move (6, 0) (5, 0)) true
    = (true, board') /\
    current_player board' = BLACK /\
    halfmove_clock board' = 0 /\
    wf_board board'.
Proof.
  apply (get_best_move_accepted (ChessBot_init WHITE 1) ChessBoard_init 0
           (plain_move (6, 0) (5, 0)) ChessBoard_init_wf).
  - reflexivity.
  - vm_compute. reflexivity.
Defined.

Lemma Move_eqb_fields (m m' : Move) :
  Move_eqb m m' = true <->
  from_pos m = from_pos m' /\ to_pos m = to_pos m' /\
  promotion m = promotion m'.
Proof.
  unfold Move_eqb. rewrite !andb_true_iff. split.
  - intros [[Hf Ht] Hp]. apply Pos_eqb_eq in Hf. apply Pos_eqb_eq in Ht.
    apply promotion_eqb_eq in Hp. auto.
  - intros (Hf & Ht & Hp). rewrite Hf, Ht, Hp.
    unfold Pos_eqb. rewrite !Z.eqb_refl.
    rewrite (proj2 (promotion_eqb_eq _ _) eq_refl). auto.
Qed.

(** X23.  Whether [make_move] accepts a move depends on its origin,
    destination and promotion only: two moves that [Move.__eq__] makes
    equal are accepted or rejected alike, whatever their castling and
    en-passant flags. *)
Theorem make_move_gate_ignores_flags (s : ChessBoard) (m m' : Move)
        (check_legality : bool) :
  Move_eqb m m' = true ->
  fst (make_move s m check_legality) = fst (make_move s m' check_legality).
Proof.
  intros Heq. apply Move_eqb_fields in Heq.
  destruct Heq as (Hf & Ht & Hp).
  assert (Hgate : forall l, move_in m l = move_in m' l).
  { intros l. unfold move_in. induction l as [|x l IH]; [reflexivity|].
    cbn [existsb]. rewrite IH. f_equal.
    unfold Move_eqb. now rewrite Hf, Ht, Hp. }
  assert (Hrun : fst (make_move_unchecked s m)
                 = fst (make_move_unchecked s m')).
  { unfold make_move_unchecked. rewrite <- Hf.
    destruct (from_pos m) as [fr fc].
    destruct (to_pos m), (to_pos m').
    destruct (get_piece s fr fc); reflexivity. }
  unfold make_move. rewrite Hgate.
  destruct (check_legality && _); [reflexivity|exact Hrun].
Qed.

Lemma make_move_gate_ignores_flags_witness :
  fst (make_move ChessBoard_init (plain_move (6, 4) (4, 4)) true)
  = fst (make_move ChessBoard_init (castling_move (6, 4) (4, 4)) true).
Proof.
  apply make_move_gate_ignores_flags. reflexivity.
Defined.

(** X24.  Among the candidate moves of a pawn other than en-passant
    captures, exactly those that reach the last row carry a promotion,
    and the promotion is to queen, rook, bishop or knight. *)
Theorem pawn_moves_promote_on_last_row (s : ChessBoard) (row col : Z)
        (color : Color) (m : Move) :
  In m (generate_pawn_moves s row col color) ->
  is_en_passant m = false ->
  (promotion m <> None <->
   fst (to_pos m) = match color with WHITE => 0 | BLACK => 7 end) /\
  (forall kind, promotion m = Some kind -> In kind promotion_pieces).
Proof.
  unfold generate_pawn_moves. cbn [flat_map]. intros H Hep.
  destruct color; in_cases; subst m; try discriminate Hep;
    cbn [promotion to_pos plain_move promotion_move fst snd];
    bounds;
    repeat match goal with
           | H : (_ =? _) = false |- _ => apply Z.eqb_neq in H
           end;
    first
      [ split;
        [ split; [intros _; lia | intros _; discriminate]
        | intros k [= <-]; assumption ]
      | split;
        [ split; [intros E; now contradiction E | intros; lia]
        | discriminate ] ].
Qed.

Lemma pawn_moves_promote_on_last_row_witness :
  let m := plain_move (6, 4) (4, 4) in
  (promotion m <> None <-> fst (to_pos m) = 0) /\
  (forall kind, promotion m = Some kind -> In kind promotion_pieces).
Proof.
  apply (pawn_moves_promote_on_last_row ChessBoard_init 6 4 WHITE).
  - vm_compute. tauto.
  - reflexivity.
Defined.

(** ** Copies of a board *)

(** X25.  The object [copy_board] returns is a new one with the contents
    of the board copied, and the two are independent: a [make_move] on
    either, with the gate on or off, leaves the other as it was. *)
Theorem copy_board_independent (h : Heap) (board : ref) (move : Move)
        (check_legality : bool) :
  (board < List.length h)%nat ->
  let copy := fst (copy_board board h) in
  let h1 := snd (copy_board board h) in
  copy <> board /\
  nth copy h1 blank = nth board h blank /\
  nth board h1 blank = nth board h blank /\
  nth board (snd (make_move_obj copy move check_legality h1)) blank
  = nth board h blank /\
  nth copy (snd (make_move_obj board move check_legality h1)) blank
  = nth board h blank.
Proof.
  intros Hb copy h1. unfold copy, h1, copy_board, deepcopy. cbn [fst snd].
  assert (Hlen : (List.length h
                  < List.length (h ++ [nth board h blank]))%nat)
    by (rewrite length_app; simpl; lia).
  assert (Hb1 : (board < List.length (h ++ [nth board h blank]))%nat)
    by lia.
  split; [lia|]. split; [apply nth_end|].
  split; [now apply nth_preserved|].
  split.
  - destruct (make_move_obj_run (List.length h) move check_legality
                (h ++ [nth board h blank]) Hlen) as [g Hg].
    rewrite Hg. cbn [snd].
    rewrite list_set_end.
    rewrite <- app_assoc. now apply nth_preserved.
  - destruct (make_move_obj_run board move check_legality
                (h ++ [nth board h blank]) Hb1) as [g Hg].
    rewrite Hg. cbn [snd].
    rewrite list_set_app_l by assumption.
    rewrite <- app_assoc.
    rewrite app_nth2 by (rewrite list_set_length; lia).
    rewrite list_set_length, Nat.sub_diag. reflexivity.
Qed.

Lemma copy_board_independent_witness :
  let h := [ChessBoard_init] in
  let move := plain_move (6, 4) (4, 4) in
  let copy := fst (copy_board 0%nat h) in
  let h1 := snd (copy_board 0%nat h) in
  copy <> 0%nat /\
  nth copy h1 blank = ChessBoard_init /\
  nth 0%nat h1 blank = ChessBoard_init /\
  nth 0%nat (snd (make_move_obj copy move true h1)) blank
  = ChessBoard_init /\
  nth copy (snd (make_move_obj 0%nat move true h1)) blank
  = ChessBoard_init.
Proof.
  apply (copy_board_independent [ChessBoard_init] 0%nat
           (plain_move (6, 4) (4, 4)) true).
  simpl. lia.
Defined.

(** ** Which of the best moves the bot plays *)

Lemma Score_le_lt_trans (a b c : Score) :
  Score_leb a b = true -> Score_ltb b c = true -> Score_ltb a c = true.
Proof. intros H1 H2. window_cases. Qed.

Lemma Score_lt_trans (a b c : Score) :
  Score_ltb a b = true -> Score_ltb b c = true -> Score_ltb a c = true.
Proof. intros H1 H2. window_cases. Qed.

(** The loop of [get_best_move] either keeps the move it started with,
    and then no move scores above the starting score, or ends with a move
    that scores strictly above every move tried before it and at least as
    high as every move after it. *)
Lemma best_move_loop_first (self : ChessBot) (board : ChessBoard)
      (moves : list Move) :
  forall best_move best_score,
    best_score <> PosInf ->
    let result :=
      best_move_loop self board moves best_move best_score best_score
                     PosInf in
    (fst result = best_move /\ snd result = best_score /\
     forall x, In x moves ->
               Score_leb (exhaustive_move_score self board x) best_score
               = true) \/
    (exists pre m post,
       moves = pre ++ m :: post /\
       fst result = Some m /\
       snd result = exhaustive_move_score self board m /\
       Score_ltb best_score (exhaustive_move_score self board m) = true /\
       (forall x, In x pre ->
                  Score_ltb (exhaustive_move_score self board x)
                            (exhaustive_move_score self board m) = true) /\
       (forall x, In x post ->
                  Score_leb (exhaustive_move_score self board x)
                            (exhaustive_move_score self board m) = true)).
Proof.
  induction moves as [|m rest IH]; intros best_move best_score Hfin.
  - left. simpl. repeat split. intros x [].
  - cbn zeta. cbn [best_move_loop].
    assert (Hw : Score_ltb best_score PosInf = true)
      by (destruct best_score; try reflexivity; congruence).
    pose proof (minimax_ab_ok self (Z.to_nat (difficulty self - 1))
                  (snd (make_move_unchecked board m)) best_score PosInf
                  false Hw) as Hab.
    destruct (minimax_exhaustive_fin self (Z.to_nat (difficulty self - 1))
                (snd (make_move_unchecked board m)) false) as [v Hv].
    change (minimax_exhaustive self (Z.to_nat (difficulty self - 1))
              (snd (make_move_unchecked board m)) false)
      with (exhaustive_move_score self board m) in Hab, Hv.
    rewrite Hv in Hab.
    set (score := minimax self _ _ best_score PosInf false) in *.
    clearbody score.
    destruct (Score_ltb best_score score) eqn:Hlt.
    + assert (Hs : score = Fin v).
      { clear - Hab Hlt Hfin. unfold ab_ok in Hab.
        destruct Hab as (H1 & _ & H3). window_cases. }
      subst score.
      assert (Hmax : Score_max best_score (Fin v) = Fin v)
        by (unfold Score_max; now rewrite Hlt).
      rewrite Hmax. cbn [Score_leb]. right.
      destruct (IH (Some m) (Fin v)) as [(E1 & E2 & Hall)|Hlater];
        [discriminate| |].
      * exists [], m, rest. rewrite Hv.
        repeat split; auto; intros x [].
      * destruct Hlater
          as (pre & m' & post & -> & E1 & E2 & Hgt & Hpre & Hpost).
        exists (m :: pre), m', post.
        repeat split; auto.
        -- eapply Score_lt_trans; eassumption.
        -- intros x [<-|Hx]; [|now apply Hpre].
           now rewrite Hv.
    + assert (Hcut : Score_leb PosInf best_score = false)
        by (destruct best_score; try reflexivity; congruence).
      assert (Hmax : Score_max best_score score = best_score)
        by (unfold Score_max; now rewrite Hlt).
      assert (Hle : Score_leb (exhaustive_move_score self board m)
                              best_score = true).
      { rewrite Hv. clear - Hab Hlt Hfin. unfold ab_ok in Hab.
        destruct Hab as (H1 & _ & H3). window_cases. }
      rewrite Hmax, Hcut.
      destruct (IH best_move best_score Hfin)
        as [(E1 & E2 & Hall)|Hlater].
      * left. repeat split; auto.
        intros x [<-|Hx]; [assumption|now apply Hall].
      * right.
        destruct Hlater
          as (pre & m' & post & -> & E1 & E2 & Hgt & Hpre & Hpost).
        exists (m :: pre), m', post.
        repeat split; auto.
        intros x [<-|Hx]; [|now apply Hpre].
        eapply Score_le_lt_trans; eassumption.
Qed.

(** X26.  Above difficulty 1, when there is a legal move, the move
    [get_best_move] returns is the first of the best ones in the order of
    [order_moves]: every move ordered before it has a strictly smaller
    exhaustive score, and no move ordered after it has a larger one. *)
Theorem get_best_move_first_of_best (self : ChessBot) (board : ChessBoard)
        (rnd : nat) :
  difficulty self <> 1 ->
  generate_legal_moves board (bot_color self) <> [] ->
  exists pre m post,
    get_best_move self board rnd = Some m /\
    order_moves self board (generate_legal_moves board (bot_color self))
    = pre ++ m :: post /\
    (forall x, In x pre ->
               Score_ltb (exhaustive_move_score self board x)
                         (exhaustive_move_score self board m) = true) /\
    (forall x, In x post ->
               Score_leb (exhaustive_move_score self board x)
                         (exhaustive_move_score self board m) = true).
Proof.
  intros Hd Hmoves. unfold get_best_move, get_best_move_scored.
  destruct (generate_legal_moves board (bot_color self))
    as [|m0 rest] eqn:Hlegal; [congruence|].
  destruct (Z.eqb_spec (difficulty self) 1) as [|_]; [contradiction|].
  destruct (best_move_loop_first self board
              (order_moves self board (m0 :: rest)) None NegInf)
    as [(E1 & E2 & Hall)|Hlater]; [discriminate| |].
  - exfalso. cbn zeta in Hall.
    assert (Hin : In m0 (order_moves self board (m0 :: rest))).
    { eapply Permutation_in;
        [symmetry; apply order_moves_perm|now left]. }
    specialize (Hall m0 Hin).
    destruct (minimax_exhaustive_fin self (Z.to_nat (difficulty self - 1))
                (snd (make_move_unchecked board m0)) false) as [z Hz].
    unfold exhaustive_move_score in Hall. rewrite Hz in Hall.
    discriminate.
  - cbn zeta in Hlater.
    destruct Hlater as (pre & m & post & E & E1 & E2 & _ & Hpre & Hpost).
    exists pre, m, post.
    destruct (best_move_loop self board _ None NegInf NegInf PosInf)
      as [best_move best_score].
    simpl in E1. subst best_move. repeat split; auto.
Qed.

Lemma get_best_move_first_of_best_witness :
  let self := ChessBot_init WHITE 2 in
  exists pre m post,
    get_best_move self pinned_rook 0 = Some m /\
    order_moves self pinned_rook
                (generate_legal_moves pinned_rook (bot_color self))
    = pre ++ m :: post /\
    (forall x, In x pre ->
               Score_ltb (exhaustive_move_score self pinned_rook x)
                         (exhaustive_move_score self pinned_rook m) = true) /\
    (forall x, In x post ->
               Score_leb (exhaustive_move_score self pinned_rook x)
                         (exhaustive_move_score self pinned_rook m) = true).
Proof.
  apply (get_best_move_first_of_best (ChessBot_init WHITE 2) pinned_rook 0).
  - vm_compute. discriminate.
  - vm_compute. discriminate.
Defined.

(** ** Candidate moves and attacked squares *)

Lemma enemy_of_origin_free (s : ChessBoard) (row col r c : Z)
      (piece : Piece) :
  get_piece s row col = Some piece ->
  (match get_piece s r c with
   | Some target => enemy_of_origin s row col target = true
   | None => True
   end <-> free_for s (piece_color piece) r c).
Proof.
  intros Hp. unfold free_for, enemy_of_origin. rewrite Hp.
  destruct (get_piece s r c) as [t|]; [|tauto].
  rewrite negb_true_iff. apply Color_eqb_neq.
Qed.

(** The moves of a ray, by the steps taken: the squares before the
    move's are on the board and empty. *)
Lemma ray_moves_prefix (s : ChessBoard) (row col dr dc : Z)
      (steps : list Z) (m : Move) :
  In m (ray_moves s row col dr dc steps) ->
  exists pre i post,
    steps = pre ++ i :: post /\
    m = plain_move (row, col) (row + i * dr, col + i * dc) /\
    is_valid_position (row + i * dr) (col + i * dc) = true /\
    match get_piece s (row + i * dr) (col + i * dc) with
    | Some target => enemy_of_origin s row col target = true
    | None => True
    end /\
    (forall j, In j pre ->
               get_piece s (row + j * dr) (col + j * dc) = None).
Proof.
  induction steps as [|i rest IH]; simpl; [contradiction|].
  destruct (is_valid_position _ _) eqn:Hv; simpl; [|contradiction].
  destruct (get_piece s _ _) as [t|] eqn:Hg.
  - destruct (enemy_of_origin _ _ _ _) eqn:He; simpl; [|contradiction].
    intros [<-|[]]. exists [], i, rest. rewrite Hg.
    repeat split; auto. intros j [].
  - simpl. intros [<-|H].
    + exists [], i, rest. rewrite Hg. repeat split; auto. intros j [].
    + destruct (IH H) as (pre & j & post & -> & -> & Hj & Ht & Hpre).
      exists (i :: pre), j, post. repeat split; auto.
      intros k [<-|Hk]; auto.
Qed.

Lemma ray_moves_reach (s : ChessBoard) (row col dr dc : Z)
      (pre : list Z) (i : Z) (post : list Z) :
  (forall j, In j pre ->
             is_valid_position (row + j * dr) (col + j * dc) = true /\
             get_piece s (row + j * dr) (col + j * dc) = None) ->
  is_valid_position (row + i * dr) (col + i * dc) = true ->
  match get_piece s (row + i * dr) (col + i * dc) with
  | Some target => enemy_of_origin s row col target = true
  | None => True
  end ->
  In (plain_move (row, col) (row + i * dr, col + i * dc))
     (ray_moves s row col dr dc (pre ++ i :: post)).
Proof.
  induction pre as [|j pre IH]; intros Hpre Hv Ht; simpl.
  - rewrite Hv. simpl.
    destruct (get_piece s _ _) as [t|]; [rewrite Ht|]; now left.
  - destruct (Hpre j (or_introl eq_refl)) as [Hjv Hj].
    rewrite Hjv, Hj. simpl. right.
    apply IH; auto. intros k Hk. apply Hpre. now right.
Qed.

Lemma range1_8_split (pre : list Z) (i : Z) (post : list Z) :
  range1_8 = pre ++ i :: post ->
  1 <= i <= 7 /\ forall j, In j pre <-> 1 <= j < i.
Proof.
  unfold range1_8. intros H.
  repeat (destruct pre as [|? pre];
          [injection H as <- <-; split; [lia|intros j; simpl; lia]
          |injection H as <- H]).
  destruct pre; discriminate.
Qed.

Lemma range1_8_at (i : Z) :
  1 <= i <= 7 ->
  exists pre post,
    range1_8 = pre ++ i :: post /\ forall j, In j pre -> 1 <= j < i.
Proof.
  intros Hi. unfold range1_8.
  assert (H : i = 1 \/ i = 2 \/ i = 3 \/ i = 4 \/ i = 5 \/ i = 6 \/ i = 7)
    by lia.
  destruct H as [->|[->|[->|[->|[->|[->| ->]]]]]].
  - exists [], [2; 3; 4; 5; 6; 7]. split; [reflexivity|simpl; lia].
  - exists [1], [3; 4; 5; 6; 7]. split; [reflexivity|simpl; lia].
  - exists [1; 2], [4; 5; 6; 7]. split; [reflexivity|simpl; lia].
  - exists [1; 2; 3], [5; 6; 7]. split; [reflexivity|simpl; lia].
  - exists [1; 2; 3; 4], [6; 7]. split; [reflexivity|simpl; lia].
  - exists [1; 2; 3; 4; 5], [7]. split; [reflexivity|simpl; lia].
  - exists [1; 2; 3; 4; 5; 6], []. split; [reflexivity|simpl; lia].
Qed.

(** Along a ray, [is_path_clear] looks at the squares before the
    target. *)
Lemma is_path_clear_ray (s : ChessBoard) (row col dr dc i : Z) :
  -1 <= dr <= 1 -> -1 <= dc <= 1 -> dr <> 0 \/ dc <> 0 -> 1 <= i ->
  (is_path_clear s row col (row + i * dr) (col + i * dc) = true <->
   forall j, 1 <= j < i ->
             get_piece s (row + j * dr) (col + j * dc) = None).
Proof.
  intros Hdr Hdc Hne Hi. unfold is_path_clear.
  rewrite !step_towards_sgn.
  replace (Z.sgn (row + i * dr - row)) with dr
    by (assert (dr = -1 \/ dr = 0 \/ dr = 1) as [->|[->| ->]] by lia;
        [rewrite Z.sgn_neg|rewrite Z.sgn_null|rewrite Z.sgn_pos]; lia).
  replace (Z.sgn (col + i * dc - col)) with dc
    by (assert (dc = -1 \/ dc = 0 \/ dc = 1) as [->|[->| ->]] by lia;
        [rewrite Z.sgn_neg|rewrite Z.sgn_null|rewrite Z.sgn_pos]; lia).
  replace (Z.max (Z.abs (row + i * dr - row)) (Z.abs (col + i * dc - col)))
    with i by nia.
  rewrite (path_loop_spec s dr dc (row + i * dr) (col + i * dc)
             (Z.to_nat i) Hne (i - 1) (row + dr) (col + dc))
    by lia.
  split; intros H j Hj.
  - specialize (H (j - 1) ltac:(lia)).
    replace (row + dr + (j - 1) * dr) with (row + j * dr) in H by lia.
    now replace (col + dc + (j - 1) * dc) with (col + j * dc) in H by lia.
  - specialize (H (j + 1) ltac:(lia)).
    replace (row + (j + 1) * dr) with (row + dr + j * dr) in H by lia.
    now replace (col + (j + 1) * dc) with (col + dc + j * dc) in H by lia.
Qed.

(** The moves of one ray of a rook, bishop or queen are the squares of
    the ray that are on the board, reached over empty squares and not
    held by the mover's side. *)
Lemma ray_moves_attack (s : ChessBoard) (row col dr dc r c : Z)
      (piece : Piece) :
  get_piece s row col = Some piece ->
  -1 <= dr <= 1 -> -1 <= dc <= 1 -> dr <> 0 \/ dc <> 0 ->
  (In (plain_move (row, col) (r, c))
      (ray_moves s row col dr dc range1_8) <->
   exists i,
     1 <= i /\ r = row + i * dr /\ c = col + i * dc /\
     is_valid_position r c = true /\
     is_path_clear s row col r c = true /\
     free_for s (piece_color piece) r c).
Proof.
  intros Hp Hdr Hdc Hne.
  pose proof (proj1 (valid_bounds _ _) (get_piece_valid _ _ _ _ Hp))
    as Horigin.
  split.
  - intros H. apply ray_moves_prefix in H.
    destruct H as (pre & i & post & Hsplit & Hm & Hv & Ht & Hpre).
    apply range1_8_split in Hsplit. destruct Hsplit as [Hi Hin].
    injection Hm as -> ->.
    exists i. repeat split; auto; try lia.
    + apply is_path_clear_ray; auto; try lia.
      intros j Hj. apply Hpre. now apply Hin.
    + now apply (enemy_of_origin_free s row col).
  - intros (i & Hi & -> & -> & Hv & Hclear & Hfree).
    pose proof (proj1 (valid_bounds _ _) Hv) as Hb.
    assert (Hi7 : 1 <= i <= 7) by nia.
    destruct (range1_8_at i Hi7) as (pre & post & -> & Hpre).
    apply ray_moves_reach; auto.
    + intros j Hj. apply Hpre in Hj. split.
      * apply valid_bounds. nia.
      * apply (proj1 (is_path_clear_ray s row col dr dc i Hdr Hdc Hne Hi)
                 Hclear). lia.
    + now apply (enemy_of_origin_free s row col _ _ piece Hp).
Qed.

Lemma rook_moves_attack (s : ChessBoard) (row col r c : Z) (piece : Piece) :
  get_piece s row col = Some piece ->
  (In (plain_move (row, col) (r, c)) (generate_rook_moves s row col) <->
   is_valid_position r c = true /\ (r, c) <> (row, col) /\
   can_rook_move s row col r c = true /\
   free_for s (piece_color piece) r c).
Proof.
  intros Hp. unfold generate_rook_moves, can_rook_move.
  cbn [flat_map]. rewrite !in_app_iff.
  rewrite !(ray_moves_attack s row col _ _ r c piece Hp) by lia.
  split.
  - intros [H|[H|[H|[H|[]]]]];
      destruct H as (i & Hi & Hr & Hc & Hv & Hclear & Hfree);
      (split; [exact Hv|]); (split; [intros [= E1 E2]; lia|]);
      (split; [|exact Hfree]);
      destruct (Z.eqb_spec row r); destruct (Z.eqb_spec col c);
        cbn [negb andb]; try exact Hclear; lia.
  - intros (Hv & Hne & Hrook & Hfree).
    destruct (Z.eqb_spec row r) as [Er|Er];
      destruct (Z.eqb_spec col c) as [Ec|Ec];
      cbn [negb andb] in Hrook; try discriminate.
    + exfalso. apply Hne. now subst.
    + destruct (Z.lt_ge_cases col c).
      * left. exists (c - col). repeat split; auto; lia.
      * right; left. exists (col - c). repeat split; auto; lia.
    + destruct (Z.lt_ge_cases row r).
      * right; right; left. exists (r - row). repeat split; auto; lia.
      * right; right; right; left. exists (row - r).
        repeat split; auto; lia.
Qed.

Lemma bishop_moves_attack (s : ChessBoard) (row col r c : Z)
      (piece : Piece) :
  get_piece s row col = Some piece ->
  (In (plain_move (row, col) (r, c)) (generate_bishop_moves s row col) <->
   is_valid_position r c = true /\ (r, c) <> (row, col) /\
   can_bishop_move s row col r c = true /\
   free_for s (piece_color piece) r c).
Proof.
  intros Hp. unfold generate_bishop_moves, can_bishop_move.
  cbn [flat_map]. rewrite !in_app_iff.
  rewrite !(ray_moves_attack s row col _ _ r c piece Hp) by lia.
  split.
  - intros [H|[H|[H|[H|[]]]]];
      destruct H as (i & Hi & Hr & Hc & Hv & Hclear & Hfree);
      (split; [exact Hv|]); (split; [intros [= E1 E2]; lia|]);
      (split; [|exact Hfree]);
      destruct (Z.eqb_spec (Z.abs (r - row)) (Z.abs (c - col)));
        cbn [negb]; try exact Hclear; lia.
  - intros (Hv & Hne & Hbishop & Hfree).
    destruct (Z.eqb_spec (Z.abs (r - row)) (Z.abs (c - col))) as [E|E];
      cbn [negb] in Hbishop; [|discriminate].
    assert (Hd : r <> row) by (intros ->; apply Hne; f_equal; lia).
    destruct (Z.lt_ge_cases row r); destruct (Z.lt_ge_cases col c).
    + left. exists (r - row). repeat split; auto; lia.
    + right; left. exists (r - row). repeat split; auto; lia.
    + right; right; left. exists (row - r). repeat split; auto; lia.
    + right; right; right; left. exists (row - r).
      repeat split; auto; lia.
Qed.

(** One square offered to a knight or a king. *)
Lemma jump_move_attack (s : ChessBoard) (row col r c new_row new_col : Z)
      (color : Color) :
  In (plain_move (row, col) (r, c))
     (if is_valid_position new_row new_col then
        match get_piece s new_row new_col with
        | Some target_piece =>
            if negb (Color_eqb (piece_color target_piece) color)
            then [plain_move (row, col) (new_row, new_col)]
            else []
        | None => [plain_move (row, col) (new_row, new_col)]
        end
      else []) <->
  r = new_row /\ c = new_col /\ is_valid_position r c = true /\
  free_for s color r c.
Proof.
  unfold free_for. split.
  - destruct (is_valid_position new_row new_col) eqn:Hv; [|intros []].
    destruct (get_piece s new_row new_col) as [t|] eqn:Hg.
    + destruct (Color_eqb (piece_color t) color) eqn:Hc; simpl;
        [intros []|].
      intros [[= <- <-]|[]]. rewrite Hg. repeat split; auto.
      now apply Color_eqb_neq.
    + intros [[= <- <-]|[]]. rewrite Hg. repeat split; auto.
  - intros (-> & -> & Hv & Hfree). rewrite Hv.
    destruct (get_piece s new_row new_col) as [t|]; [|now left].
    apply Color_eqb_neq in Hfree. rewrite Hfree. now left.
Qed.

Lemma knight_moves_attack (s : ChessBoard) (row col r c : Z)
      (piece : Piece) :
  get_piece s row col = Some piece ->
  (In (plain_move (row, col) (r, c)) (generate_knight_moves s row col) <->
   is_valid_position r c = true /\ (r, c) <> (row, col) /\
   can_knight_move row col r c = true /\
   free_for s (piece_color piece) r c).
Proof.
  intros Hp. unfold generate_knight_moves, enemy_of_origin.
  rewrite Hp. cbn [flat_map]. rewrite !in_app_iff.
  rewrite !jump_move_attack.
  unfold can_knight_move.
  rewrite orb_true_iff, !andb_true_iff, !Z.eqb_eq.
  split.
  - intros H.
    repeat (destruct H as [(-> & -> & Hv & Hfree)|H];
            [repeat split; auto; try lia; intros [= E1 E2]; lia|]).
    destruct H.
  - intros (Hv & Hne & Hk & Hfree).
    assert (H : (r = row + 2 /\ c = col + 1) \/
                (r = row + 2 /\ c = col + -1) \/
                (r = row + -2 /\ c = col + 1) \/
                (r = row + -2 /\ c = col + -1) \/
                (r = row + 1 /\ c = col + 2) \/
                (r = row + 1 /\ c = col + -2) \/
                (r = row + -1 /\ c = col + 2) \/
                (r = row + -1 /\ c = col + -2)) by lia.
    repeat (destruct H as [[Hr Hc]|H];
            [tauto|right]).
    tauto.
Qed.

Lemma king_moves_attack (s : ChessBoard) (row col r c : Z)
      (color : Color) :
  In (plain_move (row, col) (r, c)) (generate_king_moves s row col color) <->
  is_valid_position r c = true /\ (r, c) <> (row, col) /\
  can_king_move row col r c = true /\
  free_for s color r c.
Proof.
  unfold generate_king_moves. rewrite in_app_iff.
  cbn [flat_map]. cbn [Z.eqb andb]. rewrite !in_app_iff.
  rewrite !jump_move_attack.
  unfold can_king_move. rewrite andb_true_iff, !Z.leb_le.
  split.
  - intros [H|H].
    + repeat (destruct H as [H|H]);
        try (destruct H as (-> & -> & Hv & Hfree);
             repeat split; auto; try lia; intros [= E1 E2]; lia);
        destruct H.
    + exfalso. in_cases; discriminate.
  - intros (Hv & Hne & [Hr Hc] & Hfree). left.
    assert (Hoff : (r = row + -1 \/ r = row + 0 \/ r = row + 1) /\
                   (c = col + -1 \/ c = col + 0 \/ c = col + 1)) by lia.
    destruct Hoff as [[Er|[Er|Er]] [Ec|[Ec|Ec]]];
      try (exfalso; apply Hne; f_equal; lia);
      tauto.
Qed.

Lemma non_pawn_plain (s : ChessBoard) (row col : Z) (piece : Piece)
      (m : Move) :
  piece_type piece <> PAWN ->
  In m (generate_piece_moves s row col piece) ->
  is_castling m = false ->
  m = plain_move (row, col) (to_pos m).
Proof.
  intros Hnp H Hc. unfold generate_piece_moves in H.
  destruct (piece_type piece) eqn:Ht; [congruence| | | | |].
  - unfold generate_rook_moves in H. cbn [flat_map] in H.
    in_cases; ray_cases; subst m; reflexivity.
  - unfold generate_knight_moves in H. cbn [flat_map] in H.
    in_cases; subst m; reflexivity.
  - unfold generate_bishop_moves in H. cbn [flat_map] in H.
    in_cases; ray_cases; subst m; reflexivity.
  - unfold generate_queen_moves, generate_rook_moves,
      generate_bishop_moves in H. cbn [flat_map] in H.
    in_cases; ray_cases; subst m; reflexivity.
  - unfold generate_king_moves in H. cbn [flat_map] in H.
    cbn [Z.eqb andb] in H. in_cases; subst m;
      first [reflexivity | discriminate].
Qed.

(** X27.  For a rook, knight, bishop, queen or king on the board, move
    generation and the attack test agree: the piece has a candidate move
    to a square exactly when the square is on the board, is not the
    piece's own, is attacked by the piece according to
    [can_piece_attack_square], and is empty or held by the other side.
    Castling apart, these are all the piece's candidates. *)
Theorem piece_moves_iff_attacks (s : ChessBoard) (row col : Z)
        (piece : Piece) :
  get_piece s row col = Some piece ->
  piece_type piece <> PAWN ->
  (forall r c,
     In (plain_move (row, col) (r, c))
        (generate_piece_moves s row col piece) <->
     is_valid_position r c = true /\ (r, c) <> (row, col) /\
     can_piece_attack_square s row col r c = true /\
     free_for s (piece_color piece) r c) /\
  (forall m,
     In m (generate_piece_moves s row col piece) ->
     is_castling m = false ->
     m = plain_move (row, col) (to_pos m)).
Proof.
  intros Hp Hnp. split; [|intros m; now apply non_pawn_plain].
  intros r c. unfold generate_piece_moves, can_piece_attack_square.
  rewrite Hp.
  destruct (piece_type piece) eqn:Ht; [congruence| | | | |].
  - now apply rook_moves_attack.
  - now apply knight_moves_attack.
  - now apply bishop_moves_attack.
  - unfold generate_queen_moves. rewrite in_app_iff.
    rewrite (rook_moves_attack s row col r c piece Hp).
    rewrite (bishop_moves_attack s row col r c piece Hp).
    rewrite orb_true_iff. tauto.
  - apply king_moves_attack.
Qed.

Lemma piece_moves_iff_attacks_witness :
  (forall r c,
     In (plain_move (7, 1) (r, c))
        (generate_piece_moves ChessBoard_init 7 1
                              (mkPiece KNIGHT WHITE false)) <->
     is_valid_position r c = true /\ (r, c) <> (7, 1) /\
     can_piece_attack_square ChessBoard_init 7 1 r c = true /\
     free_for ChessBoard_init WHITE r c) /\
  (forall m,
     In m (generate_piece_moves ChessBoard_init 7 1
                                (mkPiece KNIGHT WHITE false)) ->
     is_castling m = false ->
     m = plain_move (7, 1) (to_pos m)).
Proof.
  apply (piece_moves_iff_attacks ChessBoard_init 7 1
           (mkPiece KNIGHT WHITE false)).
  - reflexivity.
  - discriminate.
Defined.

(** X28.  A candidate move of a pawn is either a step forward in its
    column onto an empty square, of one row or, from the pawn's starting
    row and over an empty square, of two; or a step onto a square the
    pawn attacks, which then holds a piece of the other side or, for an
    en-passant move, is the en-passant target. *)
Theorem pawn_moves_forward_or_capture (s : ChessBoard) (row col : Z)
        (color : Color) (m : Move) :
  In m (generate_pawn_moves s row col color) ->
  let direction := match color with WHITE => -1 | BLACK => 1 end in
  let start_row := match color with WHITE => 6 | BLACK => 1 end in
  let to_row := fst (to_pos m) in
  let to_col := snd (to_pos m) in
  (to_col = col /\ is_en_passant m = false /\
   get_piece s to_row to_col = None /\
   (to_row = row + direction \/
    (to_row = row + 2 * direction /\ row = start_row /\
     get_piece s (row + direction) col = None))) \/
  (can_pawn_attack row col to_row to_col color = true /\
   is_valid_position to_row to_col = true /\
   ((is_en_passant m = false /\
     exists target, get_piece s to_row to_col = Some target /\
                    piece_color target <> color) \/
    (is_en_passant m = true /\ en_passant_target s = Some (to_pos m)))).
Proof.
  unfold generate_pawn_moves, can_pawn_attack. cbn [flat_map]. intros H.
  cbv zeta.
  destruct color; in_cases; subst m;
    cbn [is_en_passant to_pos plain_move promotion_move en_passant_move
         fst snd];
    repeat match goal with
           | H : _ && _ = true |- _ =>
               apply andb_true_iff in H; destruct H
           | H : negb _ = true |- _ => apply negb_true_iff in H
           | H : (_ =? _) = true |- _ => apply Z.eqb_eq in H
           | H : Color_eqb _ _ = false |- _ => apply Color_eqb_neq in H
           | H : Pos_eqb _ _ = true |- _ => apply Pos_eqb_eq in H
           | H : occupied ?x = false |- _ =>
               destruct x eqn:?; [discriminate H|clear H]
           end;
    first
      [ left; repeat split; auto; first [ now left | right; repeat split; auto; lia ]
      | right;
        (split; [rewrite Z.eqb_refl; simpl; apply Z.eqb_eq; lia|]);
        (split; [assumption|]);
        first [ left; split; [reflexivity|eauto]
              | right; split; [reflexivity|congruence] ] ].
Qed.

Lemma pawn_moves_forward_or_capture_witness :
  let m := en_passant_move (3, 4) (2, 3) in
  (snd (to_pos m) = 4 /\ is_en_passant m = false /\
   get_piece en_passant_ready (fst (to_pos m)) (snd (to_pos m)) = None /\
   (fst (to_pos m) = 3 + -1 \/
    (fst (to_pos m) = 3 + 2 * -1 /\ 3 = 6 /\
     get_piece en_passant_ready (3 + -1) 4 = None))) \/
  (can_pawn_attack 3 4 (fst (to_pos m)) (snd (to_pos m)) WHITE = true /\
   is_valid_position (fst (to_pos m)) (snd (to_pos m)) = true /\
   ((is_en_passant m = false /\
     exists target,
       get_piece en_passant_ready (fst (to_pos m)) (snd (to_pos m))
       = Some target /\
       piece_color target <> WHITE) \/
    (is_en_passant m = true /\
     en_passant_target en_passant_ready = Some (to_pos m)))).
Proof.
  apply (pawn_moves_forward_or_capture en_passant_ready 3 4 WHITE
           (en_passant_move (3, 4) (2, 3))).
  vm_compute. tauto.
Defined.

(** ** The legal moves, square by square *)

Lemma valid_in_range8 (row col : Z) :
  is_valid_position row col = true -> In row range8 /\ In col range8.
Proof.
  intros H. apply valid_bounds in H. unfold range8. simpl. lia.
Qed.

(** X29.  The legal moves of a colour are exactly the candidate moves of
    the pieces of that colour standing on the squares of the board that
    pass [is_legal_move]; no square is left out, and a piece off the
    board or of the other colour contributes nothing. *)
Theorem generate_legal_moves_iff (s : ChessBoard) (color : Color)
        (m : Move) :
  In m (generate_legal_moves s color) <->
  exists piece,
    get_piece s (fst (from_pos m)) (snd (from_pos m)) = Some piece /\
    piece_color piece = color /\
    In m (generate_piece_moves s (fst (from_pos m)) (snd (from_pos m))
                               piece) /\
    is_legal_move s m = true.
Proof.
  split.
  - intros H. destruct (legal_move_origin s color m H)
      as (row & col & piece & Hp & Hc & Hm & Hl).
    rewrite (generate_piece_moves_from _ _ _ _ _ Hm). cbn [fst snd].
    exists piece. auto.
  - intros (piece & Hp & Hc & Hm & Hl).
    unfold generate_legal_moves. apply in_flat_map.
    exists (fst (from_pos m), snd (from_pos m), piece). split.
    + pose proof (get_piece_valid _ _ _ _ Hp) as Hv.
      destruct (valid_in_range8 _ _ Hv) as [Hr Hcol].
      apply get_all_pieces_complete; auto.
      unfold get_piece in Hp. now rewrite Hv in Hp.
    + apply filter_In. auto.
Qed.
